(** * Star-activity rankings: day/window aggregation, enrichment cache,
      fan-out client and refresh scheduler

    A shallow embedding of the TypeScript services of the repository
    (day service, week/month services, repository enricher, request
    post-processing, KV storage wrappers, the [fetchEach] stream client and
    the popular-list refresh check), together with the properties their
    specification states about them.

    Conventions of the embedding.
    - JSON values are the inductive type [json]; numbers are integers ([Z]),
      which is what scores and counts are.  Strings are Rocq strings (bytes);
      [toLowerCase] and the white space of [Number] are the ASCII ones.
    - A JavaScript object is the list of its own properties in the order
      [Object.entries] enumerates them: array-index keys in ascending numeric
      order first, then the other keys in insertion order.  Properties
      inherited from [Object.prototype] are not part of the model.
    - Code that can throw returns a [res]; code that talks to the KV store or
      to the network threads a world state explicitly. *)

From Stdlib Require Import List ZArith Lia Bool Ascii String Permutation.
From Stdlib Require Import Numbers.DecimalString.
From Stdlib Require Numbers.DecimalPos Numbers.DecimalZ.
Import ListNotations.

Open Scope string_scope.
Open Scope Z_scope.
Open Scope list_scope.

(* ================================================================== *)
(** * JavaScript values and objects *)
(* ================================================================== *)

Module Js.

#[local] Set Warnings "-register-all".

Inductive json : Type :=
| JNull
| JBool (b : bool)
| JNum (z : Z)
| JStr (s : string)
| JArr (l : list json)
| JObj (o : list (string * json)).

(** [if (v)] on a parsed JSON value. *)
Definition truthy (v : json) : bool :=
  match v with
  | JNull => false
  | JBool b => b
  | JNum z => negb (z =? 0)
  | JStr s => negb (s =? "")%string
  | JArr _ | JObj _ => true
  end.

(** [if (v)] on a possibly [undefined] value. *)
Definition truthy_opt (v : option json) : bool :=
  match v with
  | None => false
  | Some v => truthy v
  end.

Definition obj (V : Type) : Type := list (string * V).

Definition is_digit (c : ascii) : bool :=
  let n := nat_of_ascii c in ((48 <=? n) && (n <=? 57))%nat.

Definition digit_value (c : ascii) : N := (N_of_ascii c - 48)%N.

Fixpoint digits_value (acc : N) (s : string) : option N :=
  match s with
  | EmptyString => Some acc
  | String c r =>
      if is_digit c then digits_value (10 * acc + digit_value c)%N r else None
  end.

Definition decimal (n : N) : string := NilZero.string_of_uint (N.to_uint n).

(** A property key is an array index when it is the canonical decimal
    spelling of an integer below 2^32 - 1: reading it as a number and
    printing that number gives the key back. *)
Definition arrayIndex (k : string) : option N :=
  match digits_value 0 k with
  | Some n =>
      if ((n <? 4294967295)%N && (decimal n =? k)%string)%bool then Some n else None
  | None => None
  end.

(** [es.slice(0, k)]: a negative [k] counts from the end. *)
Definition slice0 {A : Type} (k : Z) (es : list A) : list A :=
  if k <? 0 then firstn (Z.to_nat (Z.max (Z.of_nat (List.length es) + k) 0)) es
  else firstn (Z.to_nat k) es.

Section Objects.
Context {V : Type}.

(** [o[k]]: [None] is [undefined]. *)
Fixpoint get (k : string) (o : obj V) : option V :=
  match o with
  | [] => None
  | (k', v) :: r => if (k' =? k)%string then Some v else get k r
  end.

Definition has (k : string) (o : obj V) : bool :=
  match get k o with Some _ => true | None => false end.

Fixpoint update (k : string) (v : V) (o : obj V) : obj V :=
  match o with
  | [] => []
  | (k', v') :: r =>
      if (k' =? k)%string then (k', v) :: r else (k', v') :: update k v r
  end.

(** A new array-index key goes before the first property that is not an
    array index or has a larger index. *)
Fixpoint insertIndex (n : N) (k : string) (v : V) (o : obj V) : obj V :=
  match o with
  | [] => [(k, v)]
  | (k', v') :: r =>
      match arrayIndex k' with
      | Some n' =>
          if (n <? n')%N then (k, v) :: (k', v') :: r
          else (k', v') :: insertIndex n k v r
      | None => (k, v) :: (k', v') :: r
      end
  end.

(** [o[k] = v]: an existing property keeps its place, a new one is placed
    by the enumeration order. *)
Definition set (k : string) (v : V) (o : obj V) : obj V :=
  if has k o then update k v o
  else match arrayIndex k with
       | Some n => insertIndex n k v o
       | None => o ++ [(k, v)]
       end.

(** [Object.fromEntries(es)]. *)
Definition fromEntries (es : list (string * V)) : obj V :=
  fold_left (fun o e => set (fst e) (snd e) o) es [].

Definition keys (o : obj V) : list string := map fst o.

(** The order [Object.entries] can produce: of two properties, an array
    index never follows a key that is not one, and array indices ascend. *)
Definition key_before (a b : string) : Prop :=
  match arrayIndex a, arrayIndex b with
  | Some x, Some y => (x < y)%N
  | Some _, None => True
  | None, Some _ => False
  | None, None => True
  end.

Inductive ordered : list string -> Prop :=
| ordered_nil : ordered []
| ordered_cons k ks :
    Forall (key_before k) ks -> ordered ks -> ordered (k :: ks).

Definition canonical (o : obj V) : Prop :=
  NoDup (keys o) /\ ordered (keys o).

Definition isIndex (e : string * V) : bool :=
  match arrayIndex (fst e) with Some _ => true | None => false end.

End Objects.

(** [String.prototype.toLowerCase], on ASCII letters. *)
Definition lower_ascii (c : ascii) : ascii :=
  let n := nat_of_ascii c in
  if ((65 <=? n) && (n <=? 90))%nat then ascii_of_nat (n + 32) else c.

Fixpoint toLowerCase (s : string) : string :=
  match s with
  | EmptyString => EmptyString
  | String c r => String (lower_ascii c) (toLowerCase r)
  end.

(** ** [Number(s)] is not [NaN]

    [Number] applied to a string yields [NaN] exactly when the trimmed string
    is neither empty nor a numeric literal: an optionally signed decimal
    literal (digits with optional fraction and exponent, or [Infinity]) or an
    unsigned binary, octal or hexadecimal integer literal. *)

Definition is_space (c : ascii) : bool :=
  let n := nat_of_ascii c in (((9 <=? n) && (n <=? 13)) || (n =? 32))%nat.

Fixpoint trimStart (s : list ascii) : list ascii :=
  match s with
  | c :: r => if is_space c then trimStart r else s
  | [] => []
  end.

Definition trim (s : list ascii) : list ascii :=
  rev (trimStart (rev (trimStart s))).

Fixpoint skip_digits (s : list ascii) : list ascii :=
  match s with
  | c :: r => if is_digit c then skip_digits r else s
  | [] => []
  end.

Definition is_char (x : ascii) (c : ascii) : bool := Ascii.eqb c x.

Definition skip_sign (s : list ascii) : list ascii :=
  match s with
  | c :: r => if (is_char "+" c || is_char "-" c)%bool then r else s
  | [] => []
  end.

(** The rest of a decimal literal after its mantissa: nothing, or an
    exponent part that reaches the end of the string. *)
Definition exponent_to_end (s : list ascii) : bool :=
  match s with
  | [] => true
  | c :: r =>
      if (is_char "e" c || is_char "E" c)%bool then
        match skip_sign r with
        | d :: r' => (is_digit d && match skip_digits r' with [] => true | _ => false end)%bool
        | [] => false
        end
      else false
  end.

Definition unsigned_decimal (s : list ascii) : bool :=
  if (string_of_list_ascii s =? "Infinity")%string then true
  else match s with
       | [] => false
       | c :: r =>
           if is_char "." c then
             match r with
             | d :: r' => (is_digit d && exponent_to_end (skip_digits r'))%bool
             | [] => false
             end
           else if is_digit c then
             match skip_digits r with
             | d :: r' =>
                 if is_char "." d then exponent_to_end (skip_digits r')
                 else exponent_to_end (d :: r')
             | [] => true
             end
           else false
       end.

Definition is_hex_digit (c : ascii) : bool :=
  let n := nat_of_ascii c in
  (is_digit c || ((65 <=? n) && (n <=? 70)) || ((97 <=? n) && (n <=? 102)))%nat%bool.

Definition is_octal_digit (c : ascii) : bool :=
  let n := nat_of_ascii c in ((48 <=? n) && (n <=? 55))%nat.

Definition is_binary_digit (c : ascii) : bool :=
  (is_char "0" c || is_char "1" c)%bool.

Definition all_digits (p : ascii -> bool) (s : list ascii) : bool :=
  match s with
  | [] => false
  | _ => forallb p s
  end.

Definition non_decimal (s : list ascii) : bool :=
  match s with
  | z :: x :: r =>
      if is_char "0" z then
        if (is_char "x" x || is_char "X" x)%bool then all_digits is_hex_digit r
        else if (is_char "o" x || is_char "O" x)%bool then all_digits is_octal_digit r
        else if (is_char "b" x || is_char "B" x)%bool then all_digits is_binary_digit r
        else false
      else false
  | _ => false
  end.

(** [isNaN(Number(s))]. *)
Definition isNaN_Number (s : string) : bool :=
  match trim (list_ascii_of_string s) with
  | [] => false
  | t => negb (non_decimal t || unsigned_decimal (skip_sign t))%bool
  end.

(** The property key of position [n] of an array or a string. *)
Definition index_key (n : nat) : string := NilZero.string_of_uint (Nat.to_uint n).

Definition indexed {A : Type} (l : list A) : obj A :=
  combine (map index_key (seq 0 (List.length l))) l.

Definition chars (s : string) : list json :=
  map (fun c => JStr (String c EmptyString)) (list_ascii_of_string s).

(** Own enumerable properties of a value, as [Object.entries] and the object
    spread see them: a string exposes its characters and an array its
    elements under their indices. *)
Definition ownEntries (v : json) : obj json :=
  match v with
  | JObj o => o
  | JArr l => indexed l
  | JStr s => indexed (chars s)
  | JNull | JBool _ | JNum _ => []
  end.

(** ** Results of code that can throw *)

Inductive res (A : Type) : Type :=
| Ok (a : A)
| Throw (message : string).
Arguments Ok {A} a.
Arguments Throw {A} message.

(** [Object.entries(v)] throws a [TypeError] on [null]. *)
Definition Object_entries (v : json) : res (obj json) :=
  match v with
  | JNull => Throw "Cannot convert undefined or null to object"
  | _ => Ok (ownEntries v)
  end.

End Js.

Import Js.

(* ================================================================== *)
(** * The world: KV namespace and network *)
(* ================================================================== *)

Module World.

(** A piece of text that is meant to be JSON: either the serialization of a
    value, or text that [JSON.parse] rejects with the given message. *)
Inductive text : Type :=
| Serialized (v : json)
| Malformed (raw : string) (message : string).

Definition JSON_stringify (v : json) : text := Serialized v.

Definition JSON_parse (t : text) : res json :=
  match t with
  | Serialized v => Ok v
  | Malformed _ message => Throw message
  end.

(** [if (t)] on a string: only the empty string is falsy. *)
Definition nonempty (t : text) : bool :=
  match t with
  | Serialized _ => true
  | Malformed raw _ => negb (raw =? "")%string
  end.

Record cell : Type := { value : text; expirationTtl : option Z }.

Inductive op : Type := Get | Put | Delete.

Record response : Type :=
  { ok : bool; status : Z; statusText : string; body : text }.

(** The state the services run against: the KV namespace, which of its
    operations fail, the remote servers (whose answer may depend on the
    requests made so far) and the log of outbound requests. *)
Record world : Type :=
  { kv : obj cell;
    kv_fails : op -> string -> bool;
    net : list string -> string -> res response;
    requests : list string }.

Definition with_kv (w : world) (s : obj cell) : world :=
  {| kv := s; kv_fails := kv_fails w; net := net w; requests := requests w |}.

Definition with_request (w : world) (url : string) : world :=
  {| kv := kv w; kv_fails := kv_fails w; net := net w;
     requests := requests w ++ [url] |}.

(** Computations that may throw and that change the world. *)
Definition M (A : Type) : Type := world -> res A * world.

Definition ret {A} (a : A) : M A := fun w => (Ok a, w).

Definition throw {A} (message : string) : M A := fun w => (Throw message, w).

Definition bind {A B} (m : M A) (k : A -> M B) : M B :=
  fun w =>
    match m w with
    | (Ok a, w') => k a w'
    | (Throw message, w') => (Throw message, w')
    end.

(** [try { m } catch (error) { handler(error.message) }]. *)
Definition try_catch {A} (m : M A) (handler : string -> M A) : M A :=
  fun w =>
    match m w with
    | (Ok a, w') => (Ok a, w')
    | (Throw message, w') => handler message w'
    end.

Definition lift {A} (r : res A) : M A := fun w => (r, w).

Declare Scope js_scope.
Delimit Scope js_scope with js.
Notation "x <- m ;; k" := (bind m (fun x => k))
  (at level 61, m at next level, right associativity) : js_scope.
Notation "m ;;; k" := (bind m (fun _ => k))
  (at level 61, right associativity) : js_scope.

Definition removeKey {V} (k : string) (o : obj V) : obj V :=
  filter (fun e => negb (fst e =? k)%string) o.

(** [env.GITHUB_STARS_CACHE.get(key)]. *)
Definition kv_get (key : string) : M (option text) :=
  fun w =>
    if kv_fails w Get key then (Throw "KV GET failed", w)
    else (Ok (option_map value (get key (kv w))), w).

(** [env.GITHUB_STARS_CACHE.put(key, t, { expirationTtl })]. *)
Definition kv_put (key : string) (t : text) (ttl : option Z) : M unit :=
  fun w =>
    if kv_fails w Put key then (Throw "KV PUT failed", w)
    else (Ok tt, with_kv w (set key {| value := t; expirationTtl := ttl |} (kv w))).

(** [env.GITHUB_STARS_CACHE.delete(key)]. *)
Definition kv_delete (key : string) : M unit :=
  fun w =>
    if kv_fails w Delete key then (Throw "KV DELETE failed", w)
    else (Ok tt, with_kv w (removeKey key (kv w))).

(** [fetch(url)]: a network error rejects. *)
Definition fetch (url : string) : M response :=
  fun w => (net w (requests w) url, with_request w url).

(** [new Error(message).message || fallback]. *)
Definition message_or (message fallback : string) : string :=
  if (message =? "")%string then fallback else message.

Definition Z_to_string (z : Z) : string := NilZero.string_of_int (Z.to_int z).

End World.

Import World.
Open Scope js_scope.

(* ================================================================== *)
(** * Day storage (starsRefactor/src/day/dayStorage.ts) *)
(* ================================================================== *)

Module DayStorage.

Definition getCachedData (cacheKey : string) : M json :=
  try_catch
    (cachedData <- kv_get cacheKey ;;
     match cachedData with
     | Some t => if nonempty t then lift (JSON_parse t) else ret JNull
     | None => ret JNull
     end)
    (fun _ => ret JNull).

Definition cacheData (cacheKey : string) (data : json) (ttl : Z) : M unit :=
  try_catch
    (kv_put cacheKey (JSON_stringify data) (Some ttl))
    (fun _ => throw "Failed to cache data").

Definition default_ttl : Z := 86400.

Definition deleteCachedData (cacheKey : string) : M unit :=
  try_catch
    (kv_delete cacheKey)
    (fun _ => throw "Failed to delete cached data").

End DayStorage.

(* ================================================================== *)
(** * Day service (backend/src/day/dayService.ts)

    The service keeps its cache behind the [DayStorage] class it imports
    from its own directory; the class of that name among the sources is the
    one above. *)
(* ================================================================== *)

Module DayService.

(** A [limit] is [None] when the parameter is [undefined] or [NaN]; both
    are falsy wherever the code tests it. *)
Definition limit_truthy (limit : option Z) : option Z :=
  match limit with
  | Some k => if k =? 0 then None else Some k
  | None => None
  end.

Definition repoEntries (data : json) : list (string * json) :=
  filter (fun e => negb (isNaN_Number (fst e))) (ownEntries data).

Definition limitedEntries (data : json) (limit : option Z) : list (string * json) :=
  match limit_truthy limit with
  | Some k => slice0 k (repoEntries data)
  | None => repoEntries data
  end.

(** The body of the [forEach] callback: the entry at position [i]. *)
Definition assign (totalRepos : nat) (result : obj Z) (i : nat) (e : string * json) : obj Z :=
  match snd e with
  | JStr repoName => set (toLowerCase repoName) (Z.of_nat totalRepos - Z.of_nat i) result
  | _ => result
  end.

Fixpoint forEach_from (totalRepos : nat) (i : nat) (es : list (string * json))
    (result : obj Z) : obj Z :=
  match es with
  | [] => result
  | e :: r => forEach_from totalRepos (S i) r (assign totalRepos result i e)
  end.

Definition formatResponse (data : json) (limit : option Z) : obj Z :=
  let limited := limitedEntries data limit in
  let totalRepos := List.length limited in
  forEach_from totalRepos 0 limited [].

Definition fetchAndAggregateData (date : string) : M json :=
  try_catch
    (let url := ("https://activity.forgithub.com/top100-starred-in-" ++ date ++ ".json")%string in
     response <- fetch url ;;
     if negb (ok response) then
       throw ("Failed to fetch data: " ++ Z_to_string (status response) ++ " "
                ++ statusText response)%string
     else lift (JSON_parse (body response)))
    (fun _ => ret (JObj [])).

Section Sorting.
(** [Array.prototype.sort] with the comparator [(b as number) - (a as
    number)] on the values of the upstream document.  These values are
    mostly strings, on which the comparator yields [NaN]; what the services
    rely on is only that sorting permutes the entries. *)
Variable sortByValue : list (string * json) -> list (string * json).

Definition getDailyStars (date : string) (limit : option Z) : M (obj Z) :=
  let cacheKey := ("v4-" ++ date)%string in
  cachedData <- DayStorage.getCachedData cacheKey ;;
  if truthy cachedData then ret (formatResponse cachedData limit)
  else
    repoData <- fetchAndAggregateData date ;;
    if (negb (truthy repoData) || (List.length (ownEntries repoData) =? 0)%nat)%bool then
      DayStorage.cacheData cacheKey (JObj []) DayStorage.default_ttl ;;;
      ret []
    else
      let sortedEntries := sortByValue (ownEntries repoData) in
      let final := JObj (fromEntries sortedEntries) in
      DayStorage.cacheData cacheKey final DayStorage.default_ttl ;;;
      ret (formatResponse final limit).

End Sorting.

End DayService.

(* ================================================================== *)
(** * Day service of the refactoring (src/unnamed/part_008) *)
(* ================================================================== *)

Module DayServiceRefactor.

Definition applyLimit (data : json) (limit : option Z) : json :=
  match DayService.limit_truthy limit with
  | None => data
  | Some k => JObj (fromEntries (slice0 k (ownEntries data)))
  end.

End DayServiceRefactor.

(* ================================================================== *)
(** * Week and month services
      (backend/src/week/weekService.ts, src/unnamed/part_004) *)
(* ================================================================== *)

Module Window.

(** [typeof score === 'number' ? score : 0]. *)
Definition numericScore (score : json) : Z :=
  match score with
  | JNum z => z
  | _ => 0
  end.

(** [aggregatedData[repo] || 0]. *)
Definition or_zero (v : option Z) : Z :=
  match v with
  | Some z => if z =? 0 then 0 else z
  | None => 0
  end.

Definition addEntry (aggregatedData : obj Z) (e : string * json) : obj Z :=
  set (fst e) (or_zero (get (fst e) aggregatedData) + numericScore (snd e))
      aggregatedData.

(** One iteration of the loop over the URLs.  Nothing can throw once the
    inner loop has started, so a day is added whole or not at all. *)
Definition processUrl (aggregatedData : obj Z) (url : string) : M (obj Z) :=
  try_catch
    (response <- fetch url ;;
     if negb (ok response) then ret aggregatedData
     else
       data <- lift (JSON_parse (body response)) ;;
       entries <- lift (Object_entries data) ;;
       ret (fold_left addEntry entries aggregatedData))
    (fun _ => ret aggregatedData).

Fixpoint forUrls (urls : list string) (aggregatedData : obj Z) : M (obj Z) :=
  match urls with
  | [] => ret aggregatedData
  | url :: rest =>
      aggregatedData' <- processUrl aggregatedData url ;;
      forUrls rest aggregatedData'
  end.

(** [entries.sort(([, a], [, b]) => b - a)] on numbers: the stable sort by
    descending value. *)
Fixpoint insertDesc (e : string * Z) (sorted : list (string * Z)) : list (string * Z) :=
  match sorted with
  | [] => [e]
  | x :: r => if snd e <? snd x then x :: insertDesc e r else e :: x :: r
  end.

Definition sortDesc (es : list (string * Z)) : list (string * Z) :=
  fold_right insertDesc [] es.

Section Clock.
(** [dateString i] is the local [YYYY-MM-DD] rendering of the current
    date minus [i] days. *)
Variable dateString : nat -> string.

Definition urlsOfLast (n : nat) : list string :=
  map (fun i => ("http://127.0.0.1:8787/" ++ dateString i)%string) (seq 0 n).

Definition aggregateLast (n : nat) : M (obj Z) :=
  aggregatedData <- forUrls (urlsOfLast n) [] ;;
  ret (fromEntries (sortDesc aggregatedData)).

Definition getLastWeekData : M (obj Z) := aggregateLast 7.

Definition getLastMonthData : M (obj Z) := aggregateLast 30.

End Clock.

End Window.

(* ================================================================== *)
(** * Repository enricher (backend/src/utils/repositoryEnricher.ts) *)
(* ================================================================== *)

Module RepositoryEnricher.

Inductive timeframe : Type := day | week | month.

Definition timeframe_name (t : timeframe) : string :=
  match t with
  | day => "day"
  | week => "week"
  | month => "month"
  end.

Record CacheConfig : Type := { ttl : Z; timeframe_of : timeframe }.

(** [v.info !== null] and [!v.error] on an entry. *)
Definition info_not_null (e : obj json) : bool :=
  match get "info" e with
  | Some JNull => false
  | _ => true
  end.

Definition no_error (e : obj json) : bool := negb (truthy_opt (get "error" e)).

Definition failure (score : json) (message : string) : obj json :=
  [("score", score); ("info", JNull);
   ("error", JStr (message_or message "Unknown error occurred"))].

Definition getFromCache (key : string) : M json :=
  try_catch
    (cachedValue <- kv_get key ;;
     match cachedValue with
     | Some t => if nonempty t then lift (JSON_parse t) else ret JNull
     | None => ret JNull
     end)
    (fun _ => ret JNull).

Definition storeInCache (key : string) (data : obj json) (ttl : Z) : M unit :=
  try_catch
    (kv_put key (JSON_stringify (JObj data)) (Some ttl))
    (fun _ => ret tt).

Definition detailsUrl (repoFullName : string) : string :=
  ("https://cache.forgithub.com/" ++ repoFullName ++ "/details")%string.

Definition fetchRepositoryInfo (repoFullName : string) (score : json) : M (obj json) :=
  try_catch
    (response <- fetch (detailsUrl repoFullName) ;;
     if negb (ok response) then
       throw ("Failed to fetch repository info: " ++ Z_to_string (status response)
                ++ " " ++ statusText response)%string
     else
       repoInfo <- lift (JSON_parse (body response)) ;;
       ret [("score", score); ("info", repoInfo)])
    (fun message => ret (failure score message)).

Definition cacheKeyOf (cacheConfig : CacheConfig) (repoFullName : string) : string :=
  ("repo_info:" ++ timeframe_name (timeframe_of cacheConfig) ++ ":" ++ repoFullName)%string.

Definition getRepositoryInfo (repoFullName : string) (score : json)
    (cacheConfig : CacheConfig) : M (obj json) :=
  try_catch
    (let cacheKey := cacheKeyOf cacheConfig repoFullName in
     cachedData <- getFromCache cacheKey ;;
     if truthy cachedData then
       ret (set "score" score (fromEntries (ownEntries cachedData)))
     else
       repoInfo <- fetchRepositoryInfo repoFullName score ;;
       (if (info_not_null repoInfo && no_error repoInfo)%bool
        then storeInCache cacheKey repoInfo (ttl cacheConfig)
        else ret tt) ;;;
       ret repoInfo)
    (fun message => ret (failure score message)).

(** [enrichRepositories] starts one [getRepositoryInfo] per input property
    and stores each result under its repository name when it completes.
    This is the schedule in which they complete in input order. *)
Fixpoint enrichInOrder (entries : list (string * json)) (cacheConfig : CacheConfig)
    (enrichedData : obj (obj json)) : M (obj (obj json)) :=
  match entries with
  | [] => ret enrichedData
  | (repoFullName, score) :: rest =>
      result <- getRepositoryInfo repoFullName score cacheConfig ;;
      enrichInOrder rest cacheConfig (set repoFullName result enrichedData)
  end.

Definition DEFAULT_CACHE_TTL (t : timeframe) : Z :=
  match t with
  | day => 3600
  | week => 7200
  | month => 14400
  end.

Definition enrichRepositories (repoData : obj json) (cacheConfig : option CacheConfig)
  : M (obj (obj json)) :=
  let config := match cacheConfig with
                | Some c => c
                | None => {| ttl := DEFAULT_CACHE_TTL day; timeframe_of := day |}
                end in
  enrichInOrder repoData config [].

End RepositoryEnricher.

(* ================================================================== *)
(** * Post-processing of a response (src/unnamed/part_001) *)
(* ================================================================== *)

Module Main.

Import RepositoryEnricher.

(** The cached enriched response gets the scores of the current data. *)
Definition refreshScores (data : obj json) (enrichedData : obj (obj json))
  : obj (obj json) :=
  map (fun e => match get (fst e) data with
                | Some score => (fst e, set "score" score (snd e))
                | None => e
                end) enrichedData.

Definition keep (repoData : obj json) : bool :=
  (no_error repoData && info_not_null repoData)%bool.

(** [Object.entries(enrichedData).filter(...).reduce(...)]. *)
Definition filterErrors (includeErrors : bool) (enrichedData : obj (obj json))
  : obj (obj json) :=
  if includeErrors then enrichedData
  else fold_left (fun acc e => set (fst e) (snd e) acc)
                 (filter (fun e => keep (snd e)) enrichedData) [].

(** [limit && limit > 0]. *)
Definition applyLimit (limit : option Z) (filteredData : obj (obj json))
  : obj (obj json) :=
  match limit with
  | Some k => if (negb (k =? 0) && (0 <? k))%bool
              then fromEntries (slice0 k filteredData)
              else filteredData
  | None => filteredData
  end.

Definition finalData (includeErrors : bool) (limit : option Z)
    (enrichedData : obj (obj json)) : obj (obj json) :=
  applyLimit limit (filterErrors includeErrors enrichedData).

End Main.

(* ================================================================== *)
(** * Refresh check of the popular-repositories cache
      (backend/env/types.ts, backend/env/env.ts) *)
(* ================================================================== *)

Module Refresh.

Record Config : Type :=
  { apiRefreshHour : Z; apiRefreshBuffer : Z; popularReposCacheKey : string }.

(** The values of [DEV_CONFIG] in env.ts. *)
Definition DEV_CONFIG : Config :=
  {| apiRefreshHour := 1;
     apiRefreshBuffer := 30;
     popularReposCacheKey := "popular-repositories-list" |}.

(** A [Date] as seen through its UTC getters ([getUTCMonth] counts from 0). *)
Record Date : Type :=
  { getUTCFullYear : Z; getUTCMonth : Z; getUTCDate : Z;
    getUTCHours : Z; getUTCMinutes : Z }.

(** [new Date(text)]: a date, or the invalid date whose getters are [NaN]. *)
Inductive parsed_date : Type :=
| ValidDate (d : Date)
| InvalidDate.

(** The binding [env.REPO_CACHE] may be missing; its [get] may reject. *)
Record Env : Type := { REPO_CACHE : option (string -> res (option string)) }.

Section Check.
Variable config : Config.
Variable Date_parse : string -> parsed_date.
Variable JSON_parse_text : string -> res json.

Definition lastRefreshKey : string :=
  (popularReposCacheKey config ++ "-last-refresh")%string.

Definition isSameDay (lastRefresh now : Date) : bool :=
  ((getUTCFullYear lastRefresh =? getUTCFullYear now)
   && (getUTCMonth lastRefresh =? getUTCMonth now)
   && (getUTCDate lastRefresh =? getUTCDate now))%bool.

Definition wasAfterRefreshTime (lastRefresh : Date) : bool :=
  ((apiRefreshHour config <? getUTCHours lastRefresh)
   || ((getUTCHours lastRefresh =? apiRefreshHour config)
       && (apiRefreshBuffer config <=? getUTCMinutes lastRefresh)))%bool.

(** [now] is the clock reading taken inside the function. *)
Definition hasRefreshedToday (env : Env) (now : Date) : bool :=
  match REPO_CACHE env with
  | None => false
  | Some cache_get =>
      match cache_get lastRefreshKey with
      | Throw _ => false
      | Ok None => false
      | Ok (Some lastRefreshTimestamp) =>
          if (lastRefreshTimestamp =? "")%string then false
          else match Date_parse lastRefreshTimestamp with
               | InvalidDate => false
               | ValidDate lastRefresh =>
                   (isSameDay lastRefresh now && wasAfterRefreshTime lastRefresh)%bool
               end
      end
  end.

Definition isTimeToRefresh (now : Date) : bool :=
  (((getUTCHours now =? apiRefreshHour config)
    && (apiRefreshBuffer config <=? getUTCMinutes now))
   || (apiRefreshHour config <? getUTCHours now))%bool.

(** [now] is read when the check starts, [now'] inside
    [hasRefreshedToday]. *)
Definition shouldRefreshCache (env : Env) (now now' : Date) : bool :=
  if negb (isTimeToRefresh now) then false
  else
    let alreadyRefreshed := hasRefreshedToday env now' in
    (isTimeToRefresh now && negb alreadyRefreshed)%bool.

(** [getPopularReposFromCache]: [JNull] is the miss that makes the caller
    fetch the list again. *)
Definition getPopularReposFromCache (env : Env) (now now' : Date) : json :=
  match REPO_CACHE env with
  | None => JNull
  | Some cache_get =>
      if shouldRefreshCache env now now' then JNull
      else match cache_get (popularReposCacheKey config) with
           | Throw _ => JNull
           | Ok None => JNull
           | Ok (Some cachedRepos) =>
               if (cachedRepos =? "")%string then JNull
               else match JSON_parse_text cachedRepos with
                    | Ok repositories => repositories
                    | Throw _ => JNull
                    end
           end
  end.

End Check.

(** Reading back a timestamp written by [toISOString],
    [YYYY-MM-DDTHH:mm:ss.sssZ]; anything else is taken as invalid. *)
Definition digits_at (s : string) (start len : nat) : option Z :=
  option_map Z.of_N (digits_value 0 (substring start len s)).

Definition separators_ok (s : string) : bool :=
  ((String.length s =? 24)%nat
   && (substring 4 1 s =? "-")%string && (substring 7 1 s =? "-")%string
   && (substring 10 1 s =? "T")%string && (substring 13 1 s =? ":")%string
   && (substring 16 1 s =? ":")%string && (substring 19 1 s =? ".")%string
   && (substring 23 1 s =? "Z")%string)%bool.

Definition Date_parse_iso (s : string) : parsed_date :=
  if separators_ok s then
    match digits_at s 0 4, digits_at s 5 2, digits_at s 8 2,
          digits_at s 11 2, digits_at s 14 2, digits_at s 17 2, digits_at s 20 3 with
    | Some y, Some mo, Some d, Some h, Some mi, Some sec, Some _ =>
        if ((1 <=? mo) && (mo <=? 12) && (1 <=? d) && (d <=? 31)
            && (h <? 24) && (mi <? 60) && (sec <? 60))%bool
        then ValidDate {| getUTCFullYear := y; getUTCMonth := mo - 1; getUTCDate := d;
                          getUTCHours := h; getUTCMinutes := mi |}
        else InvalidDate
    | _, _, _, _, _, _, _ => InvalidDate
    end
  else InvalidDate.

(** The calendar day of [a] is before that of [b]. *)
Definition previousDay (a b : Date) : Prop :=
  getUTCFullYear a < getUTCFullYear b
  \/ (getUTCFullYear a = getUTCFullYear b /\ getUTCMonth a < getUTCMonth b)
  \/ (getUTCFullYear a = getUTCFullYear b /\ getUTCMonth a = getUTCMonth b
      /\ getUTCDate a < getUTCDate b).

Definition sameDay (a b : Date) : Prop :=
  getUTCFullYear a = getUTCFullYear b /\ getUTCMonth a = getUTCMonth b
  /\ getUTCDate a = getUTCDate b.

(** A cache that holds the given refresh marker and nothing else. *)
Definition marked (marker : string) : Env :=
  {| REPO_CACHE :=
       Some (fun key => if (key =? "popular-repositories-list-last-refresh")%string
                        then Ok (Some marker) else Ok None) |}.

(** A cache whose reads fail. *)
Definition failing : Env :=
  {| REPO_CACHE := Some (fun _ => Throw "KV GET failed") |}.

Definition at_0200_on_march_18 : Date :=
  {| getUTCFullYear := 2025; getUTCMonth := 2; getUTCDate := 18;
     getUTCHours := 2; getUTCMinutes := 0 |}.

End Refresh.

(* ================================================================== *)
(** * The fan-out client (src/unnamed/part_009) *)
(* ================================================================== *)

Module FetchEach.

Definition newline : ascii := ascii_of_nat 10.

(** [s.split("\n")]: never empty. *)
Fixpoint split (s : string) : list string :=
  match s with
  | EmptyString => [EmptyString]
  | String c r =>
      if Ascii.eqb c newline then EmptyString :: split r
      else match split r with
           | h :: t => String c h :: t
           | [] => [String c EmptyString]
           end
  end.

(** [s.startsWith(p)]. *)
Fixpoint startsWith (p s : string) : bool :=
  match p with
  | EmptyString => true
  | String a p' =>
      match s with
      | EmptyString => false
      | String b s' => (Ascii.eqb a b && startsWith p' s')%bool
      end
  end.
Arguments startsWith : simpl never.

(** [s.slice(n)]. *)
Fixpoint slice (n : nat) (s : string) : string :=
  match n, s with
  | O, _ => s
  | S n', String _ r => slice n' r
  | S _, EmptyString => EmptyString
  end.
Arguments slice : simpl never.

Definition trimmed (s : string) : string :=
  string_of_list_ascii (trim (list_ascii_of_string s)).
Arguments trimmed : simpl never.

(** [lines.indexOf(line)]. *)
Fixpoint indexOf (line : string) (lines : list string) : option nat :=
  match lines with
  | [] => None
  | l :: r => if (l =? line)%string then Some O
              else option_map S (indexOf line r)
  end.

Record state : Type :=
  { buffer : string;
    resultBuffer : string;
    collectingResult : bool;
    logged : list string }.

Inductive flow : Type :=
| Continue (st : state)
| Return (array : option json).

Section Client.
Variable JSON_parse_text : string -> res json.

(** [parsed.array] inside the [try]: reading a property of [null] throws. *)
Definition array_of (parsed : json) : res (option json) :=
  match parsed with
  | JNull => Throw "Cannot read properties of null"
  | _ => Ok (get "array" (ownEntries parsed))
  end.

Definition collect (st : state) (line : string) : flow :=
  if (collectingResult st && startsWith "data: " line)%bool then
    let resultBuffer' := (resultBuffer st ++ slice 6 line)%string in
    let st' := {| buffer := buffer st; resultBuffer := resultBuffer';
                  collectingResult := collectingResult st; logged := logged st |} in
    match JSON_parse_text resultBuffer' with
    | Ok parsed =>
        match array_of parsed with
        | Ok array => Return array
        | Throw _ => Continue st'
        end
    | Throw _ => Continue st'
    end
  else Continue st.

(** The body of [for (const line of lines)]. *)
Definition onLine (lines : list string) (st : state) (line : string) : flow :=
  if startsWith "event: " line then
    let eventType := trimmed (slice 7 line) in
    if (eventType =? "result")%string then
      Continue {| buffer := buffer st; resultBuffer := resultBuffer st;
                  collectingResult := true; logged := logged st |}
    else if (eventType =? "update")%string then
      let data := match indexOf line lines with
                  | Some i => nth_error lines (S i)
                  | None => None
                  end in
      match data with
      | Some d =>
          if startsWith "data: " d then
            collect {| buffer := buffer st; resultBuffer := resultBuffer st;
                       collectingResult := collectingResult st;
                       logged := logged st ++ [slice 6 d] |} line
          else Continue st
      | None => Continue st
      end
    else collect st line
  else collect st line.

Fixpoint forLines (lines : list string) (todo : list string) (st : state) : flow :=
  match todo with
  | [] => Continue st
  | line :: rest =>
      match onLine lines st line with
      | Continue st' => forLines lines rest st'
      | Return array => Return array
      end
  end.

(** [lines.pop() || ""]. *)
Definition pop (lines : list string) : string := last lines EmptyString.

(** The [while (true)] loop over the chunks the reader delivers; the
    stream ends when they run out. *)
Fixpoint readLoop (chunks : list string) (st : state) : res (option json) :=
  match chunks with
  | [] => Throw "Stream ended without complete result"
  | value :: rest =>
      let lines := split (buffer st ++ value)%string in
      let st' := {| buffer := pop lines; resultBuffer := resultBuffer st;
                    collectingResult := collectingResult st; logged := logged st |} in
      match forLines (removelast lines) (removelast lines) st' with
      | Return array => Ok array
      | Continue st'' => readLoop rest st''
      end
  end.

Definition initial : state :=
  {| buffer := EmptyString; resultBuffer := EmptyString;
     collectingResult := false; logged := [] |}.

(** What [fetch(config.basePath, ...)] resolves to. *)
Record streamResponse : Type :=
  { ok : bool; text : string; body : option (list string) }.

Inductive item : Type :=
| Url (url : string)
| RequestJson (request : json).

Definition requestJson (i : item) : json :=
  match i with
  | Url url => JObj [("url", JStr url)]
  | RequestJson request => request
  end.

(** [dispatcher] is the worker behind [config.basePath]: it answers the
    POST that carries the request array. *)
Definition fetchEach (dispatcher : list json -> res streamResponse)
    (array : list item) : res (option json) :=
  let requestJsons := map requestJson array in
  match dispatcher requestJsons with
  | Throw message => Throw message
  | Ok response =>
      if negb (ok response) then Throw ("dmap failed: " ++ text response)%string
      else match body response with
           | None => Throw "No response body"
           | Some chunks => readLoop chunks initial
           end
  end.

(** The loop seen from the lines alone: what it does to the flags on a
    sequence of complete lines, whatever the chunks that delivered them.
    [inl array] is a return, [inr] the flags it ends with. *)
Fixpoint scan (lines : list string) (collecting : bool) (collected : string)
  : option json + bool * string :=
  match lines with
  | [] => inr (collecting, collected)
  | line :: rest =>
      if startsWith "event: " line then
        if (trimmed (slice 7 line) =? "result")%string then scan rest true collected
        else scan rest collecting collected
      else if (collecting && startsWith "data: " line)%bool then
        let collected' := (collected ++ slice 6 line)%string in
        match JSON_parse_text collected' with
        | Ok parsed =>
            match array_of parsed with
            | Ok array => inl array
            | Throw _ => scan rest collecting collected'
            end
        | Throw _ => scan rest collecting collected'
        end
      else scan rest collecting collected
  end.

Definition finish (outcome : option json + bool * string) : res (option json) :=
  match outcome with
  | inl array => Ok array
  | inr _ => Throw "Stream ended without complete result"
  end.

End Client.

Fixpoint no_newline (s : string) : bool :=
  match s with
  | EmptyString => true
  | String c r => (negb (Ascii.eqb c newline) && no_newline r)%bool
  end.

(** The text of a stream: its chunks, one after the other. *)
Definition joined (chunks : list string) : string :=
  fold_right String.append EmptyString chunks.

(** Lines, each ended by a line feed. *)
Definition unlines (lines : list string) : string :=
  fold_right (fun line text => (line ++ String newline text)%string) EmptyString lines.

(** Modelled from the spec: a progress event of the dispatcher, whose worker
    is not part of the sources.  An event is an [event:] line, a [data:]
    line and an empty line. *)
Definition updateEvent (progress : string) : list string :=
  ["event: update"; ("data: " ++ progress)%string; EmptyString].

(** Modelled from the spec: the final-result event of the dispatcher, which
    carries the complete ordered result array. *)
Definition resultEvent (payload : string) : list string :=
  ["event: result"; ("data: " ++ payload)%string; EmptyString].

(** Modelled from the spec: the event stream of the dispatcher, one progress
    event per completed item, terminated by one final-result event. *)
Definition dispatcherStream (progress : list string) (payload : string) : string :=
  unlines (flat_map updateEvent progress ++ resultEvent payload).

(** Modelled from the spec: what the dispatcher answers to a batch.  Its
    stream, cut into chunks at arbitrary places, carries one progress
    event per item and then the payload [{ array: outcomes }], in which
    [outcomes] has one outcome per request, in the order of the requests. *)
Definition answersWith (JSON_parse_text : string -> res json)
    (requestJsons : list json) (response : streamResponse) (outcomes : list json)
  : Prop :=
  ok response = true
  /\ exists chunks progress payload,
      body response = Some chunks
      /\ joined chunks = dispatcherStream progress payload
      /\ Forall (fun p => no_newline p = true) progress
      /\ no_newline payload = true
      /\ JSON_parse_text payload = Ok (JObj [("array", JArr outcomes)])
      /\ List.length progress = List.length requestJsons
      /\ List.length outcomes = List.length requestJsons.

Definition quote : string := String (ascii_of_nat 34) EmptyString.

Definition example_payload : string :=
  ("{" ++ quote ++ "array" ++ quote ++ ":[{" ++ quote ++ "status" ++ quote ++ ":200},{"
       ++ quote ++ "status" ++ quote ++ ":404," ++ quote ++ "error" ++ quote ++ ":"
       ++ quote ++ "Not Found" ++ quote ++ "}]}")%string.

Definition example_outcomes : list json :=
  [JObj [("status", JNum 200)];
   JObj [("status", JNum 404); ("error", JStr "Not Found")]].

(** A parser that knows the example payload. *)
Definition example_parse (text : string) : res json :=
  if (text =? example_payload)%string then Ok (JObj [("array", JArr example_outcomes)])
  else Throw "Unexpected end of JSON input".

Definition example_stream : string := dispatcherStream ["1/2"; "2/2"] example_payload.

(** The example stream in three chunks; the second cut falls inside the
    payload. *)
Definition example_chunks : list string :=
  [substring 0 20 example_stream; substring 20 50 example_stream;
   substring 70 (String.length example_stream - 70) example_stream].

Definition example_dispatcher (requestJsons : list json) : res streamResponse :=
  Ok {| ok := true; text := EmptyString; body := Some example_chunks |}.

Definition example_items : list item := [Url "https://a.example"; Url "https://b.example"].

End FetchEach.

(* ================================================================== *)
(** * Numbers in text: [parseInt], [padStart], [toString(16)] *)
(* ================================================================== *)

Module Text.

(** The value of a character as a digit, for radixes up to 36. *)
Definition radix_digit (c : ascii) : option Z :=
  let n := Z.of_nat (nat_of_ascii c) in
  if ((48 <=? n) && (n <=? 57))%bool then Some (n - 48)
  else if ((97 <=? n) && (n <=? 122))%bool then Some (n - 87)
  else if ((65 <=? n) && (n <=? 90))%bool then Some (n - 55)
  else None.

(** The value of the longest prefix of digits of radix [R]; [acc] is
    [None] as long as no digit has been read. *)
Fixpoint parse_digits (R : Z) (s : list ascii) (acc : option Z) : option Z :=
  match s with
  | [] => acc
  | c :: r =>
      match radix_digit c with
      | Some d =>
          if d <? R
          then parse_digits R r (Some match acc with
                                      | Some a => a * R + d
                                      | None => d
                                      end)
          else acc
      | None => acc
      end
  end.

Definition strip_hex_prefix (s : list ascii) : option (list ascii) :=
  match s with
  | z :: x :: r =>
      if (is_char "0" z && (is_char "x" x || is_char "X" x))%bool then Some r else None
  | _ => None
  end.

(** [parseInt(s, radix)]: leading white space, a sign, a hexadecimal
    prefix when the radix allows one, then the longest prefix of digits;
    what follows is ignored.  [None] is [NaN]; a [radix] of [None] is
    [undefined].  The value is exact, where JavaScript rounds integers
    beyond 2^53. *)
Definition parseInt (s : string) (radix : option Z) : option Z :=
  let trimmed := trimStart (list_ascii_of_string s) in
  let negative := match trimmed with
                  | c :: _ => is_char "-" c
                  | [] => false
                  end in
  let unsigned := skip_sign trimmed in
  let R := match radix with Some r => r | None => 0 end in
  if (negb (R =? 0) && ((R <? 2) || (36 <? R)))%bool then None
  else
    let stripped := if ((R =? 0) || (R =? 16))%bool then strip_hex_prefix unsigned
                    else None in
    let mathInt := match stripped with
                   | Some digits => parse_digits 16 digits None
                   | None => parse_digits (if R =? 0 then 10 else R) unsigned None
                   end in
    option_map (fun n => if negative then - n else n) mathInt.

(** [k] characters of [fillString] repeated. *)
Fixpoint filler (k : nat) (fillString rest : string) : string :=
  match k with
  | O => EmptyString
  | S k' =>
      match rest with
      | String c r => String c (filler k' fillString r)
      | EmptyString =>
          match fillString with
          | String c r => String c (filler k' fillString r)
          | EmptyString => EmptyString
          end
      end
  end.

(** [s.padStart(targetLength, fillString)]. *)
Definition padStart (targetLength : nat) (fillString : string) (s : string) : string :=
  if (targetLength <=? String.length s)%nat then s
  else (filler (targetLength - String.length s) fillString fillString ++ s)%string.

Definition hex_digit (d : Z) : ascii :=
  ascii_of_nat (Z.to_nat (if d <? 10 then 48 + d else 87 + d)).

Fixpoint toString16_from (steps : nat) (n : Z) (acc : string) : string :=
  match steps with
  | O => acc
  | S steps' =>
      let acc' := String (hex_digit (n mod 16)) acc in
      if n / 16 =? 0 then acc' else toString16_from steps' (n / 16) acc'
  end.

(** [n.toString(16)] on a non-negative integer; a number of [b] bits has at
    most [b] hexadecimal digits. *)
Definition toString16 (n : Z) : string :=
  toString16_from (S (Z.to_nat (Z.log2 n))) n EmptyString.

End Text.

(* ================================================================== *)
(** * Responses of the controllers *)
(* ================================================================== *)

Module Http.

(** The body given to [new Response]: a text, or
    [JSON.stringify(data, undefined, 2)]. *)
Inductive content : Type :=
| Plain (text : string)
| Pretty (data : json).

(** A request as the controllers read it: its method, the path of its URL
    and the parameters of its query, in order. *)
Record Request : Type :=
  { method : string; pathname : string; searchParams : list (string * string) }.

(** A response as the controllers build it: [headers] are those given to
    the constructor. *)
Record Response : Type :=
  { status : Z; headers : list (string * string); body : content }.

(** The scores of a service, as the JSON value the controller prints. *)
Definition scoresJson (data : obj Z) : json :=
  JObj (map (fun e => (fst e, JNum (snd e))) data).

End Http.

(* ================================================================== *)
(** * Day controller (backend/src/day/dayController.ts) *)
(* ================================================================== *)

Module DayController.

Import Http.

(** [/^\d{4}-\d{2}-\d{2}$/.test(s)]. *)
Definition dayPattern (s : string) : bool :=
  match list_ascii_of_string s with
  | [y1; y2; y3; y4; dash1; m1; m2; dash2; d1; d2] =>
      (is_digit y1 && is_digit y2 && is_digit y3 && is_digit y4
       && is_char "-" dash1 && is_digit m1 && is_digit m2
       && is_char "-" dash2 && is_digit d1 && is_digit d2)%bool
  | _ => false
  end.

Definition corsHeaders : list (string * string) :=
  [("Content-Type", "application/json");
   ("Access-Control-Allow-Origin", "*");
   ("Access-Control-Allow-Methods", "GET, OPTIONS");
   ("Access-Control-Allow-Headers", "Content-Type")].

(** [limit ? parseInt(limit) : undefined] on [searchParams.get("limit")]. *)
Definition limitOf (limit : option string) : option Z :=
  match limit with
  | Some l => if (l =? "")%string then None else Text.parseInt l None
  | None => None
  end.

(** A [Date] as seen through its local getters. *)
Record LocalDate : Type := { getFullYear : Z; getMonth : Z; getDate : Z }.

Definition todayString (today : LocalDate) : string :=
  (Z_to_string (getFullYear today) ++ "-"
   ++ Text.padStart 2 "0" (Z_to_string (getMonth today + 1)) ++ "-"
   ++ Text.padStart 2 "0" (Z_to_string (getDate today)))%string.

Section Handler.
Variable sortByValue : list (string * json) -> list (string * json).

Definition handleRequest (request : Request) : M Response :=
  if negb (method request =? "GET")%string then
    ret {| status := 405; headers := []; body := Plain "Method not allowed" |}
  else
    let limit := get "limit" (searchParams request) in
    let dateParam := FetchEach.slice 1 (pathname request) in
    if negb (dayPattern dateParam) then
      ret {| status := 400; headers := [];
             body := Plain "Invalid date format. Use YYYY-MM-DD" |}
    else
      try_catch
        (data <- DayService.getDailyStars sortByValue dateParam (limitOf limit) ;;
         ret {| status := 200; headers := corsHeaders; body := Pretty (scoresJson data) |})
        (fun message =>
           ret {| status := 500; headers := [];
                  body := Plain ("Internal Server Error: " ++ message) |}).

(** [today] is the clock reading [new Date()]. *)
Definition handleToday (today : LocalDate) (request : Request) : M Response :=
  handleRequest {| method := "GET";
                   pathname := ("/" ++ todayString today)%string;
                   searchParams := searchParams request |}.

End Handler.

End DayController.

(* ================================================================== *)
(** * Week and month controllers (src/unnamed/part_006,
      starsRefactor/src/month/monthController.ts)

    Each controller is written against the service of its own directory;
    both the summing and the counting services have this interface. *)
(* ================================================================== *)

Module WeekController.

Import Http.

Definition handleLastWeek (getLastWeekData : M (obj Z)) : M Response :=
  try_catch
    (data <- getLastWeekData ;;
     ret {| status := 200; headers := [("Content-Type", "application/json")];
            body := Pretty (scoresJson data) |})
    (fun message =>
       ret {| status := 500; headers := [];
              body := Plain ("Internal Server Error: " ++ message) |}).

End WeekController.

Module MonthController.

Import Http.

Definition handleLastMonth (getLastMonthData : M (obj Z)) : M Response :=
  try_catch
    (data <- getLastMonthData ;;
     ret {| status := 200; headers := [("Content-Type", "application/json")];
            body := Pretty (scoresJson data) |})
    (fun message =>
       ret {| status := 500; headers := [];
              body := Plain ("Internal Server Error: " ++ message) |}).

End MonthController.

(* ================================================================== *)
(** * Counting week and month services
      (starsRefactor/src/week/weekService.ts,
       starsRefactor/src/month/monthService.ts)

    These read the documents of the days and count, for each repository,
    the days' entries that name it. *)
(* ================================================================== *)

Module Counting.

Import Window.

(** [key !== 'date' && key !== 'total_repositories' && key !== 'timestamp']. *)
Definition isRepositoryKey (key : string) : bool :=
  (negb (key =? "date")%string && negb (key =? "total_repositories")%string
   && negb (key =? "timestamp")%string)%bool.

Definition countEntry (aggregatedData : obj Z) (e : string * json) : obj Z :=
  if isRepositoryKey (fst e) then
    match snd e with
    | JStr value =>
        let normalizedRepoName := toLowerCase value in
        set normalizedRepoName (or_zero (get normalizedRepoName aggregatedData) + 1)
            aggregatedData
    | _ => aggregatedData
    end
  else aggregatedData.

(** [data && typeof data === 'object']. *)
Definition isObject (data : json) : bool :=
  match data with
  | JObj _ | JArr _ => true
  | _ => false
  end.

(** One iteration of the loop of the week service. *)
Definition processWeekUrl (aggregatedData : obj Z) (url : string) : M (obj Z) :=
  try_catch
    (response <- fetch url ;;
     if negb (ok response) then ret aggregatedData
     else
       data <- lift (JSON_parse (body response)) ;;
       if isObject data
       then ret (fold_left countEntry (ownEntries data) aggregatedData)
       else ret aggregatedData)
    (fun _ => ret aggregatedData).

(** One iteration of the loop of the month service, which enumerates the
    document without looking at its type. *)
Definition processMonthUrl (aggregatedData : obj Z) (url : string) : M (obj Z) :=
  try_catch
    (response <- fetch url ;;
     if negb (ok response) then ret aggregatedData
     else
       data <- lift (JSON_parse (body response)) ;;
       entries <- lift (Object_entries data) ;;
       ret (fold_left countEntry entries aggregatedData))
    (fun _ => ret aggregatedData).

Fixpoint forUrls (processUrl : obj Z -> string -> M (obj Z)) (urls : list string)
    (aggregatedData : obj Z) : M (obj Z) :=
  match urls with
  | [] => ret aggregatedData
  | url :: rest =>
      aggregatedData' <- processUrl aggregatedData url ;;
      forUrls processUrl rest aggregatedData'
  end.

Section Clock.
Variable dateString : nat -> string.

Definition getLastWeekData : M (obj Z) :=
  aggregatedData <- forUrls processWeekUrl (urlsOfLast dateString 7) [] ;;
  ret (fromEntries (sortDesc aggregatedData)).

Definition getLastMonthData : M (obj Z) :=
  aggregatedData <- forUrls processMonthUrl (urlsOfLast dateString 30) [] ;;
  ret (fromEntries (sortDesc aggregatedData)).

End Clock.

End Counting.

(* ================================================================== *)
(** * Enriching several sources (backend/src/utils/repositoryEnricher.ts) *)
(* ================================================================== *)

Module MultipleSources.

Import RepositoryEnricher.




End MultipleSources.

(* ================================================================== *)
(** * Key of an enriched response (src/unnamed/part_001) *)
(* ================================================================== *)

Module ResponseKey.

(** [ToInt32]: the integer modulo 2^32, read as a signed 32-bit number. *)
Definition toInt32 (z : Z) : Z :=
  let m := z mod 4294967296 in
  if m <? 2147483648 then m else m - 4294967296.

(** [z >>> 0]. *)
Definition toUint32 (z : Z) : Z := z mod 4294967296.

(** The body of the loop of [simpleHash], on the code of one character. *)
Definition hashStep (hash : Z) (char : Z) : Z :=
  let hash1 := (toInt32 (Z.shiftl (toInt32 hash) 5) - hash) + char in
  Z.land (toInt32 hash1) (toInt32 hash1).

(** [str.charCodeAt(i)] for each [i]; a character is its code. *)
Definition charCodes (str : string) : list Z :=
  map (fun c => Z.of_nat (nat_of_ascii c)) (list_ascii_of_string str).

Definition simpleHash (str : string) : string :=
  let hash := fold_left hashStep (charCodes str) 0 in
  Text.padStart 8 "0" (Text.toString16 (toUint32 hash)).

End ResponseKey.

(* ================================================================== *)
(** * Calls to the language model (backend/src/llm/llm.ts) *)
(* ================================================================== *)

Module Llm.

Record RetryConfig : Type :=
  { maxRetries : nat; initialDelayMs : Z; backoffFactor : Z }.

(** [LLM_CONFIG.retry]. *)
Definition retry : RetryConfig :=
  {| maxRetries := 3; initialDelayMs := 1000; backoffFactor := 2 |}.

Definition apiEndpoint : string := "https://api.deepseek.com/v1/chat/completions".

#[local] Set Warnings "-abstract-large-number".

Definition truncation_note : string :=
  (String FetchEach.newline (String FetchEach.newline
     "[Input truncated to fit token limit]"))%string.

(** [Math.ceil(input.length / 4)]. *)
Definition estimatedTokens (input : string) : nat :=
  ((String.length input + 3) / 4)%nat.

Definition truncateInput (input : string) (maxTokens : nat) : string :=
  if (estimatedTokens input <=? maxTokens)%nat then input
  else
    let maxChars := (maxTokens * 4)%nat in
    (substring 0 maxChars input ++ truncation_note)%string.

(** [v.name] on a possibly [undefined] value, for a name other than
    [length]: reading a property of [undefined] or [null] throws. *)
Definition property (name : string) (v : option json) : res (option json) :=
  match v with
  | None => Throw ("Cannot read properties of undefined (reading '" ++ name ++ "')")
  | Some JNull => Throw ("Cannot read properties of null (reading '" ++ name ++ "')")
  | Some v => Ok (get name (ownEntries v))
  end.

(** [data.choices[0].message.content]. *)
Definition contentOf (data : json) : res (option json) :=
  match property "choices" (Some data) with
  | Throw message => Throw message
  | Ok choices =>
      match property "0" choices with
      | Throw message => Throw message
      | Ok choice =>
          match property "message" choice with
          | Throw message => Throw message
          | Ok message => property "content" message
          end
      end
  end.

Section Api.
(** [await response.text()] on the body of an error response. *)
Variable errorText : text -> string.

(** The body of the [try] in the loop: one request. *)
Definition attempt : M (option json) :=
  response <- fetch apiEndpoint ;;
  if negb (ok response) then
    throw ("Deepseek API returned " ++ Z_to_string (status response) ++ ": "
             ++ errorText (body response))%string
  else
    data <- lift (JSON_parse (body response)) ;;
    lift (contentOf data).

(** The [while (true)] loop.  [remaining] is [maxRetries - retries]: the
    loop gives up when [retries] exceeds [maxRetries].  The result comes
    with the delays waited so far. *)
Fixpoint retryLoop (remaining : nat) (delay : Z) (waited : list Z) (w : world)
  : res (option json) * list Z * world :=
  match attempt w with
  | (Ok content, w') => (Ok content, waited, w')
  | (Throw message, w') =>
      match remaining with
      | O => (Throw message, waited, w')
      | S remaining' =>
          retryLoop remaining' (delay * backoffFactor retry) (waited ++ [delay]) w'
      end
  end.

(** The input, cut by [truncateInput], and the key travel in the request,
    of which the world records the address. *)
Definition callDeepseekAPI (input apiKey : string) (w : world)
  : res (option json) * list Z * world :=
  let truncatedInput := truncateInput input 30000 in
  retryLoop (maxRetries retry) (initialDelayMs retry) [] w.

End Api.

End Llm.

(* ================================================================== *)
(** * Storing the list of popular repositories (cache.ts, in
      backend/env/types.ts) *)
(* ================================================================== *)

Module PopularCache.

Import Refresh.

(** The namespace behind [env.REPO_CACHE]: what it holds, each value with
    its time to live, and which of its operations fail. *)
Record Namespace : Type :=
  { entries : obj (string * Z);
    get_fails : string -> bool;
    put_fails : string -> bool }.

(** The environment whose binding, if any, reads the namespace. *)
Definition envOf (namespace : option Namespace) : Env :=
  {| REPO_CACHE :=
       option_map (fun ns key =>
                     if get_fails ns key then Throw "KV GET failed"
                     else Ok (option_map fst (get key (entries ns))))
                  namespace |}.

(** [env.REPO_CACHE.put(key, value, { expirationTtl })]. *)
Definition put (key value : string) (expirationTtl : Z) (ns : Namespace)
  : res Namespace :=
  if put_fails ns key then Throw "KV PUT failed"
  else Ok {| entries := set key (value, expirationTtl) (entries ns);
             get_fails := get_fails ns; put_fails := put_fails ns |}.

(** [DEV_CONFIG.popularReposCacheTTL || 86400]. *)
Definition popularReposTTL : Z := 86400.

(** An instant as [toISOString] reads it. *)
Record Instant : Type :=
  { date : Date; getUTCSeconds : Z; getUTCMilliseconds : Z }.

Definition padded (width : nat) (n : Z) : string :=
  Text.padStart width "0" (Z_to_string n).

(** [Date.prototype.toISOString]: years outside 0..9999 are written with a
    sign and six digits. *)
Definition toISOString (t : Instant) : string :=
  let y := getUTCFullYear (date t) in
  let sign := if y <? 0 then "-" else "+" in
  let year := if ((0 <=? y) && (y <=? 9999))%bool then padded 4 y
              else (sign ++ padded 6 (Z.abs y))%string in
  let month := padded 2 (getUTCMonth (date t) + 1) in
  (year ++ "-" ++ month
   ++ "-" ++ padded 2 (getUTCDate (date t))
   ++ "T" ++ padded 2 (getUTCHours (date t))
   ++ ":" ++ padded 2 (getUTCMinutes (date t))
   ++ ":" ++ padded 2 (getUTCSeconds t)
   ++ "." ++ padded 3 (getUTCMilliseconds t) ++ "Z")%string.

Section Store.
Variable config : Config.
(** [JSON.stringify] on the list of repositories. *)
Variable JSON_stringify_text : json -> string.

(** [now] is the clock reading [new Date()] taken for the marker.  The
    result is the namespace afterwards; a failure of either write is
    caught, and what was written before it stays.  Between the writes the
    log reads [repositories.length], which throws on [null]. *)
Definition storePopularReposInCache (repositories : json) (now : Instant)
    (namespace : option Namespace) : option Namespace :=
  match namespace with
  | None => None
  | Some ns =>
      let cacheKey := popularReposCacheKey config in
      match put cacheKey (JSON_stringify_text repositories) popularReposTTL ns with
      | Throw _ => Some ns
      | Ok ns1 =>
          match repositories with
          | JNull => Some ns1
          | _ =>
              match put (cacheKey ++ "-last-refresh")%string (toISOString now)
                        popularReposTTL ns1 with
              | Throw _ => Some ns1
              | Ok ns2 => Some ns2
              end
          end
      end
  end.

End Store.

End PopularCache.

(* ================================================================== *)
(** * Fetching the list of popular repositories (src/unnamed/part_002) *)
(* ================================================================== *)

Module PopularService.

Import Refresh PopularCache.

Definition POPULAR_REPOS_API : string := "https://popular.forgithub.com/index.json".

Section Service.
Variable config : Config.
Variable Date_parse : string -> parsed_date.
Variable JSON_parse_text : string -> res json.
Variable JSON_stringify_text : json -> string.
(** [await response.text()] on the body of an error response. *)
Variable errorText : text -> string.

(** The body of the [try].  [check] and [check'] are the clock readings of
    the refresh check and [stamp] the one of the marker.  The log reads
    [data.repositories.length], which throws when the document has no
    [repositories]. *)
Definition fetchOrServe (check check' : Date) (stamp : Instant)
    (namespace : option Namespace) (w : world)
  : res json * option Namespace * world :=
  let cachedRepos :=
    getPopularReposFromCache config Date_parse JSON_parse_text (envOf namespace)
                             check check' in
  if truthy cachedRepos then (Ok cachedRepos, namespace, w)
  else
    let w' := with_request w POPULAR_REPOS_API in
    match net w (requests w) POPULAR_REPOS_API with
    | Throw message => (Throw message, namespace, w')
    | Ok response =>
        if negb (ok response) then
          (Throw ("Popular repos API returned " ++ Z_to_string (status response) ++ ": "
                    ++ errorText (body response))%string, namespace, w')
        else
          match JSON_parse (body response) with
          | Throw message => (Throw message, namespace, w')
          | Ok data =>
              match Llm.property "repositories" (Some data) with
              | Throw message => (Throw message, namespace, w')
              | Ok None =>
                  (Throw "Cannot read properties of undefined (reading 'length')",
                   namespace, w')
              | Ok (Some JNull) =>
                  (Throw "Cannot read properties of null (reading 'length')",
                   namespace, w')
              | Ok (Some repositories) =>
                  (Ok repositories,
                   storePopularReposInCache config JSON_stringify_text repositories
                                            stamp namespace,
                   w')
              end
          end
    end.

Definition fetchPopularRepositories (check check' : Date) (stamp : Instant)
    (namespace : option Namespace) (w : world)
  : res json * option Namespace * world :=
  match fetchOrServe check check' stamp namespace w with
  | (Throw message, namespace', w') =>
      (Throw ("Failed to fetch popular repositories: " ++ message)%string, namespace', w')
  | outcome => outcome
  end.

End Service.

End PopularService.

(* ================================================================== *)
(** * Vocabulary of the statements and worked examples *)
(* ================================================================== *)

Section Vocabulary.
Import RepositoryEnricher Window.

Definition example_document : json :=
  JObj [("0", JStr "a/b"); ("1", JStr "c/d"); ("date", JStr "2025-01-01")].

(** An entry of a failed enrichment: its [info] is [null]. *)
Definition failed (e : string * obj json) : bool := negb (info_not_null (snd e)).

Definition enriched_example : obj (obj json) :=
  [("a/b", [("score", JNum 3); ("info", JObj [("lastFetched", JNum 1)])]);
   ("c/d", failure (JNum 2) "Failed to fetch repository info: 404 Not Found");
   ("e/f", [("score", JNum 1); ("info", JObj [])])].

Definition sumZ (l : list Z) : Z := fold_right Z.add 0 l.

(** The score of a repository in a score map; an absent one has score 0. *)
Definition scoreOf (repo : string) (scores : obj Z) : Z :=
  match get repo scores with
  | Some z => z
  | None => 0
  end.

(** The score of a repository in the entries of one day's response. *)
Definition dayScore (repo : string) (entries : obj json) : Z :=
  match get repo entries with
  | Some score => numericScore score
  | None => 0
  end.

(** The entries of the day behind an answer of the network; [None] when
    the day is skipped: the request failed, the status is not 2xx, or the
    body is not the JSON of something with properties. *)
Definition dayEntries (answer : res response) : option (obj json) :=
  match answer with
  | Ok response =>
      if World.ok response then
        match JSON_parse (body response) with
        | Ok data => match Object_entries data with
                     | Ok entries => Some entries
                     | Throw _ => None
                     end
        | Throw _ => None
        end
      else None
  | Throw _ => None
  end.

Definition contribution (repo : string) (answer : res response) : Z :=
  match dayEntries answer with
  | Some entries => dayScore repo entries
  | None => 0
  end.

(** The day behind an answer, when there is one, is a JSON object: its keys
    are distinct. *)
Definition wellformed (answer : res response) : Prop :=
  match dayEntries answer with
  | Some entries => NoDup (keys entries)
  | None => True
  end.

(** The answers the network gives to the requests for [urls], in turn. *)
Fixpoint answers (w : world) (urls : list string) : list (res response) :=
  match urls with
  | [] => []
  | url :: rest => net w (requests w) url :: answers (with_request w url) rest
  end.

Definition example_dates (i : nat) : string :=
  ("2025-03-" ++ index_key (19 - i))%string.

(** Every day answers [{ "a/b": 2, "c/d": 1 }], except 2025-03-17, whose
    request fails. *)
Definition example_network : world :=
  {| kv := []; kv_fails := fun _ _ => false;
     net := fun _ url =>
              if (url =? "http://127.0.0.1:8787/2025-03-17")%string
              then Throw "connection refused"
              else Ok {| World.ok := true; status := 200; statusText := "OK";
                         body := Serialized (JObj [("a/b", JNum 2); ("c/d", JNum 1)]) |};
     requests := [] |}.

(** The computation returns in every world. *)
Definition never_raises {A : Type} (m : M A) : Prop :=
  forall w, exists a w', m w = (Ok a, w').

(** A namespace in which every operation fails. *)
Definition broken_store : world :=
  {| kv := []; kv_fails := fun _ _ => true;
     net := fun _ _ => Throw "unreachable"; requests := [] |}.

(** What the metadata service delivers: the parsed body of a 2xx answer,
    or the message of the error [fetchRepositoryInfo] catches. *)
Definition delivered (answer : res response) : res json :=
  match answer with
  | Throw message => Throw message
  | Ok response =>
      if World.ok response then JSON_parse (body response)
      else Throw ("Failed to fetch repository info: " ++ Z_to_string (status response)
                    ++ " " ++ statusText response)%string
  end.

(** The cache has nothing usable for the key: the read fails, the key is
    absent, or the stored text is empty, unparsable or a falsy value. *)
Definition misses (key : string) (w : world) : Prop :=
  forall v, fst (getFromCache key w) = Ok v -> truthy v = false.

Definition unreachable_service : world :=
  {| kv := []; kv_fails := fun _ _ => false;
     net := fun _ _ => Ok {| World.ok := false; status := 404; statusText := "Not Found";
                             body := Malformed "" "Unexpected end of JSON input" |};
     requests := [] |}.

Definition day_config : CacheConfig := {| ttl := 3600; timeframe_of := day |}.

Definition cached_entry : obj json :=
  [("score", JNum 5); ("info", JObj [("lastFetched", JNum 1742256000)])].

Definition warm_cache : world :=
  {| kv := [("repo_info:day:a/b",
             {| value := Serialized (JObj cached_entry); expirationTtl := Some 3600 |})];
     kv_fails := fun _ _ => false;
     net := fun _ _ => Throw "unreachable";
     requests := [] |}.

(** What [fetchAndAggregateData] hands back for an answer of the upstream
    source: the parsed body, or [{}] when the request fails, the status is
    not 2xx or the body does not parse. *)
Definition upstream (answer : res response) : json :=
  match answer with
  | Ok response =>
      if World.ok response then
        match JSON_parse (body response) with
        | Ok data => data
        | Throw _ => JObj []
        end
      else JObj []
  | Throw _ => JObj []
  end.

Definition dayUrl (date : string) : string :=
  ("https://activity.forgithub.com/top100-starred-in-" ++ date ++ ".json")%string.

(** [getDailyStars] treats the document as empty. *)
Definition noData (repoData : json) : bool :=
  (negb (truthy repoData) || (List.length (ownEntries repoData) =? 0)%nat)%bool.

(** An empty, working cache in front of an upstream source that serves the
    example document. *)
Definition example_upstream : world :=
  {| kv := []; kv_fails := fun _ _ => false;
     net := fun _ _ => Ok {| World.ok := true; status := 200; statusText := "OK";
                             body := Serialized example_document |};
     requests := [] |}.

(** The score map of a ranking: the repositories in rank order, best
    first, each under its lower-cased name with the number of repositories
    from its rank to the last one. *)
Definition ranking (names : list string) : obj Z :=
  map (fun p => (toLowerCase (snd p),
                 Z.of_nat (List.length names) - Z.of_nat (fst p)))
      (combine (seq 0 (List.length names)) names).

(** The same world in front of other servers. *)
Definition with_net (w : world) (servers : list string -> string -> res response)
  : world :=
  {| kv := kv w; kv_fails := kv_fails w; net := servers; requests := requests w |}.

(** Values in descending order. *)
Inductive descending : list (string * Z) -> Prop :=
| descending_nil : descending []
| descending_cons e l :
    Forall (fun x => snd x <= snd e) l -> descending l -> descending (e :: l).

(** The line of a stream that announces the final result. *)
Definition isResultEvent (line : string) : bool :=
  (FetchEach.startsWith "event: " line
   && (FetchEach.trimmed (FetchEach.slice 7 line) =? "result")%string)%bool.

(** An empty, working cache in front of an upstream source that is
    down. *)
Definition broken_upstream : world :=
  {| kv := []; kv_fails := fun _ _ => false;
     net := fun _ _ => Throw "fetch failed";
     requests := [] |}.

(** An empty, working cache in front of a metadata service that
    delivers. *)
Definition metadata_service : world :=
  {| kv := []; kv_fails := fun _ _ => false;
     net := fun _ _ => Ok {| World.ok := true; status := 200; statusText := "OK";
                             body := Serialized (JObj [("lastFetched", JNum 1)]) |};
     requests := [] |}.

(** The text [{"array":[]}] in two pieces, and a parser that knows it
    and rejects everything else, its pieces among the rest. *)
Definition payload_head : string :=
  ("{" ++ FetchEach.quote ++ "array" ++ FetchEach.quote ++ ":[")%string.

Definition payload_tail : string := "]}".

Definition two_piece_parse (text : string) : res json :=
  if (text =? payload_head ++ payload_tail)%string then Ok (JObj [("array", JArr [])])
  else Throw "Unexpected end of JSON input".

(** A progress event as the client reads one: the [event: update] line,
    the [data: ] line it looks up after it, and the empty line that ends the
    event. *)
Definition updateLines (progress : string) : list string :=
  ["event: update"; ("data: " ++ progress)%string; EmptyString].

(** The text consists of exactly [n] decimal digits. *)
Definition digitsOnly (n : nat) (s : string) : bool :=
  ((String.length s =? n)%nat && forallb is_digit (list_ascii_of_string s))%bool.

(** A store that holds the example document for 2025-01-01, in front of an
    upstream source that is down. *)
Definition cached_day : world :=
  {| kv := [("v4-2025-01-01",
             {| value := Serialized example_document; expirationTtl := Some 86400 |})];
     kv_fails := fun _ _ => false;
     net := fun _ _ => Throw "fetch failed";
     requests := [] |}.

(** The entries the counting week service goes through for an answer of
    the network; [None] when the day is skipped.  The counting month
    service goes through [dayEntries]. *)
Definition weekDayEntries (answer : res response) : option (obj json) :=
  match answer with
  | Ok response =>
      if World.ok response then
        match JSON_parse (body response) with
        | Ok data => if Counting.isObject data then Some (ownEntries data) else None
        | Throw _ => None
        end
      else None
  | Throw _ => None
  end.

(** The entry names the repository: its key is not one of the three
    metadata keys and its value is the name, up to case. *)
Definition names (repo : string) (e : string * json) : bool :=
  (Counting.isRepositoryKey (fst e)
   && match snd e with
      | JStr value => (toLowerCase value =? repo)%string
      | _ => false
      end)%bool.

(** The number of entries of a day that name the repository. *)
Definition appearances (repo : string) (entries : option (obj json)) : Z :=
  match entries with
  | Some es => Z.of_nat (List.length (filter (names repo) es))
  | None => 0
  end.

Definition march_18 : DayController.LocalDate :=
  {| DayController.getFullYear := 2025; DayController.getMonth := 2;
     DayController.getDate := 18 |}.

(** An instant of the years 0 to 9999, as the getters of a [Date] give
    it. *)
Definition validInstant (t : PopularCache.Instant) : Prop :=
  let d := PopularCache.date t in
  0 <= Refresh.getUTCFullYear d <= 9999
  /\ 0 <= Refresh.getUTCMonth d <= 11
  /\ 1 <= Refresh.getUTCDate d <= 31
  /\ 0 <= Refresh.getUTCHours d <= 23
  /\ 0 <= Refresh.getUTCMinutes d <= 59
  /\ 0 <= PopularCache.getUTCSeconds t <= 59
  /\ 0 <= PopularCache.getUTCMilliseconds t <= 999.

(** The text has [width] characters, all digits, and reads as [n]. *)
Definition spells (width : nat) (n : Z) (s : string) : bool :=
  ((String.length s =? width)%nat
   && match digits_value 0 s with
      | Some v => Z.of_N v =? n
      | None => false
      end)%bool.

(** An empty namespace that works. *)
Definition empty_namespace : PopularCache.Namespace :=
  {| PopularCache.entries := [];
     PopularCache.get_fails := fun _ => false;
     PopularCache.put_fails := fun _ => false |}.

Definition at_0145_on_march_18 : PopularCache.Instant :=
  {| PopularCache.date :=
       {| Refresh.getUTCFullYear := 2025; Refresh.getUTCMonth := 2;
          Refresh.getUTCDate := 18; Refresh.getUTCHours := 1;
          Refresh.getUTCMinutes := 45 |};
     PopularCache.getUTCSeconds := 7;
     PopularCache.getUTCMilliseconds := 250 |}.

(** A printer and a parser that know the empty list. *)
Definition print_list (v : json) : string := "[]".

Definition parse_list (text : string) : res json :=
  if (text =? "[]")%string then Ok (JArr []) else Throw "Unexpected token".




(** The popular-repositories service answers with an empty list. *)
Definition popular_api : world :=
  {| kv := []; kv_fails := fun _ _ => false;
     net := fun _ _ => Ok {| World.ok := true; status := 200; statusText := "OK";
                             body := Serialized (JObj [("repositories", JArr []);
                                                       ("count", JNum 0)]) |};
     requests := [] |}.

End Vocabulary.

(* ================================================================== *)
(** * Facts about objects *)
(* ================================================================== *)

Section ObjectFacts.
Context {V : Type}.
Implicit Types (o : obj V) (k : string) (v : V).

Lemma get_None_iff k o : get k o = None <-> ~ In k (keys o).
Proof.
  induction o as [|[k' v'] r IH]; simpl.
  - tauto.
  - destruct (String.eqb_spec k' k) as [->|Hne].
    + split; [discriminate | intros H; exfalso; apply H; now left].
    + rewrite IH. split.
      * intros H [Heq|Hin]; [now apply Hne | now apply H].
      * intros H Hin. apply H. now right.
Qed.

Lemma get_Some_In k v o : get k o = Some v -> In (k, v) o.
Proof.
  induction o as [|[k' v'] r IH]; simpl; [discriminate|].
  destruct (String.eqb_spec k' k) as [->|Hne].
  - intros [= ->]. now left.
  - intros H. right. now apply IH.
Qed.

Lemma In_get_NoDup k v o : NoDup (keys o) -> In (k, v) o -> get k o = Some v.
Proof.
  induction o as [|[k' v'] r IH]; simpl; [tauto|].
  intros Hnd [Heq|Hin].
  - injection Heq as -> ->. now rewrite String.eqb_refl.
  - inversion Hnd as [|? ? Hnotin Hnd']; subst.
    destruct (String.eqb_spec k' k) as [->|Hne].
    + exfalso. apply Hnotin. change k with (fst (k, v)). now apply in_map.
    + now apply IH.
Qed.

Lemma has_true_iff k o : has k o = true <-> In k (keys o).
Proof.
  unfold has. destruct (get k o) eqn:E.
  - split; [intros _|reflexivity].
    apply get_Some_In in E. change k with (fst (k, v)). now apply in_map.
  - apply get_None_iff in E. split; [discriminate | tauto].
Qed.

Lemma get_app k o o' :
  get k (o ++ o') = match get k o with Some v => Some v | None => get k o' end.
Proof.
  induction o as [|[k' v'] r IH]; simpl; [reflexivity|].
  now destruct (k' =? k)%string.
Qed.

Lemma keys_update k v o : keys (update k v o) = keys o.
Proof.
  induction o as [|[k' v'] r IH]; simpl; [reflexivity|].
  destruct (String.eqb_spec k' k) as [->|Hne]; simpl; [reflexivity|].
  now rewrite IH.
Qed.

Lemma get_update_same k v o : In k (keys o) -> get k (update k v o) = Some v.
Proof.
  induction o as [|[k' v'] r IH]; simpl; [tauto|].
  intros H. destruct (String.eqb_spec k' k) as [->|Hne]; simpl.
  - now rewrite String.eqb_refl.
  - destruct (String.eqb_spec k' k); [contradiction|].
    apply IH. destruct H; [contradiction | assumption].
Qed.

Lemma get_update_other k k' v o : k' <> k -> get k' (update k v o) = get k' o.
Proof.
  intros Hne. induction o as [|[k0 v0] r IH]; simpl; [reflexivity|].
  destruct (String.eqb_spec k0 k) as [->|Hne0]; simpl.
  - destruct (String.eqb_spec k k'); [now subst | reflexivity].
  - now rewrite IH.
Qed.

Lemma insertIndex_perm n k v o : Permutation (insertIndex n k v o) ((k, v) :: o).
Proof.
  induction o as [|[k' v'] r IH]; simpl; [reflexivity|].
  destruct (arrayIndex k'); [destruct (n <? _)%N|]; try reflexivity.
  rewrite IH. apply perm_swap.
Qed.

Lemma get_insertIndex_same n k v o :
  ~ In k (keys o) -> get k (insertIndex n k v o) = Some v.
Proof.
  induction o as [|[k' v'] r IH]; simpl; intros Hnot.
  - now rewrite String.eqb_refl.
  - assert (k' <> k) by tauto. assert (~ In k (keys r)) by tauto.
    destruct (arrayIndex k'); [destruct (n <? _)%N|]; simpl;
      rewrite ?String.eqb_refl; try reflexivity.
    destruct (String.eqb_spec k' k); [contradiction | now apply IH].
Qed.

Lemma get_insertIndex_other n k k' v o :
  k' <> k -> get k' (insertIndex n k v o) = get k' o.
Proof.
  intros Hne. induction o as [|[k0 v0] r IH]; simpl.
  - destruct (String.eqb_spec k k'); [now subst | reflexivity].
  - destruct (arrayIndex k0); [destruct (n <? _)%N|]; simpl;
      try (destruct (String.eqb_spec k k'); [now subst | reflexivity]).
    now rewrite IH.
Qed.

(** Reading back what was written, and the frame of a write. *)
Lemma get_set_same k v o : get k (set k v o) = Some v.
Proof.
  unfold set. destruct (has k o) eqn:Hhas.
  - apply get_update_same. now apply has_true_iff.
  - assert (Hnot : ~ In k (keys o)).
    { intros Hin. apply has_true_iff in Hin. congruence. }
    destruct (arrayIndex k).
    + now apply get_insertIndex_same.
    + rewrite get_app. apply get_None_iff in Hnot. rewrite Hnot. simpl.
      now rewrite String.eqb_refl.
Qed.

Lemma get_set_other k k' v o : k' <> k -> get k' (set k v o) = get k' o.
Proof.
  intros Hne. unfold set. destruct (has k o).
  - now apply get_update_other.
  - destruct (arrayIndex k).
    + now apply get_insertIndex_other.
    + rewrite get_app. simpl.
      destruct (String.eqb_spec k k'); [now subst|]. now destruct (get k' o).
Qed.

Lemma get_set k k' v o :
  get k' (set k v o) = if (k =? k')%string then Some v else get k' o.
Proof.
  destruct (String.eqb_spec k k') as [->|Hne].
  - apply get_set_same.
  - apply get_set_other. congruence.
Qed.

Lemma keys_set_perm k v o :
  Permutation (keys (set k v o)) (if has k o then keys o else k :: keys o).
Proof.
  unfold set. destruct (has k o).
  - now rewrite keys_update.
  - destruct (arrayIndex k).
    + unfold keys. rewrite (insertIndex_perm n k v o). reflexivity.
    + unfold keys. rewrite map_app. simpl.
      rewrite Permutation_app_comm. reflexivity.
Qed.

Lemma NoDup_keys_set k v o : NoDup (keys o) -> NoDup (keys (set k v o)).
Proof.
  intros Hnd. pose proof (keys_set_perm k v o) as Hp.
  destruct (has k o) eqn:Hhas.
  - eapply Permutation_NoDup; [symmetry; exact Hp | exact Hnd].
  - eapply Permutation_NoDup; [symmetry; exact Hp |].
    constructor; [|exact Hnd]. intros Hin. apply has_true_iff in Hin. congruence.
Qed.

Lemma length_set k v o :
  List.length (set k v o) = if has k o then List.length o else S (List.length o).
Proof.
  pose proof (keys_set_perm k v o) as Hp. apply Permutation_length in Hp.
  unfold keys in Hp. rewrite length_map in Hp. rewrite Hp.
  destruct (has k o); simpl; now rewrite length_map.
Qed.

Lemma fold_set_NoDup (es : list (string * V)) o :
  NoDup (keys o) ->
  NoDup (keys (fold_left (fun o e => set (fst e) (snd e) o) es o)).
Proof.
  revert o. induction es as [|e r IH]; simpl; intros o Hnd; [exact Hnd|].
  apply IH. now apply NoDup_keys_set.
Qed.

Lemma NoDup_keys_fromEntries (es : list (string * V)) : NoDup (keys (fromEntries es)).
Proof. apply fold_set_NoDup. constructor. Qed.

(** Building an object from entries keeps, for each key, its last entry. *)
Lemma get_fold_set (es : list (string * V)) o k :
  get k (fold_left (fun o e => set (fst e) (snd e) o) es o)
  = match get k (rev es) with Some v => Some v | None => get k o end.
Proof.
  revert o. induction es as [|[k0 v0] r IH]; simpl; intros o; [reflexivity|].
  rewrite IH, get_app. destruct (get k (rev r)); [reflexivity|].
  simpl. rewrite get_set. now destruct (k0 =? k)%string.
Qed.

Lemma get_fromEntries (es : list (string * V)) k :
  get k (fromEntries es) = get k (rev es).
Proof.
  unfold fromEntries. rewrite get_fold_set. now destruct (get k (rev es)).
Qed.

Lemma get_perm_NoDup (o o' : obj V) k :
  NoDup (keys o) -> Permutation o o' -> get k o = get k o'.
Proof.
  intros Hnd Hp.
  assert (Hnd' : NoDup (keys o')).
  { eapply Permutation_NoDup; [apply Permutation_map; exact Hp | exact Hnd]. }
  destruct (get k o) eqn:E.
  - symmetry. apply In_get_NoDup; [exact Hnd'|].
    eapply Permutation_in; [exact Hp | now apply get_Some_In].
  - destruct (get k o') eqn:E'; [|reflexivity].
    apply get_Some_In in E'. apply Permutation_sym in Hp.
    apply (Permutation_in _ Hp) in E'.
    apply (In_get_NoDup _ _ _ Hnd) in E'. congruence.
Qed.

Lemma get_fromEntries_NoDup (es : list (string * V)) k :
  NoDup (keys es) -> get k (fromEntries es) = get k es.
Proof.
  intros Hnd. rewrite get_fromEntries. symmetry.
  apply get_perm_NoDup; [exact Hnd | apply Permutation_rev].
Qed.

End ObjectFacts.

(* ================================================================== *)
(** * The day service: rank inversion *)
(* ================================================================== *)

Section DayFacts.
Import DayService.

Example day_example :
  DayService.formatResponse
    (JObj [("0", JStr "a/b"); ("1", JStr "c/d"); ("date", JStr "2025-01-01")]) None
  = [("a/b", 2); ("c/d", 1)].
Proof. vm_compute. reflexivity. Qed.

Lemma forEach_from_frame totalRepos k es : forall i result,
  (forall e name, In e es -> snd e = JStr name -> toLowerCase name <> k) ->
  get k (forEach_from totalRepos i es result) = get k result.
Proof.
  induction es as [|e r IH]; simpl; intros i result Hno; [reflexivity|].
  rewrite IH by (intros e' name Hin; apply Hno; now right).
  unfold assign. destruct (snd e) eqn:E; try reflexivity.
  apply get_set_other. intros Heq. symmetry in Heq. revert Heq.
  apply (Hno e s); [now left | exact E].
Qed.

Lemma forEach_from_last totalRepos es : forall i i0 result key name,
  nth_error es i = Some (key, JStr name) ->
  (forall j key' name', (i < j)%nat -> nth_error es j = Some (key', JStr name') ->
                        toLowerCase name' <> toLowerCase name) ->
  get (toLowerCase name) (forEach_from totalRepos i0 es result)
  = Some (Z.of_nat totalRepos - Z.of_nat (i0 + i)).
Proof.
  induction es as [|e r IH]; intros i i0 result key name Hnth Hlater.
  - destruct i; discriminate.
  - destruct i as [|i]; simpl in Hnth |- *.
    + injection Hnth as ->. rewrite forEach_from_frame.
      * unfold assign. simpl. rewrite get_set_same. now rewrite Nat.add_0_r.
      * intros e' name' Hin Hsnd. apply In_nth_error in Hin as [j Hj].
        destruct e' as [key' v']. simpl in Hsnd. subst v'.
        apply (Hlater (S j) key' name'); [lia | exact Hj].
    + rewrite (IH i (S i0) _ key name Hnth).
      * do 3 f_equal. lia.
      * intros j key' name' Hlt Hj. apply (Hlater (S j) key' name'); [lia | exact Hj].
Qed.

Lemma forEach_from_origin totalRepos k v es : forall i0 result,
  get k (forEach_from totalRepos i0 es result) = Some v ->
  get k result = Some v
  \/ exists i key name,
       nth_error es i = Some (key, JStr name) /\ toLowerCase name = k
       /\ v = Z.of_nat totalRepos - Z.of_nat (i0 + i).
Proof.
  induction es as [|e r IH]; simpl; intros i0 result Hget; [now left|].
  apply IH in Hget as [Hget | (i & key & name & Hnth & Hk & Hv)].
  - unfold assign in Hget. destruct e as [key val]. simpl in Hget.
    destruct val; try (now left).
    rewrite get_set in Hget. destruct (String.eqb_spec (toLowerCase s) k) as [Heq|Hne].
    + right. exists 0%nat, key, s. injection Hget as <-.
      repeat split; [exact Heq | now rewrite Nat.add_0_r].
    + now left.
  - right. exists (S i), key, name. repeat split; try assumption.
    subst v. do 2 f_equal. lia.
Qed.

End DayFacts.

(* ================================================================== *)
(** * Objects in enumeration order *)
(* ================================================================== *)

Lemma In_firstn {A : Type} (n : nat) (l : list A) (x : A) :
  In x (firstn n l) -> In x l.
Proof.
  intros H. rewrite <- (firstn_skipn n l). apply in_or_app. now left.
Qed.

Section CanonicalFacts.
Context {V : Type}.
Implicit Types (o : obj V) (k : string) (v : V).

Lemma ordered_snoc ks k :
  ordered (ks ++ [k]) -> ordered ks /\ Forall (fun k' => key_before k' k) ks.
Proof.
  induction ks as [|a r IH]; simpl; intros H.
  - split; constructor.
  - inversion H as [|? ? Hall Hord]; subst.
    apply IH in Hord as [Hord Hbefore].
    apply Forall_app in Hall as [Hall Hlast].
    split; constructor; try assumption.
    now inversion Hlast.
Qed.

Lemma insertIndex_last n k v o :
  arrayIndex k = Some n ->
  Forall (fun k' => key_before k' k) (keys o) ->
  insertIndex n k v o = o ++ [(k, v)].
Proof.
  intros Hk. induction o as [|[k' v'] r IH]; simpl; intros Hall; [reflexivity|].
  inversion Hall as [|? ? Hhead Htail]; subst.
  unfold key_before in Hhead. rewrite Hk in Hhead.
  destruct (arrayIndex k') as [n'|]; [|contradiction].
  destruct (N.ltb_spec n n'); [lia|].
  now rewrite IH.
Qed.

Lemma set_last k v o :
  ~ In k (keys o) ->
  Forall (fun k' => key_before k' k) (keys o) ->
  set k v o = o ++ [(k, v)].
Proof.
  intros Hnot Hall. unfold set.
  destruct (has k o) eqn:Hhas.
  - apply has_true_iff in Hhas. contradiction.
  - destruct (arrayIndex k) eqn:Hk; [|reflexivity].
    now apply insertIndex_last.
Qed.

(** An object read off in enumeration order is rebuilt as it was. *)
Lemma fromEntries_canonical o : canonical o -> fromEntries o = o.
Proof.
  induction o as [|[k v] r IH] using rev_ind; [reflexivity|].
  intros [Hnd Hord]. unfold keys in Hnd, Hord. rewrite map_app in Hnd, Hord.
  simpl in Hnd, Hord.
  apply ordered_snoc in Hord as [Hord Hbefore].
  apply NoDup_remove in Hnd as [Hnd Hnot]. rewrite app_nil_r in Hnd, Hnot.
  unfold fromEntries in *. rewrite fold_left_app. simpl.
  rewrite IH by (split; assumption).
  now apply set_last.
Qed.

Lemma Forall_keys_filter (P : string -> Prop) (p : string * V -> bool) o :
  Forall P (keys o) -> Forall P (keys (filter p o)).
Proof.
  induction o as [|e r IH]; simpl; intros H; [constructor|].
  inversion H; subst. destruct (p e); simpl; auto.
Qed.

Lemma In_keys_filter (p : string * V -> bool) o k :
  In k (keys (filter p o)) -> In k (keys o).
Proof.
  unfold keys. rewrite !in_map_iff. intros (e & He & Hin).
  apply filter_In in Hin as [Hin _]. now exists e.
Qed.

Lemma canonical_filter (p : string * V -> bool) o :
  canonical o -> canonical (filter p o).
Proof.
  intros [Hnd Hord]. split.
  - induction o as [|e r IH]; simpl; [constructor|].
    inversion Hnd as [|? ? Hnot Hnd']; subst. inversion Hord; subst.
    destruct (p e); simpl; auto.
    constructor; auto. intros Hin. apply Hnot. now apply In_keys_filter in Hin.
  - induction o as [|e r IH]; simpl; [constructor|].
    inversion Hnd; subst. inversion Hord; subst.
    destruct (p e); simpl; auto.
    constructor; auto. now apply Forall_keys_filter.
Qed.

Lemma canonical_firstn n o : canonical o -> canonical (firstn n o).
Proof.
  revert o. induction n as [|n IH]; intros o [Hnd Hord]; simpl.
  - split; constructor.
  - destruct o as [|e r]; [split; constructor|].
    inversion Hnd as [|? ? Hnot Hnd']; subst.
    inversion Hord as [|? ? Hall Hord']; subst.
    destruct (IH r (conj Hnd' Hord')) as [Hnd'' Hord''].
    split; simpl; constructor; try assumption.
    + intros Hin. apply Hnot. unfold keys in *.
      rewrite <- (firstn_skipn n r), map_app. apply in_or_app. now left.
    + unfold keys in *. rewrite <- (firstn_skipn n r), map_app in Hall.
      now apply Forall_app in Hall as [Hall _].
Qed.

Lemma canonical_slice0 z o : canonical o -> canonical (slice0 z o).
Proof. unfold slice0. destruct (z <? 0); apply canonical_firstn. Qed.

Lemma canonical_nil : canonical (@nil (string * V)).
Proof. split; constructor. Qed.

Lemma arrayIndex_inj k k' n :
  arrayIndex k = Some n -> arrayIndex k' = Some n -> k = k'.
Proof.
  unfold arrayIndex. intros H H'.
  destruct (digits_value 0 k) as [m|]; [|discriminate].
  destruct (digits_value 0 k') as [m'|]; [|discriminate].
  destruct ((m <? 4294967295)%N && (decimal m =? k)%string)%bool eqn:E; [|discriminate].
  destruct ((m' <? 4294967295)%N && (decimal m' =? k')%string)%bool eqn:E'; [|discriminate].
  apply andb_true_iff in E as [_ E], E' as [_ E'].
  apply String.eqb_eq in E, E'. congruence.
Qed.

Lemma ordered_app_last ks k :
  ordered ks -> Forall (fun k' => key_before k' k) ks -> ordered (ks ++ [k]).
Proof.
  induction 1 as [|a r Hall Hord IH]; simpl; intros Hbefore.
  - repeat constructor.
  - inversion Hbefore; subst. constructor; [|now apply IH].
    apply Forall_app. split; [exact Hall | now constructor].
Qed.

Lemma keys_insertIndex_perm n k v o :
  Permutation (keys (insertIndex n k v o)) (k :: keys o).
Proof. unfold keys. now rewrite (insertIndex_perm n k v o). Qed.

Lemma ordered_insertIndex n k v o :
  arrayIndex k = Some n -> ~ In k (keys o) -> ordered (keys o) ->
  ordered (keys (insertIndex n k v o)).
Proof.
  intros Hk. induction o as [|[k' v'] r IH]; simpl; intros Hnot Hord.
  - repeat constructor.
  - inversion Hord as [|? ? Hall Hord']; subst.
    assert (Hne : k' <> k) by tauto. assert (Hnot' : ~ In k (keys r)) by tauto.
    destruct (arrayIndex k') as [n'|] eqn:Hk'.
    + destruct (N.ltb_spec n n') as [Hlt|Hge]; simpl.
      * constructor; [|exact Hord]. constructor.
        -- unfold key_before. now rewrite Hk, Hk'.
        -- eapply Forall_impl; [|exact Hall]. intros x Hx.
           unfold key_before in *. rewrite Hk. rewrite Hk' in Hx.
           destruct (arrayIndex x); [lia | exact I].
      * constructor; [|now apply IH].
        eapply Permutation_Forall; [symmetry; apply keys_insertIndex_perm|].
        constructor; [|exact Hall].
        unfold key_before. rewrite Hk, Hk'.
        destruct (N.eq_dec n n') as [->|]; [|lia].
        exfalso. apply Hne. now apply (arrayIndex_inj k' k n').
    + simpl. constructor; [|exact Hord]. constructor.
      * unfold key_before. now rewrite Hk, Hk'.
      * eapply Forall_impl; [|exact Hall]. intros x Hx.
        unfold key_before in *. rewrite Hk. rewrite Hk' in Hx.
        destruct (arrayIndex x); [contradiction | exact I].
Qed.

(** Writing a property keeps an object in enumeration order. *)
Lemma canonical_set k v o : canonical o -> canonical (set k v o).
Proof.
  intros [Hnd Hord]. split; [now apply NoDup_keys_set|].
  unfold set. destruct (has k o) eqn:Hhas.
  - now rewrite keys_update.
  - assert (Hnot : ~ In k (keys o)).
    { intros Hin. apply has_true_iff in Hin. congruence. }
    destruct (arrayIndex k) as [n|] eqn:Hk.
    + now apply ordered_insertIndex.
    + unfold keys. rewrite map_app. simpl. apply ordered_app_last; [exact Hord|].
      apply Forall_forall. intros x _. unfold key_before. rewrite Hk.
      now destruct (arrayIndex x).
Qed.

Lemma canonical_fold_set (es : list (string * V)) o :
  canonical o -> canonical (fold_left (fun o e => set (fst e) (snd e) o) es o).
Proof.
  revert o. induction es as [|e r IH]; simpl; intros o Hc; [exact Hc|].
  apply IH. now apply canonical_set.
Qed.

Lemma canonical_fromEntries (es : list (string * V)) : canonical (fromEntries es).
Proof. apply canonical_fold_set, canonical_nil. Qed.

Lemma set_new_perm k v o : ~ In k (keys o) -> Permutation (set k v o) ((k, v) :: o).
Proof.
  intros Hnot. unfold set. destruct (has k o) eqn:Hhas.
  - apply has_true_iff in Hhas. contradiction.
  - destruct (arrayIndex k); [apply insertIndex_perm|].
    symmetry. apply Permutation_cons_append.
Qed.

Lemma fold_set_perm (es : list (string * V)) : forall o,
  NoDup (keys o ++ keys es) ->
  Permutation (fold_left (fun o e => set (fst e) (snd e) o) es o) (o ++ es).
Proof.
  induction es as [|[k v] r IH]; simpl; intros o Hnd.
  - now rewrite app_nil_r.
  - assert (Hnot : ~ In k (keys o)).
    { apply NoDup_remove_2 in Hnd. intros Hin. apply Hnd, in_or_app. now left. }
    pose proof (set_new_perm k v o Hnot) as Hset.
    rewrite IH.
    + rewrite Hset. simpl. apply Permutation_middle.
    + eapply Permutation_NoDup; [|exact Hnd].
      unfold keys. rewrite (Permutation_map fst Hset). simpl.
      symmetry. apply Permutation_middle.
Qed.

Lemma fromEntries_perm (es : list (string * V)) :
  NoDup (keys es) -> Permutation (fromEntries es) es.
Proof. intros Hnd. apply (fold_set_perm es []). exact Hnd. Qed.

Lemma Permutation_filter (p : string * V -> bool) (l l' : obj V) :
  Permutation l l' -> Permutation (filter p l) (filter p l').
Proof.
  induction 1 as [|x l l' _ IH|x y l|l l' l'' _ IH _ IH']; simpl.
  - constructor.
  - destruct (p x); [now constructor | exact IH].
  - destruct (p x), (p y); try reflexivity. apply perm_swap.
  - now transitivity (filter p l').
Qed.

(** Array indices have one ascending arrangement. *)
Lemma ordered_indices_unique (l : obj V) : forall l',
  ordered (keys l) -> ordered (keys l') ->
  Forall (fun e => isIndex e = true) l ->
  Permutation l l' -> l = l'.
Proof.
  induction l as [|a r IH]; intros l' Hord Hord' Hidx Hperm.
  - now apply Permutation_nil in Hperm.
  - destruct l' as [|b r']; [now apply Permutation_sym, Permutation_nil in Hperm|].
    simpl in Hord, Hord'. inversion Hord as [|? ? Hall Hr]; subst.
    inversion Hord' as [|? ? Hall' Hr']; subst. inversion Hidx as [|? ? Ha Hrest]; subst.
    assert (Hab : a = b).
    { assert (Hina : In a (b :: r')) by (eapply Permutation_in; [exact Hperm | now left]).
      assert (Hinb : In b (a :: r))
        by (eapply Permutation_in; [symmetry; exact Hperm | now left]).
      destruct Hina as [->|Hina]; [reflexivity|].
      destruct Hinb as [->|Hinb]; [reflexivity|]. exfalso.
      rewrite Forall_forall in Hall, Hall'.
      specialize (Hall (fst b) (in_map fst _ _ Hinb)).
      specialize (Hall' (fst a) (in_map fst _ _ Hina)).
      unfold key_before, isIndex in *.
      destruct (arrayIndex (fst a)); [|discriminate].
      destruct (arrayIndex (fst b)); [lia | contradiction]. }
    subst b. f_equal. apply IH; try assumption.
    now apply Permutation_cons_inv in Hperm.
Qed.

Lemma canonical_perm_indices (o o' : obj V) :
  canonical o -> canonical o' -> Permutation o o' ->
  filter isIndex o = filter isIndex o'.
Proof.
  intros Hc Hc' Hperm.
  apply ordered_indices_unique.
  - apply (canonical_filter isIndex o Hc).
  - apply (canonical_filter isIndex o' Hc').
  - apply Forall_forall. intros e Hin. now apply filter_In in Hin.
  - now apply Permutation_filter.
Qed.

Lemma ordered_app_before (a b : list string) :
  ordered (a ++ b) -> forall x y, In x a -> In y b -> key_before x y.
Proof.
  induction a as [|h t IH]; simpl; intros Hord x y Hx Hy; [contradiction|].
  inversion Hord as [|? ? Hall Hord']; subst.
  destruct Hx as [->|Hx]; [|now apply (IH Hord')].
  rewrite Forall_forall in Hall. apply Hall, in_or_app. now right.
Qed.

Lemma filter_through (f g : string * V -> bool) (l : obj V) :
  (forall e, In e l -> f e = true -> g e = true) ->
  filter f l = filter f (filter g l).
Proof.
  induction l as [|e r IH]; simpl; intros H; [reflexivity|].
  rewrite IH by (intros e' Hin; apply H; now right).
  destruct (f e) eqn:Hf.
  - rewrite (H e (or_introl eq_refl) Hf). simpl. now rewrite Hf.
  - destruct (g e); simpl; [now rewrite Hf | reflexivity].
Qed.

End CanonicalFacts.

(* ================================================================== *)
(** * The day service: limits *)
(* ================================================================== *)

Section LimitFacts.
Import DayService.

Lemma limitedEntries_positive data K :
  0 < K -> limitedEntries data (Some K) = firstn (Z.to_nat K) (repoEntries data).
Proof.
  intros HK. unfold limitedEntries, limit_truthy, slice0.
  destruct (Z.eqb_spec K 0); [lia|]. destruct (Z.ltb_spec K 0); [lia | reflexivity].
Qed.

(** With a limit [K], the scores count down from the number of entries
    that are left, not from the number of entries of the document. *)
Lemma formatResponse_limit_score data K i key name :
  0 < K -> (i < Z.to_nat K)%nat ->
  nth_error (repoEntries data) i = Some (key, JStr name) ->
  (forall j key' name',
      (i < j)%nat -> nth_error (repoEntries data) j = Some (key', JStr name') ->
      toLowerCase name' <> toLowerCase name) ->
  get (toLowerCase name) (formatResponse data (Some K))
  = Some (Z.min K (Z.of_nat (List.length (repoEntries data))) - Z.of_nat i).
Proof.
  intros HK Hi Hnth Hlater. unfold formatResponse.
  rewrite (limitedEntries_positive _ _ HK).
  rewrite (forEach_from_last _ _ i 0%nat [] key name).
  - rewrite length_firstn. simpl. f_equal. lia.
  - rewrite nth_error_firstn. destruct (Nat.ltb_spec i (Z.to_nat K)); [exact Hnth | lia].
  - intros j key' name' Hlt Hj. rewrite nth_error_firstn in Hj.
    destruct (j <? Z.to_nat K)%nat; [|discriminate].
    now apply (Hlater j key' name').
Qed.

Lemma formatResponse_limit_shift data K i key name :
  0 < K < Z.of_nat (List.length (repoEntries data)) -> (i < Z.to_nat K)%nat ->
  nth_error (repoEntries data) i = Some (key, JStr name) ->
  (forall j key' name',
      (i < j)%nat -> nth_error (repoEntries data) j = Some (key', JStr name') ->
      toLowerCase name' <> toLowerCase name) ->
  exists limited unlimited,
    get (toLowerCase name) (formatResponse data (Some K)) = Some limited
    /\ get (toLowerCase name) (formatResponse data None) = Some unlimited
    /\ unlimited - limited = Z.of_nat (List.length (repoEntries data)) - K.
Proof.
  intros HK Hi Hnth Hlater.
  exists (K - Z.of_nat i), (Z.of_nat (List.length (repoEntries data)) - Z.of_nat i).
  split; [|split; [|lia]].
  - rewrite (formatResponse_limit_score data K i key name); try assumption; [|lia].
    f_equal. lia.
  - unfold formatResponse, limitedEntries. simpl.
    now rewrite (forEach_from_last _ _ i 0%nat [] key name Hnth Hlater).
Qed.

(** ** C3 *)

(** C3, on the backend day service: for the document
    [{ "0": "a/b", "1": "c/d", "date": "2025-01-01" }] and [limit = 1],
    [formatResponse] returns [{ "a/b": 1 }], whereas the first entry of
    its unlimited output is [("a/b", 2)]: the key is the same, the score
    is not. *)
Theorem formatResponse_limit_rescores :
  formatResponse example_document (Some 1) = [("a/b", 1)]
  /\ slice0 1 (formatResponse example_document None) = [("a/b", 2)]
  /\ formatResponse example_document (Some 1)
     <> slice0 1 (formatResponse example_document None).
Proof. vm_compute. repeat split; discriminate. Qed.

(** The day service of the refactoring truncates the stored entries and
    leaves their values alone. *)
Lemma applyLimit_truncates data K :
  canonical (ownEntries data) -> 0 < K ->
  DayServiceRefactor.applyLimit data (Some K)
  = JObj (firstn (Z.to_nat K) (ownEntries data)).
Proof.
  intros Hc HK. unfold DayServiceRefactor.applyLimit, limit_truthy.
  destruct (Z.eqb_spec K 0); [lia|].
  rewrite fromEntries_canonical by now apply canonical_slice0.
  unfold slice0. destruct (Z.ltb_spec K 0); [lia | reflexivity].
Qed.

End LimitFacts.



(* ================================================================== *)
(** * Week and month: the window is the sum of its days *)
(* ================================================================== *)

Section WindowFacts.
Import Window.

Lemma sumZ_app l l' : sumZ (l ++ l') = sumZ l + sumZ l'.
Proof. induction l; simpl; lia. Qed.

Lemma or_zero_scoreOf repo scores : or_zero (get repo scores) = scoreOf repo scores.
Proof.
  unfold or_zero, scoreOf. destruct (get repo scores) as [z|]; [|reflexivity].
  destruct (Z.eqb_spec z 0); congruence.
Qed.

Lemma scoreOf_addEntry repo aggregatedData e :
  scoreOf repo (addEntry aggregatedData e)
  = scoreOf repo aggregatedData
    + (if (fst e =? repo)%string then numericScore (snd e) else 0).
Proof.
  unfold addEntry, scoreOf at 1. rewrite get_set.
  destruct (String.eqb_spec (fst e) repo) as [->|Hne].
  - now rewrite or_zero_scoreOf.
  - unfold scoreOf. lia.
Qed.

Lemma scoreOf_addDay repo entries : forall aggregatedData,
  scoreOf repo (fold_left addEntry entries aggregatedData)
  = scoreOf repo aggregatedData
    + sumZ (map (fun e => if (fst e =? repo)%string then numericScore (snd e) else 0)
                entries).
Proof.
  induction entries as [|e r IH]; simpl; intros aggregatedData; [lia|].
  rewrite IH, scoreOf_addEntry. lia.
Qed.

Lemma sum_matching_dayScore repo entries :
  NoDup (keys entries) ->
  sumZ (map (fun e => if (fst e =? repo)%string then numericScore (snd e) else 0)
            entries)
  = dayScore repo entries.
Proof.
  unfold dayScore. induction entries as [|[k v] r IH]; simpl; intros Hnd; [reflexivity|].
  inversion Hnd as [|? ? Hnot Hnd']; subst.
  destruct (String.eqb_spec k repo) as [->|Hne].
  - apply get_None_iff in Hnot. specialize (IH Hnd'). rewrite Hnot in IH. lia.
  - now rewrite IH.
Qed.

Lemma NoDup_addDay entries : forall aggregatedData,
  NoDup (keys aggregatedData) -> NoDup (keys (fold_left addEntry entries aggregatedData)).
Proof.
  induction entries as [|e r IH]; simpl; intros aggregatedData Hnd; [exact Hnd|].
  apply IH. unfold addEntry. now apply NoDup_keys_set.
Qed.

(** One iteration never throws; it adds the day's scores or, when the day
    is skipped, leaves the totals as they are. *)
Lemma processUrl_spec aggregatedData url w :
  exists aggregatedData',
    processUrl aggregatedData url w = (Ok aggregatedData', with_request w url)
    /\ (NoDup (keys aggregatedData) -> NoDup (keys aggregatedData'))
    /\ (dayEntries (net w (requests w) url) = None -> aggregatedData' = aggregatedData)
    /\ (wellformed (net w (requests w) url) ->
        forall repo, scoreOf repo aggregatedData'
                     = scoreOf repo aggregatedData
                       + contribution repo (net w (requests w) url)).
Proof.
  unfold processUrl, try_catch, bind, fetch, lift, ret, wellformed, contribution, dayEntries.
  destruct (net w (requests w) url) as [response|message]; simpl.
  - destruct (World.ok response); simpl.
    + destruct (JSON_parse (body response)) as [data|message]; simpl.
      * destruct (Object_entries data) as [entries|message]; simpl.
        -- exists (fold_left addEntry entries aggregatedData).
           repeat split; try discriminate.
           ++ apply NoDup_addDay.
           ++ intros Hnd repo. rewrite scoreOf_addDay. f_equal.
              now apply sum_matching_dayScore.
        -- exists aggregatedData. repeat split; auto. intros _ repo. lia.
      * exists aggregatedData. repeat split; auto. intros _ repo. lia.
    + exists aggregatedData. repeat split; auto. intros _ repo. lia.
  - exists aggregatedData. repeat split; auto. intros _ repo. lia.
Qed.

Lemma forUrls_spec urls : forall aggregatedData w,
  NoDup (keys aggregatedData) ->
  Forall wellformed (answers w urls) ->
  exists aggregatedData' w',
    forUrls urls aggregatedData w = (Ok aggregatedData', w')
    /\ NoDup (keys aggregatedData')
    /\ forall repo, scoreOf repo aggregatedData'
                    = scoreOf repo aggregatedData
                      + sumZ (map (contribution repo) (answers w urls)).
Proof.
  induction urls as [|url rest IH]; simpl; intros aggregatedData w Hnd Hwf.
  - exists aggregatedData, w. repeat split; [exact Hnd | intros; lia].
  - inversion Hwf as [|? ? Hhead Htail]; subst.
    destruct (processUrl_spec aggregatedData url w) as (agg1 & Hrun & Hnd1 & _ & Hscore).
    destruct (IH agg1 (with_request w url) (Hnd1 Hnd) Htail) as (agg2 & w2 & Hrun2 & Hnd2 & Hscore2).
    exists agg2, w2. unfold bind. rewrite Hrun, Hrun2.
    repeat split; [exact Hnd2|]. intros repo. rewrite Hscore2, (Hscore Hhead). lia.
Qed.

Lemma insertDesc_perm e sorted : Permutation (insertDesc e sorted) (e :: sorted).
Proof.
  induction sorted as [|x r IH]; simpl; [reflexivity|].
  destruct (snd e <? snd x); [|reflexivity].
  rewrite IH. apply perm_swap.
Qed.

Lemma sortDesc_perm es : Permutation (sortDesc es) es.
Proof.
  induction es as [|e r IH]; simpl; [reflexivity|].
  rewrite insertDesc_perm. now constructor.
Qed.

Lemma scoreOf_sorted repo aggregatedData :
  NoDup (keys aggregatedData) ->
  scoreOf repo (fromEntries (sortDesc aggregatedData)) = scoreOf repo aggregatedData.
Proof.
  intros Hnd. unfold scoreOf.
  assert (Hnd' : NoDup (keys (sortDesc aggregatedData))).
  { eapply Permutation_NoDup; [|exact Hnd].
    apply Permutation_map, Permutation_sym, sortDesc_perm. }
  rewrite (get_fromEntries_NoDup _ _ Hnd').
  now rewrite (get_perm_NoDup _ _ repo Hnd' (sortDesc_perm aggregatedData)).
Qed.

Lemma aggregateLast_spec dateString n w :
  Forall wellformed (answers w (urlsOfLast dateString n)) ->
  exists result w',
    aggregateLast dateString n w = (Ok result, w')
    /\ forall repo,
        scoreOf repo result
        = sumZ (map (contribution repo) (answers w (urlsOfLast dateString n))).
Proof.
  intros Hwf.
  destruct (forUrls_spec (urlsOfLast dateString n) [] w) as (agg & w' & Hrun & Hnd & Hscore);
    [constructor | exact Hwf |].
  exists (fromEntries (sortDesc agg)), w'. unfold aggregateLast, bind, ret.
  rewrite Hrun. split; [reflexivity|].
  intros repo. rewrite (scoreOf_sorted _ _ Hnd), Hscore. reflexivity.
Qed.

Lemma sum_without_skipped repo (l : list (res response)) j answer :
  nth_error l j = Some answer -> dayEntries answer = None ->
  sumZ (map (contribution repo) l)
  = sumZ (map (contribution repo) (firstn j l ++ skipn (S j) l)).
Proof.
  intros Hnth Hskip. rewrite <- (firstn_skipn_middle _ _ Hnth) at 1.
  rewrite !map_app, !sumZ_app. simpl. unfold contribution at 2. rewrite Hskip. lia.
Qed.

(** ** C2 *)

(** C2. For [N = 7] ([getLastWeekData]) and [N = 30] ([getLastMonthData]),
    whatever the network answers (each parsed day being a JSON object, with
    distinct keys), the service returns a map in which every repository has
    the sum of its scores over the [N] days; and when the fetch of day [j]
    fails, the result is the sum over the other [N - 1] days. *)
Theorem window_is_sum_of_days dateString w n :
  n = 7%nat \/ n = 30%nat ->
  Forall wellformed (answers w (urlsOfLast dateString n)) ->
  exists result w',
    (if (n =? 7)%nat then getLastWeekData dateString else getLastMonthData dateString) w
    = (Ok result, w')
    /\ List.length (answers w (urlsOfLast dateString n)) = n
    /\ (forall repo,
           scoreOf repo result
           = sumZ (map (contribution repo) (answers w (urlsOfLast dateString n))))
    /\ (forall repo j answer,
           nth_error (answers w (urlsOfLast dateString n)) j = Some answer ->
           dayEntries answer = None ->
           scoreOf repo result
           = sumZ (map (contribution repo)
                       (firstn j (answers w (urlsOfLast dateString n))
                        ++ skipn (S j) (answers w (urlsOfLast dateString n))))).
Proof.
  intros Hn Hwf.
  destruct (aggregateLast_spec dateString n w Hwf) as (result & w' & Hrun & Hscore).
  exists result, w'. split; [|split; [|split]].
  - destruct Hn as [-> | ->]; exact Hrun.
  - assert (Hlen : forall urls w0, List.length (answers w0 urls) = List.length urls).
    { induction urls as [|u r IH]; simpl; intros w0; [reflexivity | now rewrite IH]. }
    rewrite Hlen. unfold urlsOfLast. now rewrite length_map, length_seq.
  - exact Hscore.
  - intros repo j answer Hnth Hskip. rewrite Hscore.
    now apply (sum_without_skipped repo _ j answer).
Qed.

Lemma example_network_wellformed :
  Forall wellformed (answers example_network (urlsOfLast example_dates 7)).
Proof.
  repeat constructor; simpl; intuition discriminate.
Qed.

Lemma window_is_sum_of_days_witness :
  exists result w',
    getLastWeekData example_dates example_network = (Ok result, w')
    /\ scoreOf "a/b" result = 12 /\ scoreOf "c/d" result = 6.
Proof.
  destruct (window_is_sum_of_days example_dates example_network 7
              (or_introl eq_refl) example_network_wellformed)
    as (result & w' & Hrun & _ & Hscore & _).
  exists result, w'. split; [exact Hrun|].
  rewrite !Hscore. split; reflexivity.
Defined.

End WindowFacts.

(* ================================================================== *)
(** * Storage wrappers and store failures *)
(* ================================================================== *)

Section StoreFacts.
Import RepositoryEnricher.

Ltac run :=
  unfold DayStorage.getCachedData, DayStorage.cacheData, DayStorage.deleteCachedData,
    getFromCache, storeInCache, try_catch, bind, ret, lift, throw,
    kv_get, kv_put, kv_delete; simpl.

Lemma getCachedData_read key w :
  exists v, DayStorage.getCachedData key w = (Ok v, w)
            /\ (kv_fails w Get key = true -> v = JNull)
            /\ (get key (kv w) = None -> v = JNull)
            /\ (forall raw message ttl,
                   get key (kv w) = Some {| value := Malformed raw message;
                                            expirationTtl := ttl |} -> v = JNull).
Proof.
  run. destruct (kv_fails w Get key).
  - exists JNull. repeat split; reflexivity.
  - destruct (get key (kv w)) as [[t ttl]|]; simpl.
    + destruct t as [v|raw message]; simpl.
      * exists v. repeat split; try discriminate.
      * destruct (negb (raw =? "")%string); exists JNull; repeat split; reflexivity.
    + exists JNull. repeat split; reflexivity.
Qed.

Lemma getFromCache_read key w :
  exists v, getFromCache key w = (Ok v, w)
            /\ (kv_fails w Get key = true -> v = JNull)
            /\ (get key (kv w) = None -> v = JNull)
            /\ (forall raw message ttl,
                   get key (kv w) = Some {| value := Malformed raw message;
                                            expirationTtl := ttl |} -> v = JNull)
            /\ (forall cached ttl,
                   kv_fails w Get key = false ->
                   get key (kv w) = Some {| value := Serialized cached;
                                            expirationTtl := ttl |} -> v = cached).
Proof.
  run. destruct (kv_fails w Get key).
  - exists JNull. repeat split; try reflexivity; discriminate.
  - destruct (get key (kv w)) as [[t ttl]|]; simpl.
    + destruct t as [v|raw message]; simpl.
      * exists v. repeat split; try discriminate. intros cached ttl' _ [= -> _]. reflexivity.
      * destruct (negb (raw =? "")%string); exists JNull; repeat split;
          try reflexivity; discriminate.
    + exists JNull. repeat split; try reflexivity; discriminate.
Qed.

Lemma storeInCache_write key data ttl w :
  exists w', storeInCache key data ttl w = (Ok tt, w')
             /\ requests w' = requests w
             /\ kv_fails w' = kv_fails w /\ net w' = net w
             /\ (kv_fails w Put key = true -> w' = w)
             /\ (kv_fails w Put key = false ->
                 kv w' = set key {| value := Serialized (JObj data);
                                    expirationTtl := Some ttl |} (kv w)).
Proof.
  run. destruct (kv_fails w Put key); simpl.
  - exists w. repeat split; try reflexivity; discriminate.
  - eexists. repeat split; try reflexivity; discriminate.
Qed.

(** ** C5 *)

(** C5 as stated fails: with a failing store, [DayStorage.cacheData] and
    [DayStorage.deleteCachedData] raise. *)
Lemma day_storage_write_failure_raises :
  ~ never_raises (DayStorage.cacheData "v4-2025-01-01" (JObj []) 86400)
  /\ ~ never_raises (DayStorage.deleteCachedData "v4-2025-01-01")
  /\ DayStorage.cacheData "v4-2025-01-01" (JObj []) 86400 broken_store
     = (Throw "Failed to cache data", broken_store).
Proof.
  split; [|split]; [| |reflexivity];
    intros H; destruct (H broken_store) as (a & w' & Hrun); discriminate.
Qed.

(** C5, amended.  Every storage wrapper catches the failure of the store.
    A failed or unparsable read is a miss: [DayStorage.getCachedData] and
    [RepositoryEnricher.getFromCache] never raise, leave the world alone
    and return [null].  A failed write in [RepositoryEnricher.storeInCache]
    is a no-op that does not raise.  [DayStorage.cacheData] and
    [DayStorage.deleteCachedData] turn the failure into an error of their
    own, which they raise, the store being left as it was. *)
Theorem store_failures_are_caught :
  (forall key, never_raises (DayStorage.getCachedData key))
  /\ (forall key, never_raises (getFromCache key))
  /\ (forall key data ttl, never_raises (storeInCache key data ttl))
  /\ (forall key w, kv_fails w Get key = true ->
                    DayStorage.getCachedData key w = (Ok JNull, w)
                    /\ getFromCache key w = (Ok JNull, w))
  /\ (forall key w raw message ttl,
         get key (kv w) = Some {| value := Malformed raw message; expirationTtl := ttl |} ->
         DayStorage.getCachedData key w = (Ok JNull, w)
         /\ getFromCache key w = (Ok JNull, w))
  /\ (forall key data ttl w, kv_fails w Put key = true ->
                             storeInCache key data ttl w = (Ok tt, w))
  /\ (forall key data ttl w, kv_fails w Put key = true ->
                             DayStorage.cacheData key data ttl w
                             = (Throw "Failed to cache data", w))
  /\ (forall key w, kv_fails w Delete key = true ->
                    DayStorage.deleteCachedData key w
                    = (Throw "Failed to delete cached data", w)).
Proof.
  repeat match goal with |- _ /\ _ => split end.
  - intros key w. destruct (getCachedData_read key w) as (v & Hrun & _). now exists v, w.
  - intros key w. destruct (getFromCache_read key w) as (v & Hrun & _). now exists v, w.
  - intros key data ttl w.
    destruct (storeInCache_write key data ttl w) as (w' & Hrun & _). now exists tt, w'.
  - intros key w H. split.
    + destruct (getCachedData_read key w) as (v & Hrun & Hfail & _).
      now rewrite Hrun, (Hfail H).
    + destruct (getFromCache_read key w) as (v & Hrun & Hfail & _).
      now rewrite Hrun, (Hfail H).
  - intros key w raw message ttl H. split.
    + destruct (getCachedData_read key w) as (v & Hrun & _ & _ & Hbad).
      now rewrite Hrun, (Hbad _ _ _ H).
    + destruct (getFromCache_read key w) as (v & Hrun & _ & _ & Hbad & _).
      now rewrite Hrun, (Hbad _ _ _ H).
  - intros key data ttl w H.
    destruct (storeInCache_write key data ttl w) as (w' & Hrun & _ & _ & _ & Hfail & _).
    now rewrite Hrun, (Hfail H).
  - intros key data ttl w H. run. now rewrite H.
  - intros key w H. run. now rewrite H.
Qed.

Lemma store_failures_are_caught_witness :
  DayStorage.getCachedData "v4-2025-01-01" broken_store = (Ok JNull, broken_store)
  /\ storeInCache "repo_info:day:a/b" [("score", JNum 1)] 3600 broken_store
     = (Ok tt, broken_store)
  /\ DayStorage.cacheData "v4-2025-01-01" (JObj []) 86400 broken_store
     = (Throw "Failed to cache data", broken_store).
Proof.
  destruct store_failures_are_caught
    as (_ & _ & _ & Hread & _ & Hstore & Hcache & _).
  split; [|split].
  - apply (Hread "v4-2025-01-01" broken_store). reflexivity.
  - apply (Hstore "repo_info:day:a/b" [("score", JNum 1)] 3600 broken_store). reflexivity.
  - apply (Hcache "v4-2025-01-01" (JObj []) 86400 broken_store). reflexivity.
Defined.

End StoreFacts.

(* ================================================================== *)
(** * The day service behind its cache *)
(* ================================================================== *)

Section DayServiceFacts.
Import DayService.

Variable sortByValue : list (string * json) -> list (string * json).

Lemma fetchAndAggregateData_spec date w :
  fetchAndAggregateData date w
  = (Ok (upstream (net w (requests w) (dayUrl date))), with_request w (dayUrl date)).
Proof.
  unfold fetchAndAggregateData, try_catch, bind, fetch, throw, lift, ret, upstream.
  fold (dayUrl date).
  destruct (net w (requests w) (dayUrl date)) as [response|message]; simpl; [|reflexivity].
  destruct (World.ok response); simpl; [|reflexivity].
  now destruct (JSON_parse (body response)).
Qed.

Lemma getDailyStars_hit date limit w cached :
  fst (DayStorage.getCachedData ("v4-" ++ date) w) = Ok cached ->
  truthy cached = true ->
  getDailyStars sortByValue date limit w = (Ok (formatResponse cached limit), w).
Proof.
  intros Hread Htruthy. unfold getDailyStars, bind.
  destruct (getCachedData_read ("v4-" ++ date) w) as (v & Hrun & _).
  rewrite Hrun in Hread |- *. simpl in Hread. injection Hread as ->.
  now rewrite Htruthy.
Qed.

(** On a miss the upstream document is fetched, sorted and written to the
    cache before the answer is formatted; a failing write makes the call
    raise. *)
Lemma getDailyStars_miss date limit w :
  (forall v, fst (DayStorage.getCachedData ("v4-" ++ date) w) = Ok v -> truthy v = false) ->
  let repoData := upstream (net w (requests w) (dayUrl date)) in
  let final := if noData repoData then JObj []
               else JObj (fromEntries (sortByValue (ownEntries repoData))) in
  getDailyStars sortByValue date limit w
  = if kv_fails w Put ("v4-" ++ date)%string
    then (Throw "Failed to cache data", with_request w (dayUrl date))
    else (Ok (if noData repoData then [] else formatResponse final limit),
          with_kv (with_request w (dayUrl date))
                  (set ("v4-" ++ date)%string
                       {| value := Serialized final; expirationTtl := Some 86400 |}
                       (kv w))).
Proof.
  intros Hmiss repoData final. unfold getDailyStars.
  destruct (getCachedData_read ("v4-" ++ date) w) as (v & Hrun & _).
  specialize (Hmiss v). rewrite Hrun in Hmiss. specialize (Hmiss eq_refl).
  unfold bind at 1. rewrite Hrun, Hmiss.
  unfold bind at 1. rewrite fetchAndAggregateData_spec.
  fold repoData. fold (noData repoData). subst final.
  destruct (noData repoData);
    unfold bind, DayStorage.cacheData, try_catch, kv_put, throw, ret; simpl;
    now destruct (kv_fails w Put _).
Qed.

Lemma formatResponse_ext data data' limit :
  repoEntries data = repoEntries data' ->
  formatResponse data limit = formatResponse data' limit.
Proof.
  intros H. unfold formatResponse, limitedEntries. now rewrite H.
Qed.

(** Sorting the entries before rebuilding the object cannot disturb the rank
    order: the ranks are array indices, which an object enumerates in
    ascending order whatever the order of insertion. *)
Lemma repoEntries_rebuilt (o : obj json) :
  canonical o ->
  Permutation (sortByValue o) o ->
  (forall e, In e o -> isNaN_Number (fst e) = false -> isIndex e = true) ->
  repoEntries (JObj (fromEntries (sortByValue o))) = repoEntries (JObj o).
Proof.
  intros Hc Hperm Hranks. unfold repoEntries. simpl.
  assert (Hnd : NoDup (keys (sortByValue o))).
  { eapply Permutation_NoDup; [|exact (proj1 Hc)].
    apply Permutation_map. now symmetry. }
  assert (Hperm' : Permutation (fromEntries (sortByValue o)) o).
  { rewrite (fromEntries_perm _ Hnd). exact Hperm. }
  rewrite (filter_through _ isIndex (fromEntries (sortByValue o))).
  - rewrite (filter_through _ isIndex o).
    + now rewrite (canonical_perm_indices _ o (canonical_fromEntries _) Hc Hperm').
    + intros e Hin Hnum. apply negb_true_iff in Hnum. now apply Hranks.
  - intros e Hin Hnum. apply negb_true_iff in Hnum.
    apply Hranks; [|exact Hnum]. eapply Permutation_in; [exact Hperm' | exact Hin].
Qed.

Lemma getDailyStars_fresh date limit w o :
  (forall v, fst (DayStorage.getCachedData ("v4-" ++ date) w) = Ok v -> truthy v = false) ->
  kv_fails w Put ("v4-" ++ date)%string = false ->
  upstream (net w (requests w) (dayUrl date)) = JObj o ->
  o <> [] -> canonical o ->
  Permutation (sortByValue o) o ->
  (forall e, In e o -> isNaN_Number (fst e) = false -> isIndex e = true) ->
  fst (getDailyStars sortByValue date limit w) = Ok (formatResponse (JObj o) limit).
Proof.
  intros Hmiss Hput Hup Hne Hc Hperm Hranks.
  rewrite (getDailyStars_miss date limit w Hmiss), Hput, Hup.
  assert (Hdata : noData (JObj o) = false) by (destruct o; [contradiction | reflexivity]).
  rewrite Hdata. cbn [fst ownEntries].
  now rewrite (formatResponse_ext _ (JObj o) limit (repoEntries_rebuilt o Hc Hperm Hranks)).
Qed.

End DayServiceFacts.

Section DayClaim.
Import DayService.

(** ** C1 *)

(** C1. [formatResponse] without a limit keeps exactly the properties whose
    key [Number] accepts; with [T] of them, the repository at position [i]
    (the last one of that lower-cased name, names being distinct in a
    ranking) is stored under its lower-cased name with score [T - i]; every
    property of the result arises this way.  [getDailyStars], on a cache
    miss, returns this for the document the upstream source delivers, when
    the ranks of the document are array indices (the sort may permute the
    entries at will) and the cache accepts the write.  The document
    [{ "0": "a/b", "1": "c/d", "date": "2025-01-01" }] yields
    [{ "a/b": 2, "c/d": 1 }]. *)
Theorem formatResponse_rank_inversion :
  (forall data e,
      In e (repoEntries data)
      <-> In e (ownEntries data) /\ isNaN_Number (fst e) = false)
  /\ (forall data i key name,
         nth_error (repoEntries data) i = Some (key, JStr name) ->
         (forall j key' name',
             (i < j)%nat ->
             nth_error (repoEntries data) j = Some (key', JStr name') ->
             toLowerCase name' <> toLowerCase name) ->
         get (toLowerCase name) (formatResponse data None)
         = Some (Z.of_nat (List.length (repoEntries data)) - Z.of_nat i))
  /\ (forall data k v,
         get k (formatResponse data None) = Some v ->
         exists i key name,
           nth_error (repoEntries data) i = Some (key, JStr name)
           /\ k = toLowerCase name
           /\ v = Z.of_nat (List.length (repoEntries data)) - Z.of_nat i)
  /\ (forall sortByValue date w o,
         (forall v, fst (DayStorage.getCachedData ("v4-" ++ date) w) = Ok v ->
                    truthy v = false) ->
         kv_fails w Put ("v4-" ++ date)%string = false ->
         upstream (net w (requests w) (dayUrl date)) = JObj o ->
         o <> [] -> canonical o ->
         Permutation (sortByValue o) o ->
         (forall e, In e o -> isNaN_Number (fst e) = false -> isIndex e = true) ->
         fst (getDailyStars sortByValue date None w)
         = Ok (formatResponse (JObj o) None))
  /\ formatResponse example_document None = [("a/b", 2); ("c/d", 1)].
Proof.
  repeat match goal with |- _ /\ _ => split end.
  - intros data e. unfold repoEntries. rewrite filter_In.
    now rewrite negb_true_iff.
  - intros data i key name Hnth Hlater. unfold formatResponse, limitedEntries. simpl.
    now rewrite (forEach_from_last _ _ i 0%nat [] key name Hnth Hlater).
  - intros data k v Hget. unfold formatResponse, limitedEntries in Hget. simpl in Hget.
    apply forEach_from_origin in Hget as [Hget | (i & key & name & Hnth & Hk & Hv)].
    + discriminate.
    + exists i, key, name. now repeat split.
  - intros sortByValue date w o. apply getDailyStars_fresh.
  - vm_compute. reflexivity.
Qed.

Lemma formatResponse_rank_inversion_witness :
  get "a/b" (formatResponse example_document None) = Some 2.
Proof.
  apply (proj1 (proj2 formatResponse_rank_inversion) example_document 0%nat "0" "a/b").
  - reflexivity.
  - intros j key' name' Hlt Hnth.
    destruct j as [|[|[|j]]]; [lia | | discriminate | discriminate].
    injection Hnth as <- <-. vm_compute. discriminate.
Defined.

End DayClaim.

Example getDailyStars_example :
  fst (DayService.getDailyStars (@rev _) "2025-01-01" None example_upstream)
  = Ok [("a/b", 2); ("c/d", 1)].
Proof. vm_compute. reflexivity. Qed.

Example getDailyStars_failing_write :
  fst (DayService.getDailyStars (fun es => es) "2025-01-01" None
         {| kv := []; kv_fails := fun o _ => match o with Put => true | _ => false end;
            net := net example_upstream; requests := [] |})
  = Throw "Failed to cache data".
Proof. vm_compute. reflexivity. Qed.

(* ================================================================== *)
(** * The enricher: cache hits, misses and failed fetches *)
(* ================================================================== *)

Section EnricherFacts.
Import RepositoryEnricher.

Lemma fetchRepositoryInfo_spec repoFullName score w :
  fetchRepositoryInfo repoFullName score w
  = (Ok match delivered (net w (requests w) (detailsUrl repoFullName)) with
        | Ok repoInfo => [("score", score); ("info", repoInfo)]
        | Throw message => failure score message
        end,
     with_request w (detailsUrl repoFullName)).
Proof.
  unfold fetchRepositoryInfo, try_catch, bind, fetch, throw, lift, ret, delivered.
  destruct (net w (requests w) (detailsUrl repoFullName)) as [response|message]; simpl;
    [|reflexivity].
  destruct (World.ok response); simpl; [|reflexivity].
  now destruct (JSON_parse (body response)).
Qed.

Lemma getFromCache_frame key w url :
  getFromCache key (with_request w url)
  = (fst (getFromCache key w), with_request w url).
Proof.
  unfold getFromCache, try_catch, bind, kv_get, ret, lift. simpl.
  destruct (kv_fails w Get key); [reflexivity|].
  destruct (option_map value (get key (kv w))) as [t|]; [|reflexivity].
  destruct (nonempty t); [|reflexivity]. now destruct (JSON_parse t).
Qed.

Lemma misses_frame key w url : misses key w -> misses key (with_request w url).
Proof.
  unfold misses. intros H v. rewrite getFromCache_frame. simpl. apply H.
Qed.

(** On a miss, the entry is what the fetch produced; the store is written
    only for a delivered, non-null info. *)
Lemma getRepositoryInfo_miss repoFullName score cacheConfig w :
  misses (cacheKeyOf cacheConfig repoFullName) w ->
  exists w',
    getRepositoryInfo repoFullName score cacheConfig w
    = (Ok match delivered (net w (requests w) (detailsUrl repoFullName)) with
          | Ok repoInfo => [("score", score); ("info", repoInfo)]
          | Throw message => failure score message
          end, w')
    /\ requests w' = requests w ++ [detailsUrl repoFullName]
    /\ kv_fails w' = kv_fails w /\ net w' = net w
    /\ match delivered (net w (requests w) (detailsUrl repoFullName)) with
       | Ok JNull | Throw _ => w' = with_request w (detailsUrl repoFullName)
       | Ok repoInfo =>
           (kv_fails w Put (cacheKeyOf cacheConfig repoFullName) = true -> kv w' = kv w)
           /\ (kv_fails w Put (cacheKeyOf cacheConfig repoFullName) = false ->
               kv w' = set (cacheKeyOf cacheConfig repoFullName)
                           {| value := Serialized (JObj [("score", score); ("info", repoInfo)]);
                              expirationTtl := Some (ttl cacheConfig) |} (kv w))
       end.
Proof.
  intros Hmiss. unfold getRepositoryInfo.
  destruct (getFromCache_read (cacheKeyOf cacheConfig repoFullName) w) as (v & Hread & _).
  specialize (Hmiss v). rewrite Hread in Hmiss. specialize (Hmiss eq_refl).
  unfold try_catch at 1. unfold bind at 1. rewrite Hread, Hmiss.
  unfold bind at 1. rewrite fetchRepositoryInfo_spec.
  destruct (delivered (net w (requests w) (detailsUrl repoFullName))) as [repoInfo|message].
  - assert (Hinfo : info_not_null [("score", score); ("info", repoInfo)]
                    = match repoInfo with JNull => false | _ => true end) by reflexivity.
    assert (Herr : no_error [("score", score); ("info", repoInfo)] = true) by reflexivity.
    rewrite Hinfo, Herr, andb_true_r.
    destruct repoInfo.
    1: { unfold bind, ret. simpl. eexists. repeat split; reflexivity. }
    all: match goal with
         | |- context [storeInCache ?key ?e ?t] =>
             destruct (storeInCache_write key e t
                         (with_request w (detailsUrl repoFullName)))
               as (w' & Hrun & Hreq & Hfails & Hnet & Hfail & Hput)
         end;
      exists w'; unfold bind at 1; rewrite Hrun; unfold ret; simpl;
      repeat split; try assumption; intros Hok;
      first [now rewrite (Hfail Hok) | now rewrite (Hput Hok)].
  - unfold bind, ret. simpl. eexists. repeat split; reflexivity.
Qed.

(** On a hit, nothing is fetched and nothing is written. *)
Lemma getRepositoryInfo_hit repoFullName score cacheConfig w cached expiry :
  kv_fails w Get (cacheKeyOf cacheConfig repoFullName) = false ->
  get (cacheKeyOf cacheConfig repoFullName) (kv w)
  = Some {| value := Serialized cached; expirationTtl := expiry |} ->
  truthy cached = true ->
  getRepositoryInfo repoFullName score cacheConfig w
  = (Ok (set "score" score (fromEntries (ownEntries cached))), w).
Proof.
  intros Hget Hkv Htruthy. unfold getRepositoryInfo.
  destruct (getFromCache_read (cacheKeyOf cacheConfig repoFullName) w)
    as (v & Hread & _ & _ & _ & Hhit).
  rewrite (Hhit cached expiry Hget Hkv) in Hread.
  unfold try_catch at 1. unfold bind at 1. now rewrite Hread, Htruthy.
Qed.

Lemma getRepositoryInfo_total repoFullName score cacheConfig w :
  exists entry w', getRepositoryInfo repoFullName score cacheConfig w = (Ok entry, w').
Proof.
  unfold getRepositoryInfo, try_catch.
  match goal with |- context [let (r, w') := ?m w in _] => destruct (m w) as [[entry|message] w0] end.
  - now exists entry, w0.
  - unfold ret. now eexists _, w0.
Qed.

(** Every input repository gets exactly one entry, under its own name. *)
Lemma enrichInOrder_keys cacheConfig entries : forall enrichedData w,
  NoDup (keys enrichedData ++ keys entries) ->
  ordered (keys enrichedData ++ keys entries) ->
  exists enrichedData' w',
    enrichInOrder entries cacheConfig enrichedData w = (Ok enrichedData', w')
    /\ keys enrichedData' = keys enrichedData ++ keys entries.
Proof.
  induction entries as [|[repoFullName score] rest IH]; simpl; intros enrichedData w Hnd Hord.
  - exists enrichedData, w. now rewrite app_nil_r.
  - destruct (getRepositoryInfo_total repoFullName score cacheConfig w) as (entry & w1 & Hrun).
    unfold bind. rewrite Hrun.
    assert (Hset : set repoFullName entry enrichedData
                   = enrichedData ++ [(repoFullName, entry)]).
    { apply set_last.
      - apply NoDup_remove_2 in Hnd. intros Hin. apply Hnd, in_or_app. now left.
      - apply Forall_forall. intros x Hx.
        apply (ordered_app_before _ _ Hord x repoFullName Hx). now left. }
    rewrite Hset.
    assert (Hkeys : keys (enrichedData ++ [(repoFullName, entry)]) ++ keys rest
                    = keys enrichedData ++ repoFullName :: keys rest).
    { unfold keys. rewrite map_app. simpl. now rewrite <- app_assoc. }
    destruct (IH (enrichedData ++ [(repoFullName, entry)]) w1) as (result & w2 & Hrun2 & Hk).
    + now rewrite Hkeys.
    + now rewrite Hkeys.
    + exists result, w2. split; [exact Hrun2|]. now rewrite Hk, Hkeys.
Qed.

Lemma enrichRepositories_keys repoData cacheConfig w :
  canonical repoData ->
  exists enrichedData w',
    enrichRepositories repoData cacheConfig w = (Ok enrichedData, w')
    /\ keys enrichedData = keys repoData.
Proof.
  intros [Hnd Hord]. unfold enrichRepositories.
  now apply (enrichInOrder_keys _ repoData [] w).
Qed.

Lemma unreachable_service_misses key : misses key unreachable_service.
Proof. intros v. vm_compute. now intros [= <-]. Qed.

(** ** C6 *)

(** C6. When the cache has nothing for a repository and its metadata fetch
    fails with [message], [getRepositoryInfo] returns
    [{score, info: null, error: message}] and leaves the store as it was,
    so that the next call fetches again and returns what that fetch
    delivers; and whenever a call on a miss changes the store, the entry it
    returns has a non-null [info] and no [error]. *)
Theorem failed_fetch_is_not_cached repoFullName score cacheConfig w :
  misses (cacheKeyOf cacheConfig repoFullName) w ->
  (forall message,
      delivered (net w (requests w) (detailsUrl repoFullName)) = Throw message ->
      getRepositoryInfo repoFullName score cacheConfig w
      = (Ok [("score", score); ("info", JNull);
             ("error", JStr (message_or message "Unknown error occurred"))],
         with_request w (detailsUrl repoFullName))
      /\ kv (snd (getRepositoryInfo repoFullName score cacheConfig w)) = kv w
      /\ forall score', exists w2,
          getRepositoryInfo repoFullName score' cacheConfig
            (with_request w (detailsUrl repoFullName))
          = (Ok match delivered (net w (requests w ++ [detailsUrl repoFullName])
                                    (detailsUrl repoFullName)) with
                | Ok repoInfo => [("score", score'); ("info", repoInfo)]
                | Throw message' => failure score' message'
                end, w2)
          /\ requests w2
             = requests w ++ [detailsUrl repoFullName; detailsUrl repoFullName])
  /\ (forall entry w',
         getRepositoryInfo repoFullName score cacheConfig w = (Ok entry, w') ->
         kv w' <> kv w ->
         info_not_null entry = true /\ no_error entry = true).
Proof.
  intros Hmiss.
  destruct (getRepositoryInfo_miss repoFullName score cacheConfig w Hmiss)
    as (w1 & Hrun & Hreq & Hfails & Hnet & Hstore).
  split.
  - intros message Hfail. rewrite Hfail in Hrun, Hstore. subst w1.
    split; [exact Hrun | split; [now rewrite Hrun|]].
    intros score'.
    destruct (getRepositoryInfo_miss repoFullName score' cacheConfig
                (with_request w (detailsUrl repoFullName)) (misses_frame _ _ _ Hmiss))
      as (w2 & Hrun2 & Hreq2 & _).
    exists w2. split; [exact Hrun2|].
    rewrite Hreq2. simpl. now rewrite <- app_assoc.
  - intros entry w' Hrun' Hchanged. rewrite Hrun in Hrun'.
    injection Hrun' as <- <-.
    destruct (delivered (net w (requests w) (detailsUrl repoFullName))) as [repoInfo|message].
    + destruct repoInfo; try (split; reflexivity).
      subst w1. now contradiction Hchanged.
    + subst w1. now contradiction Hchanged.
Qed.

Lemma failed_fetch_is_not_cached_witness :
  getRepositoryInfo "a/b" (JNum 7) day_config unreachable_service
  = (Ok [("score", JNum 7); ("info", JNull);
         ("error", JStr "Failed to fetch repository info: 404 Not Found")],
     with_request unreachable_service (detailsUrl "a/b")).
Proof.
  apply (proj1 (failed_fetch_is_not_cached "a/b" (JNum 7) day_config unreachable_service
                  (unreachable_service_misses _))
           "Failed to fetch repository info: 404 Not Found").
  reflexivity.
Defined.

Lemma keys_set_score {V : Type} (score : V) (cached : obj V) :
  keys (set "score" score cached)
  = if has "score" cached then keys cached else keys cached ++ ["score"].
Proof.
  unfold set. destruct (has "score" cached).
  - apply keys_update.
  - simpl. unfold keys. now rewrite map_app.
Qed.

Lemma get_refreshScores data (enrichedData : obj (obj json)) repo :
  get repo (Main.refreshScores data enrichedData)
  = match get repo enrichedData with
    | Some entry => Some match get repo data with
                         | Some score => set "score" score entry
                         | None => entry
                         end
    | None => None
    end.
Proof.
  unfold Main.refreshScores.
  induction enrichedData as [|[k e] r IH]; simpl; [reflexivity|].
  destruct (String.eqb_spec k repo) as [->|Hne].
  - destruct (get repo data); simpl; now rewrite String.eqb_refl.
  - destruct (get k data); simpl;
      (destruct (String.eqb_spec k repo); [contradiction | exact IH]).
Qed.

(** ** C7 *)

(** C7. On a cache hit, [getRepositoryInfo] fetches nothing, writes nothing
    and returns the cached entry with its [score] set to the current score:
    [score] reads as the current score, every other field reads as in the
    cached entry, and the fields are those of the cached entry, in their
    order (with [score] last if the cached entry had none).  Likewise, when
    the cached enriched response is reused, each entry whose repository is
    in the current data is that entry with its [score] set to the current
    one. *)
Theorem cache_hit_overwrites_score_only repoFullName score cacheConfig w cached expiry :
  kv_fails w Get (cacheKeyOf cacheConfig repoFullName) = false ->
  get (cacheKeyOf cacheConfig repoFullName) (kv w)
  = Some {| value := Serialized (JObj cached); expirationTtl := expiry |} ->
  canonical cached ->
  getRepositoryInfo repoFullName score cacheConfig w = (Ok (set "score" score cached), w)
  /\ get "score" (set "score" score cached) = Some score
  /\ (forall field, field <> "score" ->
                    get field (set "score" score cached) = get field cached)
  /\ keys (set "score" score cached)
     = (if has "score" cached then keys cached else keys cached ++ ["score"])
  /\ (forall (data : obj json) (enrichedData : obj (obj json)),
         get repoFullName data = Some score ->
         get repoFullName enrichedData = Some cached ->
         get repoFullName (Main.refreshScores data enrichedData)
         = Some (set "score" score cached)).
Proof.
  intros Hget Hkv Hcanonical. repeat match goal with |- _ /\ _ => split end.
  - rewrite (getRepositoryInfo_hit _ _ _ _ (JObj cached) expiry Hget Hkv eq_refl).
    simpl. now rewrite (fromEntries_canonical cached Hcanonical).
  - apply get_set_same.
  - intros field Hne. now apply get_set_other.
  - apply keys_set_score.
  - intros data enrichedData Hdata Hentry.
    rewrite get_refreshScores.
    destruct (get repoFullName enrichedData) as [entry|]; [|discriminate].
    injection Hentry as ->. now rewrite Hdata.
Qed.

Lemma cache_hit_overwrites_score_only_witness :
  getRepositoryInfo "a/b" (JNum 9) day_config warm_cache
  = (Ok [("score", JNum 9); ("info", JObj [("lastFetched", JNum 1742256000)])],
     warm_cache).
Proof.
  apply (cache_hit_overwrites_score_only "a/b" (JNum 9) day_config warm_cache
           cached_entry (Some 3600)).
  - reflexivity.
  - reflexivity.
  - split.
    + repeat constructor; simpl; intuition discriminate.
    + repeat constructor; exact I.
Defined.

End EnricherFacts.

(* ================================================================== *)
(** * Post-processing: filter, then limit *)
(* ================================================================== *)

Section FilterFacts.
Import RepositoryEnricher Main.

Lemma filterErrors_canonical enrichedData :
  canonical enrichedData ->
  filterErrors false enrichedData = filter (fun e => keep (snd e)) enrichedData.
Proof.
  intros Hc. unfold filterErrors.
  apply (fromEntries_canonical (filter (fun e => keep (snd e)) enrichedData)).
  now apply canonical_filter.
Qed.

Lemma finalData_canonical enrichedData limit :
  canonical enrichedData ->
  finalData false limit enrichedData
  = match limit with
    | Some K => if 0 <? K
                then firstn (Z.to_nat K) (filter (fun e => keep (snd e)) enrichedData)
                else filter (fun e => keep (snd e)) enrichedData
    | None => filter (fun e => keep (snd e)) enrichedData
    end.
Proof.
  intros Hc. unfold finalData, applyLimit. rewrite (filterErrors_canonical _ Hc).
  destruct limit as [K|]; [|reflexivity].
  destruct (Z.ltb_spec 0 K).
  - destruct (Z.eqb_spec K 0); [lia|]. simpl.
    rewrite fromEntries_canonical
      by (apply canonical_slice0; now apply canonical_filter).
    unfold slice0. destruct (Z.ltb_spec K 0); [lia | reflexivity].
  - now rewrite andb_false_r.
Qed.

(** ** C4 *)

(** C4. Without [include_errors], on an enriched map in enumeration order:
    an entry whose [info] is [null] is absent from the result; the result
    is the prefix, of the length the limit asks for, of the entries that
    pass the filter, so filtering comes before truncation; and without a
    limit the size of the result is the size of the input minus the number
    of entries with an error or a [null] info, which is the number of
    entries with a [null] info when every entry with an error has one.
    The enricher returns one entry per input repository, so this is also
    the number of input repositories minus the failed ones. *)
Theorem finalData_filters_then_limits enrichedData limit :
  canonical enrichedData ->
  (forall k e, get k enrichedData = Some e -> info_not_null e = false ->
               get k (finalData false limit enrichedData) = None)
  /\ (forall K, limit = Some K -> 0 < K ->
                finalData false limit enrichedData
                = firstn (Z.to_nat K) (finalData false None enrichedData))
  /\ finalData false None enrichedData = filter (fun e => keep (snd e)) enrichedData
  /\ (List.length (finalData false None enrichedData)
      = List.length enrichedData
        - List.length (filter (fun e => negb (keep (snd e))) enrichedData))%nat
  /\ (Forall (fun e => no_error (snd e) = false -> info_not_null (snd e) = false)
             enrichedData ->
      (List.length (finalData false None enrichedData)
       = List.length enrichedData - List.length (filter failed enrichedData))%nat)
  /\ (forall repoData cacheConfig w enriched w',
         canonical repoData ->
         enrichRepositories repoData cacheConfig w = (Ok enriched, w') ->
         (List.length (finalData false None enriched)
          = List.length repoData
            - List.length (filter (fun e => negb (keep (snd e))) enriched))%nat).
Proof.
  intros Hc. pose proof (finalData_canonical enrichedData limit Hc) as Hfinal.
  pose proof (finalData_canonical enrichedData None Hc) as Hnone.
  cbv beta iota in Hnone.
  split; [|split; [|split; [|split; [|split]]]].
  - intros k e Hget Hnull.
    destruct (get k (finalData false limit enrichedData)) as [e'|] eqn:E; [|reflexivity].
    exfalso. apply get_Some_In in E.
    assert (Hin : In (k, e') (filter (fun e => keep (snd e)) enrichedData)).
    { rewrite Hfinal in E. destruct limit as [K|]; [destruct (0 <? K)|];
        try exact E. eapply In_firstn; exact E. }
    apply filter_In in Hin as [Hin Hkeep]. simpl in Hkeep.
    apply (In_get_NoDup _ _ _ (proj1 Hc)) in Hin.
    assert (e' = e) by congruence. subst e'.
    unfold keep in Hkeep. rewrite Hnull, andb_false_r in Hkeep. discriminate.
  - intros K -> HK. rewrite Hfinal, Hnone.
    destruct (Z.ltb_spec 0 K); [reflexivity | lia].
  - exact Hnone.
  - rewrite Hnone.
    pose proof (filter_length (fun e => keep (snd e)) enrichedData). lia.
  - intros Hinv. rewrite Hnone.
    pose proof (filter_length (fun e => keep (snd e)) enrichedData) as Hlen.
    assert (Heq : filter (fun e => negb (keep (snd e))) enrichedData
                  = filter failed enrichedData).
    { apply filter_ext_in. intros e Hin. unfold failed, keep.
      rewrite Forall_forall in Hinv. specialize (Hinv e Hin).
      destruct (no_error (snd e)); simpl; [reflexivity|].
      now rewrite Hinv. }
    rewrite <- Heq. lia.
  - intros repoData cacheConfig w enriched w' Hdata Hrun.
    destruct (enrichRepositories_keys repoData cacheConfig w Hdata)
      as (enriched0 & w0 & Hrun0 & Hkeys).
    rewrite Hrun0 in Hrun. injection Hrun as -> ->.
    assert (Hc' : canonical enriched).
    { unfold canonical. rewrite Hkeys. exact Hdata. }
    pose proof (finalData_canonical enriched None Hc') as Hn. cbv beta iota in Hn.
    rewrite Hn.
    pose proof (filter_length (fun e => keep (snd e)) enriched) as Hlen.
    assert (Hsize : List.length enriched = List.length repoData).
    { apply (f_equal (@List.length _)) in Hkeys. unfold keys in Hkeys.
      now rewrite !length_map in Hkeys. }
    lia.
Qed.

Lemma enriched_example_canonical : canonical enriched_example.
Proof.
  split.
  - repeat constructor; simpl; intuition discriminate.
  - repeat constructor; exact I.
Qed.

Lemma finalData_filters_then_limits_witness :
  finalData false (Some 1) enriched_example
  = firstn 1 (finalData false None enriched_example)
  /\ get "c/d" (finalData false (Some 1) enriched_example) = None
  /\ List.length (finalData false None enriched_example) = 2%nat.
Proof.
  destruct (finalData_filters_then_limits enriched_example (Some 1)
              enriched_example_canonical) as (Habsent & Hlimit & _ & _ & Hsize & _).
  split; [|split].
  - apply (Hlimit 1); [reflexivity | lia].
  - apply (Habsent "c/d" (failure (JNum 2) "Failed to fetch repository info: 404 Not Found"));
      reflexivity.
  - rewrite Hsize; [reflexivity|].
    repeat constructor; simpl; try discriminate; reflexivity.
Defined.

End FilterFacts.

(* ================================================================== *)
(** * The refresh check *)
(* ================================================================== *)

Section RefreshFacts.
Import Refresh.

Variable Date_parse : string -> parsed_date.
Variable JSON_parse_text : string -> res json.

Lemma isSameDay_iff a b : isSameDay a b = true <-> sameDay a b.
Proof. unfold isSameDay, sameDay. rewrite !andb_true_iff, !Z.eqb_eq. tauto. Qed.

Lemma previousDay_not_same a b : previousDay a b -> isSameDay a b = false.
Proof.
  intros H. destruct (isSameDay a b) eqn:E; [|reflexivity].
  apply isSameDay_iff in E. unfold previousDay, sameDay in *. lia.
Qed.

Lemma isTimeToRefresh_iff config now :
  isTimeToRefresh config now = true
  <-> (getUTCHours now = apiRefreshHour config
       /\ apiRefreshBuffer config <= getUTCMinutes now)
      \/ apiRefreshHour config < getUTCHours now.
Proof.
  unfold isTimeToRefresh.
  rewrite orb_true_iff, andb_true_iff, Z.eqb_eq, Z.leb_le, Z.ltb_lt. tauto.
Qed.

(** A marker of a previous day does not count, whatever its time. *)
Lemma hasRefreshedToday_previous_day config env cache_get marker lastRefresh now :
  REPO_CACHE env = Some cache_get ->
  cache_get (lastRefreshKey config) = Ok (Some marker) ->
  Date_parse marker = ValidDate lastRefresh ->
  previousDay lastRefresh now ->
  hasRefreshedToday config Date_parse env now = false.
Proof.
  intros Henv Hget Hparse Hprev. unfold hasRefreshedToday.
  rewrite Henv, Hget. destruct (marker =? "")%string; [reflexivity|].
  rewrite Hparse. now rewrite (previousDay_not_same _ _ Hprev).
Qed.

Lemma shouldRefreshCache_eq config env now now' :
  shouldRefreshCache config Date_parse env now now'
  = (isTimeToRefresh config now && negb (hasRefreshedToday config Date_parse env now'))%bool.
Proof. unfold shouldRefreshCache. now destruct (isTimeToRefresh config now). Qed.

(** ** C8 *)

(** C8. With cutoff hour 1 and buffer 30, at 02:00 UTC: a marker stamped
    00:50 UTC on a previous day forces the refresh; a marker stamped 01:45
    UTC on the same day does not; and, for any configuration and any time
    of the check, a marker of a previous UTC day never counts as refreshed
    today, whatever hour and minute it records. *)
Theorem refresh_marker_cases env cache_get marker lastRefresh now :
  REPO_CACHE env = Some cache_get ->
  cache_get (lastRefreshKey DEV_CONFIG) = Ok (Some marker) ->
  marker <> "" ->
  Date_parse marker = ValidDate lastRefresh ->
  getUTCHours now = 2 -> getUTCMinutes now = 0 ->
  (previousDay lastRefresh now ->
   getUTCHours lastRefresh = 0 -> getUTCMinutes lastRefresh = 50 ->
   shouldRefreshCache DEV_CONFIG Date_parse env now now = true)
  /\ (sameDay lastRefresh now ->
      getUTCHours lastRefresh = 1 -> getUTCMinutes lastRefresh = 45 ->
      shouldRefreshCache DEV_CONFIG Date_parse env now now = false)
  /\ (forall config env' cache_get' marker' lastRefresh' now',
         REPO_CACHE env' = Some cache_get' ->
         cache_get' (lastRefreshKey config) = Ok (Some marker') ->
         Date_parse marker' = ValidDate lastRefresh' ->
         previousDay lastRefresh' now' ->
         hasRefreshedToday config Date_parse env' now' = false).
Proof.
  intros Henv Hget Hnonempty Hparse Hhour Hminute.
  assert (Htime : isTimeToRefresh DEV_CONFIG now = true).
  { apply isTimeToRefresh_iff. right. simpl. lia. }
  split; [|split].
  - intros Hprev _ _. rewrite shouldRefreshCache_eq, Htime.
    now rewrite (hasRefreshedToday_previous_day DEV_CONFIG env cache_get marker lastRefresh).
  - intros Hsame Hh Hm. rewrite shouldRefreshCache_eq, Htime.
    unfold hasRefreshedToday. rewrite Henv, Hget.
    destruct (String.eqb_spec marker ""); [contradiction|].
    rewrite Hparse. apply isSameDay_iff in Hsame. rewrite Hsame.
    unfold wasAfterRefreshTime. rewrite Hh, Hm. reflexivity.
  - intros config env' cache_get' marker' lastRefresh' now'.
    apply hasRefreshedToday_previous_day.
Qed.

(** ** C10 *)

(** C10. When reading the marker fails, [hasRefreshedToday] answers [false];
    hence at any time at or past the cutoff hour plus buffer the check
    forces a refresh, and the cached list is not handed out. *)
Theorem marker_read_failure_forces_refresh config env cache_get message now now' :
  REPO_CACHE env = Some cache_get ->
  cache_get (lastRefreshKey config) = Throw message ->
  hasRefreshedToday config Date_parse env now' = false
  /\ ((getUTCHours now = apiRefreshHour config
       /\ apiRefreshBuffer config <= getUTCMinutes now)
      \/ apiRefreshHour config < getUTCHours now ->
      shouldRefreshCache config Date_parse env now now' = true
      /\ getPopularReposFromCache config Date_parse JSON_parse_text env now now' = JNull).
Proof.
  intros Henv Hget.
  assert (Hnot : hasRefreshedToday config Date_parse env now' = false).
  { unfold hasRefreshedToday. now rewrite Henv, Hget. }
  split; [exact Hnot|]. intros Hpast.
  apply isTimeToRefresh_iff in Hpast.
  assert (Hshould : shouldRefreshCache config Date_parse env now now' = true).
  { now rewrite shouldRefreshCache_eq, Hpast, Hnot. }
  split; [exact Hshould|].
  unfold getPopularReposFromCache. now rewrite Henv, Hshould.
Qed.

End RefreshFacts.

Lemma refresh_marker_cases_witness :
  Refresh.shouldRefreshCache Refresh.DEV_CONFIG Refresh.Date_parse_iso
    (Refresh.marked "2025-03-17T00:50:00.000Z")
    Refresh.at_0200_on_march_18 Refresh.at_0200_on_march_18 = true.
Proof.
  eapply (proj1 (refresh_marker_cases Refresh.Date_parse_iso
                   (Refresh.marked "2025-03-17T00:50:00.000Z") _
                   "2025-03-17T00:50:00.000Z" _ Refresh.at_0200_on_march_18
                   eq_refl eq_refl _ eq_refl eq_refl eq_refl)).
  - right. right. simpl. lia.
  - reflexivity.
  - reflexivity.
  Unshelve. discriminate.
Defined.

Lemma marker_read_failure_forces_refresh_witness :
  Refresh.shouldRefreshCache Refresh.DEV_CONFIG Refresh.Date_parse_iso Refresh.failing
    Refresh.at_0200_on_march_18 Refresh.at_0200_on_march_18 = true.
Proof.
  eapply (proj2 (marker_read_failure_forces_refresh Refresh.Date_parse_iso
                   (fun _ => Throw "not JSON") Refresh.DEV_CONFIG Refresh.failing _
                   "KV GET failed" Refresh.at_0200_on_march_18 Refresh.at_0200_on_march_18
                   eq_refl eq_refl)).
  right. simpl. lia.
Defined.

(* ================================================================== *)
(** * The fan-out client: lines, chunks and the final result *)
(* ================================================================== *)

Section SplitFacts.
Import FetchEach.

Lemma string_app_assoc (a b c : string) : ((a ++ b) ++ c = a ++ (b ++ c))%string.
Proof. induction a as [|x a IH]; simpl; [reflexivity | now rewrite IH]. Qed.

Lemma string_app_nil_r (a : string) : (a ++ "")%string = a.
Proof. induction a as [|x a IH]; simpl; [reflexivity | now rewrite IH]. Qed.

Lemma split_not_nil s : split s <> [].
Proof.
  destruct s as [|c r]; simpl; [discriminate|].
  destruct (Ascii.eqb c newline); [discriminate|].
  destruct (split r); discriminate.
Qed.

Lemma split_no_newline s : no_newline s = true -> split s = [s].
Proof.
  induction s as [|c r IH]; simpl; [reflexivity|].
  destruct (Ascii.eqb c newline); simpl; [discriminate|].
  intros H. now rewrite (IH H).
Qed.

Lemma split_line a rest :
  no_newline a = true -> split (a ++ String newline rest) = a :: split rest.
Proof.
  induction a as [|c r IH]; simpl.
  - reflexivity.
  - destruct (Ascii.eqb c newline); simpl; [discriminate|].
    intros H. now rewrite (IH H).
Qed.

Lemma split_pieces_no_newline s : Forall (fun l => no_newline l = true) (split s).
Proof.
  induction s as [|c r IH]; simpl; [repeat constructor|].
  destruct (Ascii.eqb c newline) eqn:E; [constructor; [reflexivity | exact IH]|].
  destruct (split r) as [|h t]; [repeat constructor; simpl; now rewrite E|].
  inversion IH; subst. constructor; [simpl; now rewrite E | assumption].
Qed.

Lemma pop_no_newline s : no_newline (pop (split s)) = true.
Proof.
  unfold pop. pose proof (split_pieces_no_newline s) as H.
  pose proof (split_not_nil s) as Hne.
  rewrite (app_removelast_last EmptyString Hne) in H.
  apply Forall_app in H as [_ H]. now inversion H.
Qed.

(** Text that arrives later only extends the last, unfinished line. *)
Lemma split_app s t :
  split (s ++ t) = removelast (split s) ++ split (pop (split s) ++ t).
Proof.
  unfold pop. induction s as [|c r IH]; [reflexivity|].
  change (String c r ++ t)%string with (String c (r ++ t)).
  cbn [split]. pose proof (split_not_nil r) as Hne.
  destruct (Ascii.eqb c newline) eqn:E.
  - rewrite IH. destruct (split r) as [|h l]; [contradiction | reflexivity].
  - rewrite IH. destruct (split r) as [|h [|h' l]]; [contradiction | |].
    + simpl. now rewrite E.
    + reflexivity.
Qed.

Lemma split_unlines lines tail :
  Forall (fun l => no_newline l = true) lines -> no_newline tail = true ->
  split (unlines lines ++ tail) = lines ++ [tail].
Proof.
  intros Hlines Htail. induction Hlines as [|l r Hl Hr IH]; simpl.
  - now apply split_no_newline.
  - rewrite string_app_assoc. change (String newline (unlines r) ++ tail)%string
      with (String newline (unlines r ++ tail)).
    now rewrite (split_line _ _ Hl), IH.
Qed.

End SplitFacts.

Section ClientFacts.
Import FetchEach.

Variable JSON_parse_text : string -> res json.

#[local] Set Warnings "-notation-for-abbreviation".
Local Notation scan := (scan JSON_parse_text).
Local Notation collect := (collect JSON_parse_text).
Local Notation onLine := (onLine JSON_parse_text).
Local Notation forLines := (forLines JSON_parse_text).
Local Notation readLoop := (readLoop JSON_parse_text).

Lemma event_not_data line :
  startsWith "event: " line = true -> startsWith "data: " line = false.
Proof.
  destruct line as [|c r]; [discriminate|].
  change (startsWith "event: " (String c r))
    with (Ascii.eqb "e" c && startsWith "vent: " r)%bool.
  change (startsWith "data: " (String c r))
    with (Ascii.eqb "d" c && startsWith "ata: " r)%bool.
  destruct (Ascii.eqb_spec "e"%char c) as [<-|]; [reflexivity | discriminate].
Qed.

Lemma scan_app l1 l2 : forall collecting collected,
  scan (l1 ++ l2) collecting collected
  = match scan l1 collecting collected with
    | inl array => inl array
    | inr (collecting', collected') => scan l2 collecting' collected'
    end.
Proof.
  induction l1 as [|line rest IH]; simpl; intros collecting collected; [reflexivity|].
  destruct (startsWith "event: " line).
  - destruct (trimmed (slice 7 line) =? "result")%string; apply IH.
  - destruct (collecting && startsWith "data: " line)%bool; [|apply IH].
    destruct (JSON_parse_text (collected ++ slice 6 line)) as [parsed|]; [|apply IH].
    destruct (array_of parsed); [reflexivity | apply IH].
Qed.

Lemma collect_scan st line rest :
  startsWith "event: " line = false ->
  match collect st line with
  | Return array =>
      scan (line :: rest) (collectingResult st) (resultBuffer st) = inl array
  | Continue st' =>
      scan (line :: rest) (collectingResult st) (resultBuffer st)
      = scan rest (collectingResult st') (resultBuffer st')
      /\ buffer st' = buffer st
  end.
Proof.
  intros Hevent. unfold collect. simpl. rewrite Hevent.
  destruct (collectingResult st && startsWith "data: " line)%bool; [|now split].
  destruct (JSON_parse_text (resultBuffer st ++ slice 6 line)) as [parsed|]; [|now split].
  destruct (array_of parsed); [reflexivity | now split].
Qed.

Lemma collect_event st line :
  startsWith "event: " line = true -> collect st line = Continue st.
Proof.
  intros Hevent. unfold collect.
  now rewrite (event_not_data _ Hevent), andb_false_r.
Qed.

Lemma onLine_scan lines st line rest :
  match onLine lines st line with
  | Return array =>
      scan (line :: rest) (collectingResult st) (resultBuffer st) = inl array
  | Continue st' =>
      scan (line :: rest) (collectingResult st) (resultBuffer st)
      = scan rest (collectingResult st') (resultBuffer st')
      /\ buffer st' = buffer st
  end.
Proof.
  unfold onLine. destruct (startsWith "event: " line) eqn:Hevent.
  - cbn [FetchEach.scan]. rewrite Hevent.
    destruct (trimmed (slice 7 line) =? "result")%string; [now split|].
    destruct (trimmed (slice 7 line) =? "update")%string.
    + destruct (match indexOf line lines with
                | Some i => nth_error lines (S i)
                | None => None
                end) as [d|]; [|now split].
      destruct (startsWith "data: " d); [|now split].
      rewrite (collect_event _ _ Hevent). now split.
    + rewrite (collect_event _ _ Hevent). now split.
  - now apply collect_scan.
Qed.

Lemma forLines_scan lines todo : forall st,
  match forLines lines todo st with
  | Return array => scan todo (collectingResult st) (resultBuffer st) = inl array
  | Continue st' =>
      scan todo (collectingResult st) (resultBuffer st)
      = inr (collectingResult st', resultBuffer st')
      /\ buffer st' = buffer st
  end.
Proof.
  induction todo as [|line rest IH]; intros st; [now split|].
  cbn [FetchEach.forLines]. pose proof (onLine_scan lines st line rest) as Hline.
  destruct (onLine lines st line) as [st1|array]; [|exact Hline].
  destruct Hline as [Hscan Hbuffer]. specialize (IH st1).
  destruct (forLines lines rest st1) as [st2|array].
  - destruct IH as [IH Hbuffer']. split; congruence.
  - congruence.
Qed.

(** The loop over the chunks does to the flags what [scan] does on the
    complete lines of the whole text received. *)
Lemma readLoop_scan chunks : forall st,
  no_newline (buffer st) = true ->
  readLoop chunks st
  = finish (scan (removelast (split (buffer st ++ joined chunks)))
                 (collectingResult st) (resultBuffer st)).
Proof.
  induction chunks as [|value rest IH]; intros st Hbuffer.
  - simpl. rewrite string_app_nil_r, (split_no_newline _ Hbuffer). reflexivity.
  - cbn [FetchEach.readLoop].
    change (joined (value :: rest)) with (value ++ joined rest)%string.
    rewrite <- string_app_assoc, (split_app (buffer st ++ value) (joined rest)).
    rewrite removelast_app by apply split_not_nil.
    rewrite scan_app.
    set (st' := {| buffer := pop (split (buffer st ++ value));
                   resultBuffer := resultBuffer st;
                   collectingResult := collectingResult st;
                   logged := logged st |}).
    pose proof (forLines_scan (removelast (split (buffer st ++ value)))
                  (removelast (split (buffer st ++ value))) st') as Hlines.
    destruct (forLines _ _ st') as [st''|array].
    + destruct Hlines as [Hscan Hbuffer'']. simpl in Hscan, Hbuffer''.
      rewrite Hscan, IH.
      * now rewrite Hbuffer''.
      * rewrite Hbuffer''. apply pop_no_newline.
    + simpl in Hlines. now rewrite Hlines.
Qed.

(** Whatever [scan] returns was read off a text that parsed. *)
Lemma scan_returns_parsed lines array : forall collecting collected,
  scan lines collecting collected = inl array ->
  exists text parsed,
    JSON_parse_text text = Ok parsed /\ array_of parsed = Ok array.
Proof.
  induction lines as [|line rest IH]; simpl; intros collecting collected Hscan;
    [discriminate|].
  destruct (startsWith "event: " line).
  - destruct (trimmed (slice 7 line) =? "result")%string; eapply IH; exact Hscan.
  - destruct (collecting && startsWith "data: " line)%bool; [|eapply IH; exact Hscan].
    destruct (JSON_parse_text (collected ++ slice 6 line)) as [parsed|] eqn:Hparse;
      [|eapply IH; exact Hscan].
    destruct (array_of parsed) as [a|] eqn:Harray; [|eapply IH; exact Hscan].
    injection Hscan as <-. now exists (collected ++ slice 6 line)%string, parsed.
Qed.

Lemma scan_updates progress : forall rest collected,
  scan (flat_map updateEvent progress ++ rest) false collected
  = scan rest false collected.
Proof.
  induction progress as [|p r IH]; intros rest collected; [reflexivity|].
  cbn [flat_map updateEvent app]. cbn [FetchEach.scan].
  replace (startsWith "event: " "event: update") with true by reflexivity.
  replace (trimmed (slice 7 "event: update") =? "result")%string with false by reflexivity.
  replace (startsWith "event: " ("data: " ++ p)) with false by reflexivity.
  replace (startsWith "event: " "") with false by reflexivity.
  cbn [andb]. apply IH.
Qed.

End ClientFacts.

Section DispatchFacts.
Import FetchEach.

Variable JSON_parse_text : string -> res json.

Lemma readLoop_stream chunks progress payload parsed array :
  joined chunks = dispatcherStream progress payload ->
  Forall (fun p => no_newline p = true) progress ->
  no_newline payload = true ->
  JSON_parse_text payload = Ok parsed ->
  array_of parsed = Ok array ->
  readLoop JSON_parse_text chunks initial = Ok array.
Proof.
  intros Hjoined Hprogress Hpayload Hparse Harray.
  rewrite readLoop_scan by reflexivity.
  change (buffer initial ++ joined chunks)%string with (joined chunks).
  rewrite Hjoined. unfold dispatcherStream.
  rewrite <- (string_app_nil_r (unlines _)).
  rewrite split_unlines; [|
    apply Forall_app; split;
    [ apply Forall_flat_map; rewrite Forall_forall in Hprogress |- *;
      intros p Hin; repeat constructor; simpl; now apply Hprogress
    | repeat constructor; simpl; exact Hpayload ]
  | reflexivity].
  rewrite removelast_last. simpl collectingResult. simpl resultBuffer.
  rewrite scan_updates. unfold resultEvent. cbn [scan].
  replace (startsWith "event: " "event: result") with true by reflexivity.
  replace (trimmed (slice 7 "event: result") =? "result")%string with true by reflexivity.
  replace (startsWith "event: " ("data: " ++ payload)) with false by reflexivity.
  replace (startsWith "data: " ("data: " ++ payload)) with true by reflexivity.
  cbn [andb]. change (slice 6 ("data: " ++ payload)) with payload.
  change ("" ++ payload)%string with payload.
  now rewrite Hparse, Harray.
Qed.

Lemma readLoop_truncated chunks progress partial :
  joined chunks
  = (unlines (flat_map updateEvent progress ++ ["event: result"]) ++ "data: " ++ partial)%string ->
  Forall (fun p => no_newline p = true) progress ->
  no_newline partial = true ->
  readLoop JSON_parse_text chunks initial = Throw "Stream ended without complete result".
Proof.
  intros Hjoined Hprogress Hpartial.
  rewrite readLoop_scan by reflexivity.
  change (buffer initial ++ joined chunks)%string with (joined chunks).
  rewrite Hjoined.
  rewrite split_unlines; [|
    apply Forall_app; split;
    [ apply Forall_flat_map; rewrite Forall_forall in Hprogress |- *;
      intros p Hin; repeat constructor; simpl; now apply Hprogress
    | repeat constructor ]
  | simpl; exact Hpartial].
  rewrite removelast_last. simpl collectingResult. simpl resultBuffer.
  rewrite scan_updates. reflexivity.
Qed.

(** ** C9 *)

(** C9. When the dispatcher answers a batch of [L] items as the
    specification says it does, [fetchEach] returns exactly the array of the
    final-result payload, [L] outcomes in the order of the items, wherever
    the stream was cut into chunks.  Whatever the stream, the loop depends
    only on the text received, returns only what it read off a text that
    parsed as JSON, and otherwise ends by raising ["Stream ended without
    complete result"], as it does when the stream stops inside the payload
    line. *)
Theorem fetchEach_returns_final_result dispatcher array response outcomes :
  dispatcher (map requestJson array) = Ok response ->
  answersWith JSON_parse_text (map requestJson array) response outcomes ->
  (fetchEach JSON_parse_text dispatcher array = Ok (Some (JArr outcomes))
   /\ List.length outcomes = List.length array)
  /\ (forall chunks chunks',
         joined chunks = joined chunks' ->
         readLoop JSON_parse_text chunks initial = readLoop JSON_parse_text chunks' initial)
  /\ (forall chunks result,
         readLoop JSON_parse_text chunks initial = Ok result ->
         exists text parsed,
           JSON_parse_text text = Ok parsed /\ array_of parsed = Ok result)
  /\ (forall chunks,
         (exists result, readLoop JSON_parse_text chunks initial = Ok result)
         \/ readLoop JSON_parse_text chunks initial
            = Throw "Stream ended without complete result")
  /\ (forall chunks progress partial,
         joined chunks
         = (unlines (flat_map updateEvent progress ++ ["event: result"])
              ++ "data: " ++ partial)%string ->
         Forall (fun p => no_newline p = true) progress ->
         no_newline partial = true ->
         readLoop JSON_parse_text chunks initial
         = Throw "Stream ended without complete result").
Proof.
  intros Hdispatch (Hok & chunks & progress & payload & Hbody & Hjoined & Hprogress
                    & Hpayload & Hparse & _ & Hlength).
  repeat match goal with |- _ /\ _ => split end.
  - unfold fetchEach. rewrite Hdispatch, Hok, Hbody. simpl.
    now apply (readLoop_stream chunks progress payload (JObj [("array", JArr outcomes)])).
  - now rewrite Hlength, length_map.
  - intros chunks1 chunks2 Heq. rewrite !readLoop_scan by reflexivity. now rewrite Heq.
  - intros chunks0 result Hrun. rewrite readLoop_scan in Hrun by reflexivity.
    destruct (scan JSON_parse_text _ _ _) as [a|] eqn:Hscan; [|discriminate].
    injection Hrun as ->. eapply scan_returns_parsed. exact Hscan.
  - intros chunks0. rewrite readLoop_scan by reflexivity.
    destruct (scan JSON_parse_text _ _ _) as [a|]; [left; now exists a | now right].
  - intros chunks0 progress0 partial. apply readLoop_truncated.
Qed.

End DispatchFacts.

Lemma example_answer :
  FetchEach.answersWith FetchEach.example_parse
    (map FetchEach.requestJson FetchEach.example_items)
    {| FetchEach.ok := true; FetchEach.text := EmptyString;
       FetchEach.body := Some FetchEach.example_chunks |}
    FetchEach.example_outcomes.
Proof.
  split; [reflexivity|].
  exists FetchEach.example_chunks, ["1/2"; "2/2"], FetchEach.example_payload.
  repeat split; try reflexivity. repeat constructor.
Qed.

Lemma fetchEach_returns_final_result_witness :
  FetchEach.fetchEach FetchEach.example_parse FetchEach.example_dispatcher
    FetchEach.example_items
  = Ok (Some (JArr FetchEach.example_outcomes)).
Proof.
  apply (proj1 (fetchEach_returns_final_result FetchEach.example_parse
                  FetchEach.example_dispatcher FetchEach.example_items _
                  FetchEach.example_outcomes eq_refl example_answer)).
Defined.

(* ================================================================== *)
(** * Further properties of the day service *)
(* ================================================================== *)

Section DayServiceMore.
Import DayService.

Lemma lower_ascii_idempotent c : lower_ascii (lower_ascii c) = lower_ascii c.
Proof.
  destruct c as [[] [] [] [] [] [] [] []]; reflexivity.
Qed.

Lemma toLowerCase_idempotent s : toLowerCase (toLowerCase s) = toLowerCase s.
Proof.
  induction s as [|c r IH]; simpl; [reflexivity|].
  now rewrite lower_ascii_idempotent, IH.
Qed.

(** X1. Whatever the document and the limit, every score [formatResponse]
    hands out lies between 1 and the number of entries it kept, and every
    key of the result is in lower case. *)
Theorem formatResponse_scores_positive data limit k v :
  get k (formatResponse data limit) = Some v ->
  1 <= v <= Z.of_nat (List.length (limitedEntries data limit))
  /\ toLowerCase k = k.
Proof.
  unfold formatResponse. intros Hget.
  apply forEach_from_origin in Hget as [Hget | (i & key & name & Hnth & Hk & Hv)].
  - discriminate.
  - assert (Hi : (i < List.length (limitedEntries data limit))%nat).
    { apply nth_error_Some. congruence. }
    split; [lia|]. subst k. apply toLowerCase_idempotent.
Qed.

Lemma formatResponse_scores_positive_witness :
  1 <= 2 <= Z.of_nat (List.length (limitedEntries example_document None))
  /\ toLowerCase "a/b" = "a/b".
Proof.
  apply (formatResponse_scores_positive example_document None "a/b" 2). reflexivity.
Defined.

Lemma ordered_nonindex (ks : list string) :
  Forall (fun k => arrayIndex k = None) ks -> ordered ks.
Proof.
  induction 1 as [|k r Hk Hr IH]; constructor; [|exact IH].
  eapply Forall_impl; [|exact Hr]. intros x Hx. unfold key_before.
  now rewrite Hk, Hx.
Qed.

Lemma forEach_from_names totalRepos (names : list string) : forall i (es : list (string * json)) result,
  map snd es = map JStr names ->
  NoDup (keys result ++ map toLowerCase names) ->
  Forall (fun n => arrayIndex (toLowerCase n) = None) names ->
  forEach_from totalRepos i es result
  = result ++ map (fun p => (toLowerCase (snd p),
                             Z.of_nat totalRepos - Z.of_nat (fst p)))
                  (combine (seq i (List.length names)) names).
Proof.
  induction names as [|n r IH]; intros i es result Hes Hnd Hidx.
  - destruct es; [|discriminate]. simpl. now rewrite app_nil_r.
  - destruct es as [|[key val] es']; [discriminate|].
    simpl in Hes. injection Hes as -> Hes'. inversion Hidx as [|? ? Hn Hr]; subst.
    cbn [forEach_from assign snd List.length seq combine map fst].
    assert (Hset : set (toLowerCase n) (Z.of_nat totalRepos - Z.of_nat i) result
                   = result ++ [(toLowerCase n, Z.of_nat totalRepos - Z.of_nat i)]).
    { apply set_last.
      - simpl in Hnd. apply NoDup_remove_2 in Hnd. intros Hin.
        apply Hnd, in_or_app. now left.
      - apply Forall_forall. intros x _. unfold key_before. rewrite Hn.
        now destruct (arrayIndex x). }
    rewrite Hset, (IH (S i) es' _ Hes'); [now rewrite <- app_assoc| |exact Hr].
    unfold keys. rewrite map_app. simpl. rewrite <- app_assoc. exact Hnd.
Qed.

(** X2. When the ranks of a document all hold repository names, distinct
    up to case and none of them an array index, [formatResponse] lists the
    repositories in rank order, best first, with scores [T], [T - 1], ...,
    [1]. *)
Theorem formatResponse_is_ranking data names :
  map snd (repoEntries data) = map JStr names ->
  NoDup (map toLowerCase names) ->
  Forall (fun n => arrayIndex (toLowerCase n) = None) names ->
  formatResponse data None = ranking names.
Proof.
  intros Hes Hnd Hidx. unfold formatResponse, limitedEntries. simpl.
  assert (Hlen : List.length (repoEntries data) = List.length names).
  { apply (f_equal (@List.length _)) in Hes. now rewrite !length_map in Hes. }
  rewrite (forEach_from_names _ names 0 (repoEntries data) [] Hes Hnd Hidx).
  unfold ranking. now rewrite Hlen.
Qed.

Lemma formatResponse_is_ranking_witness :
  formatResponse example_document None = ranking ["a/b"; "c/d"].
Proof.
  apply formatResponse_is_ranking.
  - reflexivity.
  - repeat constructor; simpl; intuition discriminate.
  - repeat constructor.
Defined.

End DayServiceMore.

Section DayCacheMore.
Import DayService.

Variable sortByValue : list (string * json) -> list (string * json).

Lemma get_kv_hit key (final : json) ttl (w : world) :
  kv_fails w Get key = false ->
  get key (kv w) = Some {| value := Serialized final; expirationTtl := ttl |} ->
  DayStorage.getCachedData key w = (Ok final, w).
Proof.
  intros Hget Hkv.
  unfold DayStorage.getCachedData, try_catch, bind, kv_get, lift, ret.
  now rewrite Hget, Hkv.
Qed.

Lemma formatResponse_empty limit : formatResponse (JObj []) limit = [].
Proof.
  unfold formatResponse, limitedEntries, repoEntries. simpl.
  destruct (limit_truthy limit) as [k|]; [|reflexivity].
  unfold slice0. destruct (k <? 0); now rewrite firstn_nil.
Qed.

Lemma getDailyStars_after_miss date limit limit' w :
  (forall v, fst (DayStorage.getCachedData ("v4-" ++ date) w) = Ok v -> truthy v = false) ->
  kv_fails w Get ("v4-" ++ date)%string = false ->
  kv_fails w Put ("v4-" ++ date)%string = false ->
  let repoData := upstream (net w (requests w) (dayUrl date)) in
  let final := if noData repoData then JObj []
               else JObj (fromEntries (sortByValue (ownEntries repoData))) in
  exists w1,
    getDailyStars sortByValue date limit w = (Ok (formatResponse final limit), w1)
    /\ requests w1 = requests w ++ [dayUrl date]
    /\ kv_fails w1 = kv_fails w
    /\ DayStorage.getCachedData ("v4-" ++ date) w1 = (Ok final, w1)
    /\ forall servers,
        getDailyStars sortByValue date limit' (with_net w1 servers)
        = (Ok (formatResponse final limit'), with_net w1 servers).
Proof.
  intros Hmiss Hget Hput repoData final.
  rewrite (getDailyStars_miss sortByValue date limit w Hmiss), Hput.
  fold repoData. fold final.
  assert (Hres : (if noData repoData then [] else formatResponse final limit)
                 = formatResponse final limit).
  { subst final. destruct (noData repoData); [|reflexivity].
    symmetry. apply formatResponse_empty. }
  rewrite Hres. eexists. split; [|split; [|split; [|split]]].
  - reflexivity.
  - reflexivity.
  - reflexivity.
  - eapply get_kv_hit; [exact Hget|]. simpl. apply get_set_same.
  - intros servers. apply getDailyStars_hit.
    + erewrite get_kv_hit; [reflexivity | exact Hget |]. simpl. apply get_set_same.
    + subst final. now destruct (noData repoData).
Qed.

(** X3. With a working store, [getDailyStars] is repeatable: the call
    returns, and a second call for the same date and limit returns the same
    scores without any request to the upstream source and without touching
    the store.  The first call makes at most one request. *)
Theorem getDailyStars_repeatable date limit w :
  kv_fails w Get ("v4-" ++ date)%string = false ->
  kv_fails w Put ("v4-" ++ date)%string = false ->
  exists result w1,
    getDailyStars sortByValue date limit w = (Ok result, w1)
    /\ getDailyStars sortByValue date limit w1 = (Ok result, w1)
    /\ (requests w1 = requests w \/ requests w1 = requests w ++ [dayUrl date]).
Proof.
  intros Hget Hput.
  destruct (getCachedData_read ("v4-" ++ date) w) as (v & Hrun & _).
  destruct (truthy v) eqn:Hv.
  - assert (Hhit : getDailyStars sortByValue date limit w
                   = (Ok (formatResponse v limit), w)).
    { apply getDailyStars_hit; [now rewrite Hrun | exact Hv]. }
    exists (formatResponse v limit), w. auto.
  - destruct (getDailyStars_after_miss date limit limit w) as (w1 & H1 & Hreq & _ & _ & H2);
      [|exact Hget|exact Hput|].
    + intros v' Hv'. rewrite Hrun in Hv'. simpl in Hv'. now injection Hv' as <-.
    + eexists _, w1. split; [exact H1|]. split; [|now right].
      specialize (H2 (net w1)). destruct w1. exact H2.
Qed.

(** X4. A day whose upstream request fails (or answers with an error
    status, an unparsable body or an empty document) is stored as the empty
    document: the call returns no scores after one request, and from then
    on every call for that date returns no scores without asking the
    upstream source again, whatever that source would now answer. *)
Theorem failed_day_is_remembered date limit limit' w servers :
  (forall v, fst (DayStorage.getCachedData ("v4-" ++ date) w) = Ok v -> truthy v = false) ->
  kv_fails w Get ("v4-" ++ date)%string = false ->
  kv_fails w Put ("v4-" ++ date)%string = false ->
  noData (upstream (net w (requests w) (dayUrl date))) = true ->
  exists w1,
    getDailyStars sortByValue date limit w = (Ok [], w1)
    /\ requests w1 = requests w ++ [dayUrl date]
    /\ get ("v4-" ++ date)%string (kv w1)
       = Some {| value := Serialized (JObj []); expirationTtl := Some 86400 |}
    /\ getDailyStars sortByValue date limit' (with_net w1 servers)
       = (Ok [], with_net w1 servers).
Proof.
  intros Hmiss Hget Hput Hno.
  pose proof (getDailyStars_miss sortByValue date limit w Hmiss) as Hfirst.
  cbv zeta in Hfirst. rewrite Hput, Hno in Hfirst.
  eexists. split; [exact Hfirst|]. split; [reflexivity|]. split.
  - simpl. apply get_set_same.
  - rewrite <- (formatResponse_empty limit'). apply getDailyStars_hit; [|reflexivity].
    erewrite get_kv_hit; [reflexivity | exact Hget |]. simpl. apply get_set_same.
Qed.

End DayCacheMore.

Lemma getDailyStars_repeatable_witness :
  exists result w1,
    DayService.getDailyStars (fun es => es) "2025-01-01" None example_upstream = (Ok result, w1)
    /\ DayService.getDailyStars (fun es => es) "2025-01-01" None w1 = (Ok result, w1)
    /\ (requests w1 = requests example_upstream
        \/ requests w1 = requests example_upstream ++ [dayUrl "2025-01-01"]).
Proof.
  apply (getDailyStars_repeatable (fun es => es) "2025-01-01" None example_upstream); reflexivity.
Defined.

Lemma failed_day_is_remembered_witness :
  exists w1,
    DayService.getDailyStars (fun es => es) "2025-01-01" None broken_upstream = (Ok [], w1)
    /\ requests w1 = requests broken_upstream ++ [dayUrl "2025-01-01"]
    /\ get "v4-2025-01-01" (kv w1)
       = Some {| value := Serialized (JObj []); expirationTtl := Some 86400 |}
    /\ DayService.getDailyStars (fun es => es) "2025-01-01" (Some 5)
         (with_net w1 (net example_upstream))
       = (Ok [], with_net w1 (net example_upstream)).
Proof.
  apply (failed_day_is_remembered (fun es => es) "2025-01-01" None (Some 5)
           broken_upstream (net example_upstream)); try reflexivity.
  intros v H. vm_compute in H. now injection H as <-.
Defined.

(* ================================================================== *)
(** * Further properties of the week and month windows *)
(* ================================================================== *)

Section WindowMore.
Import Window.

Lemma processUrl_run aggregatedData url w :
  processUrl aggregatedData url w
  = (Ok match dayEntries (net w (requests w) url) with
        | Some entries => fold_left addEntry entries aggregatedData
        | None => aggregatedData
        end, with_request w url).
Proof.
  unfold processUrl, try_catch, bind, fetch, lift, ret, dayEntries.
  destruct (net w (requests w) url) as [response|message]; simpl; [|reflexivity].
  destruct (World.ok response); simpl; [|reflexivity].
  destruct (JSON_parse (body response)) as [data|message]; simpl; [|reflexivity].
  now destruct (Object_entries data).
Qed.

Lemma keys_addEntry k aggregatedData e :
  In k (keys (addEntry aggregatedData e)) <-> In k (keys aggregatedData) \/ k = fst e.
Proof.
  unfold addEntry.
  pose proof (keys_set_perm (fst e)
                (or_zero (get (fst e) aggregatedData) + numericScore (snd e))
                aggregatedData) as Hp.
  split.
  - intros Hin. apply (Permutation_in _ Hp) in Hin.
    destruct (has (fst e) aggregatedData); [now left|].
    destruct Hin as [<-|Hin]; [now right | now left].
  - intros Hin. apply (Permutation_in _ (Permutation_sym Hp)).
    destruct (has (fst e) aggregatedData) eqn:Hhas.
    + destruct Hin as [Hin | ->]; [exact Hin | now apply has_true_iff].
    + destruct Hin as [Hin | ->]; [now right | now left].
Qed.

Lemma keys_addDay k entries : forall aggregatedData,
  In k (keys (fold_left addEntry entries aggregatedData))
  <-> In k (keys aggregatedData) \/ In k (keys entries).
Proof.
  induction entries as [|e r IH]; simpl; intros aggregatedData; [tauto|].
  rewrite IH, keys_addEntry. intuition congruence.
Qed.

Lemma forUrls_run urls : forall aggregatedData w,
  NoDup (keys aggregatedData) ->
  exists aggregatedData' w',
    forUrls urls aggregatedData w = (Ok aggregatedData', w')
    /\ NoDup (keys aggregatedData')
    /\ requests w' = requests w ++ urls
    /\ kv w' = kv w
    /\ forall k, In k (keys aggregatedData')
                 <-> In k (keys aggregatedData)
                     \/ exists answer entries,
                         In answer (answers w urls)
                         /\ dayEntries answer = Some entries
                         /\ In k (keys entries).
Proof.
  induction urls as [|url rest IH]; simpl; intros aggregatedData w Hnd.
  - exists aggregatedData, w. repeat split; auto.
    + now rewrite app_nil_r.
    + intros [H | (answer & entries & [] & _)]. exact H.
  - unfold bind. rewrite processUrl_run.
    set (agg1 := match dayEntries (net w (requests w) url) with
                 | Some entries => fold_left addEntry entries aggregatedData
                 | None => aggregatedData
                 end).
    assert (Hnd1 : NoDup (keys agg1)).
    { subst agg1. destruct (dayEntries (net w (requests w) url)); [|exact Hnd].
      now apply NoDup_addDay. }
    destruct (IH agg1 (with_request w url) Hnd1) as (agg2 & w2 & Hrun & Hnd2 & Hreq & Hkv & Hkeys).
    exists agg2, w2. split; [exact Hrun|]. split; [exact Hnd2|].
    split; [rewrite Hreq; simpl; now rewrite <- app_assoc|]. split; [exact Hkv|].
    intros k. rewrite Hkeys. subst agg1.
    destruct (dayEntries (net w (requests w) url)) as [entries|] eqn:Hday.
    + rewrite keys_addDay. split.
      * intros [[H|H]|(answer & es & Hin & Hd & Hk)]; [now left| |].
        -- right. exists (net w (requests w) url), entries. auto.
        -- right. exists answer, es. auto.
      * intros [H|(answer & es & [<-|Hin] & Hd & Hk)]; [now left; left| |].
        -- rewrite Hday in Hd. injection Hd as <-. now left; right.
        -- right. exists answer, es. auto.
    + split.
      * intros [H|(answer & es & Hin & Hd & Hk)]; [now left|].
        right. exists answer, es. auto.
      * intros [H|(answer & es & [<-|Hin] & Hd & Hk)]; [now left|congruence|].
        right. exists answer, es. auto.
Qed.

Lemma keys_fromEntries_sortDesc k aggregatedData :
  NoDup (keys aggregatedData) ->
  In k (keys (fromEntries (sortDesc aggregatedData))) <-> In k (keys aggregatedData).
Proof.
  intros Hnd.
  assert (Hnd' : NoDup (keys (sortDesc aggregatedData))).
  { eapply Permutation_NoDup; [|exact Hnd].
    apply Permutation_map, Permutation_sym, sortDesc_perm. }
  assert (Hp : Permutation (keys (fromEntries (sortDesc aggregatedData)))
                           (keys aggregatedData)).
  { apply Permutation_map. rewrite (fromEntries_perm _ Hnd'). apply sortDesc_perm. }
  split; intros H; [exact (Permutation_in _ Hp H)|].
  exact (Permutation_in _ (Permutation_sym Hp) H).
Qed.

Lemma aggregateLast_run dateString n w :
  exists aggregatedData w',
    aggregateLast dateString n w = (Ok (fromEntries (sortDesc aggregatedData)), w')
    /\ NoDup (keys aggregatedData)
    /\ requests w' = requests w ++ urlsOfLast dateString n
    /\ kv w' = kv w
    /\ forall k, In k (keys aggregatedData)
                 <-> exists answer entries,
                       In answer (answers w (urlsOfLast dateString n))
                       /\ dayEntries answer = Some entries
                       /\ In k (keys entries).
Proof.
  destruct (forUrls_run (urlsOfLast dateString n) [] w)
    as (agg & w' & Hrun & Hnd & Hreq & Hkv & Hkeys); [constructor|].
  exists agg, w'. unfold aggregateLast, bind, ret. rewrite Hrun.
  repeat split; auto.
  - intros H. apply Hkeys in H as [[]|H]. exact H.
  - intros H. apply Hkeys. now right.
Qed.

(** X5. The week and month services never raise, whatever the day
    endpoint answers: each failure is absorbed inside the loop.  They make
    exactly one request per day of the window, 7 and 30 of them, in order
    from today backwards, and leave the store untouched. *)
Theorem window_requests_every_day dateString w :
  (exists result w',
      getLastWeekData dateString w = (Ok result, w')
      /\ requests w' = requests w ++ urlsOfLast dateString 7
      /\ kv w' = kv w)
  /\ (exists result w',
         getLastMonthData dateString w = (Ok result, w')
         /\ requests w' = requests w ++ urlsOfLast dateString 30
         /\ kv w' = kv w)
  /\ List.length (urlsOfLast dateString 7) = 7%nat
  /\ List.length (urlsOfLast dateString 30) = 30%nat.
Proof.
  split; [|split; [|split; reflexivity]].
  - destruct (aggregateLast_run dateString 7 w) as (agg & w' & Hrun & _ & Hreq & Hkv & _).
    now exists (fromEntries (sortDesc agg)), w'.
  - destruct (aggregateLast_run dateString 30 w) as (agg & w' & Hrun & _ & Hreq & Hkv & _).
    now exists (fromEntries (sortDesc agg)), w'.
Qed.

(** X6. The repositories in the result of a window are exactly those
    that appear in the response of at least one day that was fetched and
    parsed: none is invented and none is dropped, whatever its score. *)
Theorem window_keys_are_union (dateString : nat -> string) n w result w' repo :
  aggregateLast dateString n w = (Ok result, w') ->
  In repo (keys result)
  <-> exists answer entries,
        In answer (answers w (urlsOfLast dateString n))
        /\ dayEntries answer = Some entries
        /\ In repo (keys entries).
Proof.
  intros Hrun.
  destruct (aggregateLast_run dateString n w) as (agg & w1 & Hrun1 & Hnd & _ & _ & Hkeys).
  rewrite Hrun1 in Hrun. injection Hrun as <- _.
  now rewrite (keys_fromEntries_sortDesc repo agg Hnd), Hkeys.
Qed.

Lemma window_keys_are_union_witness :
  In "a/b" (keys (fromEntries [("a/b", 12); ("c/d", 6)]))
  <-> exists answer entries,
        In answer (answers example_network (urlsOfLast example_dates 7))
        /\ dayEntries answer = Some entries
        /\ In "a/b" (keys entries).
Proof.
  apply (window_keys_are_union example_dates 7 example_network _
           (snd (aggregateLast example_dates 7 example_network))).
  reflexivity.
Defined.

Lemma insertDesc_descending e sorted :
  descending sorted -> descending (insertDesc e sorted).
Proof.
  induction 1 as [|x r Hall Hdesc IH]; simpl.
  - repeat constructor.
  - destruct (Z.ltb_spec (snd e) (snd x)).
    + constructor; [|exact IH].
      apply Forall_forall. intros y Hy.
      apply (Permutation_in _ (insertDesc_perm e r)) in Hy as [<-|Hy]; [lia|].
      now apply (proj1 (Forall_forall _ _) Hall).
    + constructor; [|now constructor].
      constructor; [lia|]. eapply Forall_impl; [|exact Hall]. simpl. intros; lia.
Qed.

Lemma sortDesc_descending es : descending (sortDesc es).
Proof.
  induction es as [|e r IH]; simpl; [constructor | now apply insertDesc_descending].
Qed.

(** X7. When no repository name in the days' responses is an array
    index (a name with a slash never is), the window's result lists the
    repositories by descending total: the order given by the sort survives
    the rebuilding of the object. *)
Theorem window_is_descending (dateString : nat -> string) n w result w' :
  (forall answer entries,
      In answer (answers w (urlsOfLast dateString n)) ->
      dayEntries answer = Some entries ->
      Forall (fun repo => arrayIndex repo = None) (keys entries)) ->
  aggregateLast dateString n w = (Ok result, w') ->
  descending result.
Proof.
  intros Hnames Hrun.
  destruct (aggregateLast_run dateString n w) as (agg & w1 & Hrun1 & Hnd & _ & _ & Hkeys).
  rewrite Hrun1 in Hrun. injection Hrun as <- _.
  assert (Hp : Permutation (keys (sortDesc agg)) (keys agg)).
  { apply Permutation_map, sortDesc_perm. }
  rewrite fromEntries_canonical; [apply sortDesc_descending|].
  split.
  - eapply Permutation_NoDup; [apply Permutation_sym; exact Hp | exact Hnd].
  - apply ordered_nonindex, Forall_forall. intros k Hk.
    apply (Permutation_in _ Hp), Hkeys in Hk as (answer & entries & Hin & Hday & Hk).
    exact (proj1 (Forall_forall _ _) (Hnames answer entries Hin Hday) k Hk).
Qed.

Lemma window_is_descending_witness :
  descending [("a/b", 12); ("c/d", 6)].
Proof.
  apply (window_is_descending example_dates 7 example_network _
           (snd (aggregateLast example_dates 7 example_network))).
  - intros answer entries Hin Hday. simpl in Hin.
    repeat (destruct Hin as [<-|Hin]; [simpl in Hday; try discriminate;
                                       injection Hday as <-; repeat constructor|]).
    contradiction.
  - reflexivity.
Defined.

End WindowMore.

(* ================================================================== *)
(** * Further properties of the stores *)
(* ================================================================== *)

Section StoreMore.
Import RepositoryEnricher.

Lemma get_removeKey_same {V : Type} k (o : obj V) : get k (removeKey k o) = None.
Proof.
  unfold removeKey. induction o as [|[k' v] r IH]; simpl; [reflexivity|].
  destruct (String.eqb_spec k' k) as [->|Hne]; simpl; [exact IH|].
  destruct (String.eqb_spec k' k); [contradiction | exact IH].
Qed.

Lemma get_removeKey_other {V : Type} k k' (o : obj V) :
  k' <> k -> get k' (removeKey k o) = get k' o.
Proof.
  intros Hne. unfold removeKey. induction o as [|[k0 v] r IH]; simpl; [reflexivity|].
  destruct (String.eqb_spec k0 k) as [->|Hne0]; simpl.
  - destruct (String.eqb_spec k k'); [congruence | exact IH].
  - now rewrite IH.
Qed.

(** X8. With a working store, what [cacheData] writes under a key is what
    [getCachedData] reads back from it, with the given time to live
    recorded; after [deleteCachedData] the key reads as a miss; and neither
    operation changes what is stored under any other key or makes a
    request. *)
Theorem day_storage_round_trip key data ttl w :
  kv_fails w Get key = false ->
  (kv_fails w Put key = false ->
   exists w1,
     DayStorage.cacheData key data ttl w = (Ok tt, w1)
     /\ DayStorage.getCachedData key w1 = (Ok data, w1)
     /\ get key (kv w1) = Some {| value := Serialized data; expirationTtl := Some ttl |}
     /\ (forall key', key' <> key -> get key' (kv w1) = get key' (kv w))
     /\ requests w1 = requests w)
  /\ (kv_fails w Delete key = false ->
      exists w2,
        DayStorage.deleteCachedData key w = (Ok tt, w2)
        /\ DayStorage.getCachedData key w2 = (Ok JNull, w2)
        /\ (forall key', key' <> key -> get key' (kv w2) = get key' (kv w))
        /\ requests w2 = requests w).
Proof.
  intros Hget. split.
  - intros Hput. eexists. split; [|split; [|split; [|split]]].
    + unfold DayStorage.cacheData, try_catch, kv_put. rewrite Hput. reflexivity.
    + unfold DayStorage.getCachedData, try_catch, bind, kv_get, lift, ret. simpl.
      now rewrite Hget, get_set_same.
    + simpl. apply get_set_same.
    + intros key' Hne. simpl. now apply get_set_other.
    + reflexivity.
  - intros Hdel. eexists. split; [|split; [|split]].
    + unfold DayStorage.deleteCachedData, try_catch, kv_delete. rewrite Hdel. reflexivity.
    + unfold DayStorage.getCachedData, try_catch, bind, kv_get, lift, ret. simpl.
      now rewrite Hget, get_removeKey_same.
    + intros key' Hne. simpl. now apply get_removeKey_other.
    + reflexivity.
Qed.

Lemma day_storage_round_trip_witness :
  exists w1,
    DayStorage.cacheData "v4-2025-01-01" example_document 86400 example_upstream
    = (Ok tt, w1)
    /\ DayStorage.getCachedData "v4-2025-01-01" w1 = (Ok example_document, w1).
Proof.
  destruct (day_storage_round_trip "v4-2025-01-01" example_document 86400
              example_upstream eq_refl) as [Hput _].
  destruct (Hput eq_refl) as (w1 & Hwrite & Hread & _).
  now exists w1.
Defined.

Lemma enrichInOrder_scores cacheConfig entries : forall enrichedData w,
  NoDup (keys entries) ->
  exists enrichedData' w',
    enrichInOrder entries cacheConfig enrichedData w = (Ok enrichedData', w')
    /\ (forall repo score, In (repo, score) entries ->
          exists entry, get repo enrichedData' = Some entry
                        /\ get "score" entry = Some score)
    /\ (forall repo, ~ In repo (keys entries) ->
                     get repo enrichedData' = get repo enrichedData).
Proof.
  induction entries as [|[repoFullName score] rest IH]; intros enrichedData w Hnd.
  - exists enrichedData, w. simpl. split; [reflexivity|]. split.
    + intros repo score [].
    + reflexivity.
  - inversion Hnd as [|? ? Hnot Hnd']; subst.
    assert (Hentry : exists entry w1,
               getRepositoryInfo repoFullName score cacheConfig w = (Ok entry, w1)
               /\ get "score" entry = Some score).
    { unfold getRepositoryInfo, try_catch.
      destruct (getFromCache_read (cacheKeyOf cacheConfig repoFullName) w) as (v & Hread & _).
      unfold bind at 1. rewrite Hread. destruct (truthy v).
      - unfold ret. eexists _, w. split; [reflexivity | apply get_set_same].
      - unfold bind at 1. rewrite fetchRepositoryInfo_spec.
        destruct (delivered _) as [repoInfo|message].
        + match goal with
          | |- context [if ?c then _ else _] => destruct c
          end.
          * destruct (storeInCache_write (cacheKeyOf cacheConfig repoFullName)
                        [("score", score); ("info", repoInfo)] (ttl cacheConfig)
                        (with_request w (detailsUrl repoFullName))) as (w' & Hrun & _).
            unfold bind. rewrite Hrun. unfold ret. now eexists _, w'.
          * unfold bind, ret. now eexists _, _.
        + match goal with
          | |- context [if ?c then _ else _] => destruct c
          end.
          * destruct (storeInCache_write (cacheKeyOf cacheConfig repoFullName)
                        (failure score message) (ttl cacheConfig)
                        (with_request w (detailsUrl repoFullName))) as (w' & Hrun & _).
            unfold bind. rewrite Hrun. unfold ret. now eexists _, w'.
          * unfold bind, ret. now eexists _, _. }
    destruct Hentry as (entry & w1 & Hrun & Hscore).
    destruct (IH (set repoFullName entry enrichedData) w1 Hnd')
      as (result & w2 & Hrun2 & Hin & Hout).
    exists result, w2. simpl. unfold bind. rewrite Hrun. split; [exact Hrun2|]. split.
    + intros repo score' [[= <- <-]|Hrest].
      * exists entry. split; [|exact Hscore].
        rewrite (Hout repoFullName Hnot). apply get_set_same.
      * now apply Hin.
    + intros repo Hnotin. rewrite Hout by tauto.
      apply get_set_other. intros ->. apply Hnotin. now left.
Qed.

(** X9. [enrichRepositories] never raises, and every repository of the
    input is in its result with the score the input gives it, whether its
    entry came from the cache, from a fetch or from a failure. *)
Theorem enrichRepositories_keeps_scores (repoData : obj json) cacheConfig w :
  NoDup (keys repoData) ->
  exists enrichedData w',
    enrichRepositories repoData cacheConfig w = (Ok enrichedData, w')
    /\ forall repo score,
        get repo repoData = Some score ->
        exists entry, get repo enrichedData = Some entry
                      /\ get "score" entry = Some score.
Proof.
  intros Hnd. unfold enrichRepositories.
  match goal with
  | |- context [enrichInOrder _ ?c _] =>
      destruct (enrichInOrder_scores c repoData [] w Hnd) as (result & w' & Hrun & Hin & _)
  end.
  exists result, w'. split; [exact Hrun|].
  intros repo score Hget. apply Hin. now apply get_Some_In.
Qed.

Lemma enrichRepositories_keeps_scores_witness :
  exists enrichedData w',
    enrichRepositories [("a/b", JNum 9); ("c/d", JNum 4)] (Some day_config) warm_cache
    = (Ok enrichedData, w')
    /\ forall repo score,
        get repo [("a/b", JNum 9); ("c/d", JNum 4)] = Some score ->
        exists entry, get repo enrichedData = Some entry
                      /\ get "score" entry = Some score.
Proof.
  apply (enrichRepositories_keeps_scores [("a/b", JNum 9); ("c/d", JNum 4)]
           (Some day_config) warm_cache).
  repeat constructor; simpl; intuition discriminate.
Defined.

(** X10. A repository whose metadata was fetched successfully is served
    from the cache afterwards: with a working store, the call after the
    miss returns the same [info] under the score of that call, without any
    request, whatever the metadata service would now answer. *)
Theorem fetched_info_is_served_from_cache
    repoFullName score score' cacheConfig w repoInfo servers :
  misses (cacheKeyOf cacheConfig repoFullName) w ->
  kv_fails w Get (cacheKeyOf cacheConfig repoFullName) = false ->
  kv_fails w Put (cacheKeyOf cacheConfig repoFullName) = false ->
  delivered (net w (requests w) (detailsUrl repoFullName)) = Ok repoInfo ->
  repoInfo <> JNull ->
  exists w1,
    getRepositoryInfo repoFullName score cacheConfig w
    = (Ok [("score", score); ("info", repoInfo)], w1)
    /\ requests w1 = requests w ++ [detailsUrl repoFullName]
    /\ getRepositoryInfo repoFullName score' cacheConfig (with_net w1 servers)
       = (Ok [("score", score'); ("info", repoInfo)], with_net w1 servers).
Proof.
  intros Hmiss Hget Hput Hdel Hnull.
  destruct (getRepositoryInfo_miss repoFullName score cacheConfig w Hmiss)
    as (w1 & Hrun & Hreq & Hfails & _ & Hstore).
  rewrite Hdel in Hrun, Hstore.
  exists w1. split; [exact Hrun|]. split; [exact Hreq|].
  assert (Hkv : kv w1 = set (cacheKeyOf cacheConfig repoFullName)
                            {| value := Serialized (JObj [("score", score); ("info", repoInfo)]);
                               expirationTtl := Some (ttl cacheConfig) |} (kv w)).
  { destruct repoInfo; try (now apply (proj2 Hstore)). contradiction. }
  rewrite (getRepositoryInfo_hit repoFullName score' cacheConfig (with_net w1 servers)
             (JObj [("score", score); ("info", repoInfo)]) (Some (ttl cacheConfig))).
  - reflexivity.
  - simpl. now rewrite Hfails.
  - simpl. rewrite Hkv. apply get_set_same.
  - reflexivity.
Qed.

Lemma fetched_info_is_served_from_cache_witness :
  exists w1,
    getRepositoryInfo "a/b" (JNum 2) day_config metadata_service
    = (Ok [("score", JNum 2); ("info", JObj [("lastFetched", JNum 1)])], w1)
    /\ requests w1 = requests metadata_service ++ [detailsUrl "a/b"]
    /\ getRepositoryInfo "a/b" (JNum 5) day_config (with_net w1 (net unreachable_service))
       = (Ok [("score", JNum 5); ("info", JObj [("lastFetched", JNum 1)])],
          with_net w1 (net unreachable_service)).
Proof.
  apply (fetched_info_is_served_from_cache "a/b" (JNum 2) (JNum 5) day_config
           metadata_service (JObj [("lastFetched", JNum 1)]) (net unreachable_service));
    try reflexivity.
  - intros v H. vm_compute in H. now injection H as <-.
  - discriminate.
Defined.

(** X11. The cache key of a repository's metadata determines the time
    frame and the repository: an entry stored for one time frame or one
    repository is never read for another. *)
Theorem cacheKeyOf_injective cacheConfig cacheConfig' repoFullName repoFullName' :
  cacheKeyOf cacheConfig repoFullName = cacheKeyOf cacheConfig' repoFullName' ->
  timeframe_of cacheConfig = timeframe_of cacheConfig'
  /\ repoFullName = repoFullName'.
Proof.
  unfold cacheKeyOf.
  destruct (timeframe_of cacheConfig), (timeframe_of cacheConfig'); simpl;
    intros H; injection H as H; try discriminate; now split.
Qed.

Lemma cacheKeyOf_injective_witness :
  timeframe_of day_config = timeframe_of day_config /\ "a/b" = "a/b".
Proof.
  apply (cacheKeyOf_injective day_config day_config "a/b" "a/b"). reflexivity.
Defined.

End StoreMore.

(* ================================================================== *)
(** * Further properties of the post-processing *)
(* ================================================================== *)

Section PostProcessingMore.
Import RepositoryEnricher Main.

Lemma applyLimit_canonical limit (filteredData : obj (obj json)) :
  canonical filteredData ->
  applyLimit limit filteredData
  = match limit with
    | Some K => if 0 <? K then firstn (Z.to_nat K) filteredData else filteredData
    | None => filteredData
    end.
Proof.
  intros Hc. unfold applyLimit. destruct limit as [K|]; [|reflexivity].
  destruct (Z.ltb_spec 0 K).
  - destruct (Z.eqb_spec K 0); [lia|]. simpl.
    rewrite fromEntries_canonical by now apply canonical_slice0.
    unfold slice0. destruct (Z.ltb_spec K 0); [lia | reflexivity].
  - now rewrite andb_false_r.
Qed.

Lemma In_finalData includeErrors limit (enrichedData : obj (obj json)) e :
  canonical enrichedData ->
  In e (finalData includeErrors limit enrichedData) -> In e enrichedData.
Proof.
  intros Hc Hin. unfold finalData in Hin.
  assert (Hf : canonical (filterErrors includeErrors enrichedData)
               /\ forall x, In x (filterErrors includeErrors enrichedData)
                            -> In x enrichedData).
  { destruct includeErrors; [now split|].
    rewrite (filterErrors_canonical _ Hc). split; [now apply canonical_filter|].
    intros x Hx. now apply filter_In in Hx. }
  destruct Hf as [Hcf Hsub]. rewrite (applyLimit_canonical _ _ Hcf) in Hin.
  apply Hsub. destruct limit as [K|]; [destruct (0 <? K)|]; try exact Hin.
  eapply In_firstn; exact Hin.
Qed.

(** X12. On an enriched map in enumeration order, the final data is a
    selection of its entries: every entry of the result is an entry of the
    input, unchanged, and a positive limit bounds their number.  With
    [include_errors] the failed entries stay and count towards the limit:
    the result is the input, cut to its first [K] entries for a positive
    limit [K].  A limit of zero or below is no limit. *)
Theorem finalData_is_selection includeErrors limit (enrichedData : obj (obj json)) :
  canonical enrichedData ->
  (forall repo entry,
      get repo (finalData includeErrors limit enrichedData) = Some entry ->
      get repo enrichedData = Some entry)
  /\ (forall K, limit = Some K -> 0 < K ->
        (List.length (finalData includeErrors limit enrichedData) <= Z.to_nat K)%nat
        /\ finalData true limit enrichedData = firstn (Z.to_nat K) enrichedData)
  /\ finalData true None enrichedData = enrichedData
  /\ (forall K, limit = Some K -> K <= 0 ->
        finalData includeErrors limit enrichedData
        = finalData includeErrors None enrichedData).
Proof.
  intros Hc. split; [|split; [|split]].
  - intros repo entry Hget. apply (In_get_NoDup _ _ _ (proj1 Hc)).
    apply (In_finalData includeErrors limit _ _ Hc). now apply get_Some_In.
  - intros K -> HK. split.
    + unfold finalData.
      assert (Hcf : canonical (filterErrors includeErrors enrichedData)).
      { destruct includeErrors; [exact Hc|].
        rewrite (filterErrors_canonical _ Hc). now apply canonical_filter. }
      rewrite (applyLimit_canonical _ _ Hcf).
      destruct (Z.ltb_spec 0 K); [|lia]. apply firstn_le_length.
    + unfold finalData. simpl filterErrors. rewrite (applyLimit_canonical _ _ Hc).
      destruct (Z.ltb_spec 0 K); [reflexivity | lia].
  - reflexivity.
  - intros K -> HK. unfold finalData, applyLimit.
    destruct (Z.ltb_spec 0 K); [lia|]. now rewrite andb_false_r.
Qed.

Lemma finalData_is_selection_witness :
  finalData true (Some 2) enriched_example = firstn 2 enriched_example
  /\ get "c/d" (finalData true (Some 2) enriched_example)
     = Some (failure (JNum 2) "Failed to fetch repository info: 404 Not Found").
Proof.
  destruct (finalData_is_selection true (Some 2) enriched_example
              enriched_example_canonical) as (_ & Hlimit & _).
  destruct (Hlimit 2 eq_refl ltac:(lia)) as [_ Hcut].
  split; [exact Hcut|]. rewrite Hcut. reflexivity.
Defined.

Lemma set_set_same {V : Type} k (v : V) o : set k v (set k v o) = set k v o.
Proof.
  assert (Hhas : has k (set k v o) = true).
  { apply has_true_iff. destruct (in_dec string_dec k (keys (set k v o))) as [Hin|Hout];
      [exact Hin|]. apply get_None_iff in Hout. now rewrite get_set_same in Hout. }
  unfold set at 1. rewrite Hhas.
  assert (Hupd : forall o' : obj V, get k o' = Some v -> update k v o' = o').
  { induction o' as [|[k' v'] r IH]; simpl; [reflexivity|].
    destruct (String.eqb_spec k' k) as [->|Hne].
    - now intros [= ->].
    - intros H. now rewrite IH. }
  apply Hupd, get_set_same.
Qed.

(** X13. Refreshing the scores of a reused response neither adds nor
    removes a repository and keeps their order: a repository that is new
    in the current data stays absent, and one that is gone from the current
    data keeps its entry as stored.  Refreshing twice is refreshing once. *)
Theorem refreshScores_keeps_repositories (data : obj json)
    (enrichedData : obj (obj json)) :
  keys (refreshScores data enrichedData) = keys enrichedData
  /\ (forall repo, get repo data = None ->
                   get repo (refreshScores data enrichedData) = get repo enrichedData)
  /\ refreshScores data (refreshScores data enrichedData)
     = refreshScores data enrichedData.
Proof.
  split; [|split].
  - unfold refreshScores, keys. rewrite map_map. apply map_ext.
    intros e. now destruct (get (fst e) data).
  - intros repo Hnone. rewrite get_refreshScores.
    destruct (get repo enrichedData); [now rewrite Hnone | reflexivity].
  - unfold refreshScores. rewrite map_map. apply map_ext. intros e.
    destruct (get (fst e) data) as [score|] eqn:E; simpl; rewrite E; [|reflexivity].
    now rewrite set_set_same.
Qed.

End PostProcessingMore.

Section RefactorLimitMore.
Import DayService DayServiceRefactor.

(** X14. In the day service of the refactoring, a positive limit [K]
    keeps the first [K] entries of the document, with their values, and
    all of them when there are fewer; limiting twice is limiting by the
    smaller limit; and a negative limit [-k] drops the last [k] entries. *)
Theorem applyLimit_is_prefix (o : obj json) K K' :
  canonical o -> 0 < K -> 0 < K' ->
  applyLimit (JObj o) (Some K) = JObj (firstn (Z.to_nat K) o)
  /\ (Z.of_nat (List.length o) <= K -> applyLimit (JObj o) (Some K) = JObj o)
  /\ applyLimit (applyLimit (JObj o) (Some K)) (Some K')
     = applyLimit (JObj o) (Some (Z.min K K'))
  /\ applyLimit (JObj o) (Some (- K))
     = JObj (firstn (List.length o - Z.to_nat K) o).
Proof.
  intros Hc HK HK'.
  assert (Hpre : forall (o' : obj json) k,
             canonical o' -> 0 < k ->
             applyLimit (JObj o') (Some k) = JObj (firstn (Z.to_nat k) o')).
  { intros o' k Hc' Hk. unfold applyLimit, limit_truthy.
    destruct (Z.eqb_spec k 0); [lia|]. simpl ownEntries.
    rewrite fromEntries_canonical by now apply canonical_slice0.
    unfold slice0. destruct (Z.ltb_spec k 0); [lia | reflexivity]. }
  split; [|split; [|split]].
  - now apply Hpre.
  - intros Hlen. rewrite (Hpre o K Hc HK). f_equal. apply firstn_all2. lia.
  - rewrite (Hpre o K Hc HK), (Hpre _ K' (canonical_firstn _ _ Hc) HK').
    rewrite (Hpre o (Z.min K K') Hc) by lia.
    rewrite firstn_firstn. do 2 f_equal. lia.
  - unfold applyLimit, limit_truthy. destruct (Z.eqb_spec (- K) 0); [lia|].
    simpl ownEntries. rewrite fromEntries_canonical by now apply canonical_slice0.
    unfold slice0. destruct (Z.ltb_spec (- K) 0); [|lia]. do 2 f_equal. lia.
Qed.

Lemma applyLimit_is_prefix_witness :
  applyLimit example_document (Some 2)
  = JObj [("0", JStr "a/b"); ("1", JStr "c/d")]
  /\ applyLimit example_document (Some (- 2)) = JObj [("0", JStr "a/b")].
Proof.
  destruct (applyLimit_is_prefix
              [("0", JStr "a/b"); ("1", JStr "c/d"); ("date", JStr "2025-01-01")] 2 1)
    as (Hcut & _ & _ & Hneg); try lia.
  - split.
    + repeat constructor; simpl; intuition discriminate.
    + repeat constructor; vm_compute; try exact I; reflexivity.
  - split; [exact Hcut | exact Hneg].
Defined.

End RefactorLimitMore.

(* ================================================================== *)
(** * Further properties of the streaming client *)
(* ================================================================== *)

Section ClientMore.
Import FetchEach.

Variable JSON_parse_text : string -> res json.

Lemma scan_collecting_needs_data lines array : forall collected,
  scan JSON_parse_text lines true collected = inl array ->
  exists dataLine, In dataLine lines /\ startsWith "data: " dataLine = true.
Proof.
  induction lines as [|line rest IH]; simpl; intros collected Hscan; [discriminate|].
  destruct (startsWith "event: " line).
  - destruct (trimmed (slice 7 line) =? "result")%string;
      destruct (IH _ Hscan) as (d & Hin & Hd); exists d; auto.
  - destruct (startsWith "data: " line) eqn:Hdata.
    + exists line. auto.
    + destruct (IH _ Hscan) as (d & Hin & Hd). exists d. auto.
Qed.

Lemma scan_needs_result_event lines array : forall collected,
  scan JSON_parse_text lines false collected = inl array ->
  exists before line after,
    lines = before ++ line :: after
    /\ isResultEvent line = true
    /\ exists dataLine, In dataLine after /\ startsWith "data: " dataLine = true.
Proof.
  induction lines as [|line rest IH]; simpl; intros collected Hscan; [discriminate|].
  destruct (startsWith "event: " line) eqn:Hevent.
  - destruct (trimmed (slice 7 line) =? "result")%string eqn:Hresult.
    + exists [], line, rest. split; [reflexivity|]. split.
      * unfold isResultEvent. now rewrite Hevent, Hresult.
      * eapply scan_collecting_needs_data. exact Hscan.
    + destruct (IH _ Hscan) as (before & l & after & -> & Hl & Hdata).
      now exists (line :: before), l, after.
  - destruct (IH _ Hscan) as (before & l & after & -> & Hl & Hdata).
    now exists (line :: before), l, after.
Qed.

(** X15. The client returns a result only for a stream in which a
    complete [event: result] line is followed by a complete [data: ] line:
    [data: ] lines that come before any such event, or a stream without
    one, never produce a result, and the call raises when the stream
    ends. *)
Theorem result_needs_result_event chunks :
  (forall array,
      readLoop JSON_parse_text chunks initial = Ok array ->
      exists before line after,
        removelast (split (joined chunks)) = before ++ line :: after
        /\ isResultEvent line = true
        /\ exists dataLine, In dataLine after /\ startsWith "data: " dataLine = true)
  /\ (Forall (fun line => isResultEvent line = false)
             (removelast (split (joined chunks))) ->
      readLoop JSON_parse_text chunks initial
      = Throw "Stream ended without complete result").
Proof.
  assert (Hrun : readLoop JSON_parse_text chunks initial
                 = finish (scan JSON_parse_text (removelast (split (joined chunks)))
                                false EmptyString)).
  { now rewrite readLoop_scan by reflexivity. }
  rewrite Hrun. split.
  - intros array Hok.
    destruct (scan JSON_parse_text _ false EmptyString) as [a|] eqn:Hscan; [|discriminate].
    eapply scan_needs_result_event. exact Hscan.
  - intros Hnone.
    destruct (scan JSON_parse_text _ false EmptyString) as [a|] eqn:Hscan; [|reflexivity].
    apply scan_needs_result_event in Hscan as (before & line & after & Heq & Hline & _).
    rewrite Heq in Hnone. apply Forall_app in Hnone as [_ Hnone].
    inversion Hnone; congruence.
Qed.

Lemma split_unlines_then lines tail :
  Forall (fun l => no_newline l = true) lines ->
  split (unlines lines ++ tail) = lines ++ split tail.
Proof.
  induction 1 as [|l r Hl Hr IH]; simpl; [reflexivity|].
  rewrite string_app_assoc.
  change (String newline (unlines r) ++ tail)%string
    with (String newline (unlines r ++ tail)).
  now rewrite (split_line l _ Hl), IH.
Qed.

Lemma scan_without_result_event lines : forall collected,
  Forall (fun line => isResultEvent line = false) lines ->
  scan JSON_parse_text lines false collected = inr (false, collected).
Proof.
  induction lines as [|line rest IH]; simpl; intros collected Hall; [reflexivity|].
  inversion Hall as [|? ? Hline Hrest]; subst. unfold isResultEvent in Hline.
  destruct (startsWith "event: " line); simpl in Hline.
  - rewrite Hline. now apply IH.
  - now apply IH.
Qed.

Lemma scan_pieces later : forall pieces collected parsed array,
  pieces <> [] ->
  (forall k text, (0 < k < List.length pieces)%nat ->
                  JSON_parse_text (collected ++ joined (firstn k pieces)) <> Ok text) ->
  JSON_parse_text (collected ++ joined pieces) = Ok parsed ->
  array_of parsed = Ok array ->
  scan JSON_parse_text (map (fun piece => ("data: " ++ piece)%string) pieces ++ later)
       true collected
  = inl array.
Proof.
  induction pieces as [|piece rest IH]; intros collected parsed array Hne Hpartial Hparse Harray;
    [contradiction|].
  cbn [map app]. cbn [scan].
  replace (startsWith "event: " ("data: " ++ piece)) with false by reflexivity.
  replace (startsWith "data: " ("data: " ++ piece)) with true by reflexivity.
  cbn [andb]. change (slice 6 ("data: " ++ piece)) with piece.
  destruct rest as [|piece' rest'].
  - simpl in Hparse. rewrite string_app_nil_r in Hparse. now rewrite Hparse, Harray.
  - destruct (JSON_parse_text (collected ++ piece)) as [text|message] eqn:Hfirst.
    + exfalso. apply (Hpartial 1%nat text); [simpl; lia|].
      simpl. now rewrite string_app_nil_r.
    + apply (IH (collected ++ piece)%string parsed array); [discriminate| |
        now rewrite string_app_assoc | exact Harray].
      intros k text Hk. rewrite string_app_assoc.
      apply (Hpartial (S k) text). simpl in *. lia.
Qed.

(** X16. A result payload that the server spreads over several [data: ]
    lines after the [event: result] line is put together again: when no
    proper prefix of the pieces parses and the whole does, the client
    returns the array of the whole payload, wherever the stream was cut
    into chunks and whatever follows. *)
Theorem split_payload_is_reassembled chunks before pieces tail parsed array :
  joined chunks
  = (unlines (before ++ "event: result"
                     :: map (fun piece => ("data: " ++ piece)%string) pieces)
       ++ tail)%string ->
  Forall (fun line => no_newline line = true) before ->
  Forall (fun line => isResultEvent line = false) before ->
  Forall (fun piece => no_newline piece = true) pieces ->
  pieces <> [] ->
  (forall k text, (0 < k < List.length pieces)%nat ->
                  JSON_parse_text (joined (firstn k pieces)) <> Ok text) ->
  JSON_parse_text (joined pieces) = Ok parsed ->
  array_of parsed = Ok array ->
  readLoop JSON_parse_text chunks initial = Ok array.
Proof.
  intros Hjoined Hbefore Hnone Hpieces Hne Hpartial Hparse Harray.
  rewrite readLoop_scan by reflexivity.
  change (buffer initial ++ joined chunks)%string with (joined chunks).
  rewrite Hjoined, split_unlines_then.
  - rewrite removelast_app by apply split_not_nil.
    rewrite <- app_assoc, scan_app.
    simpl collectingResult. simpl resultBuffer.
    rewrite (scan_without_result_event before _ Hnone).
    cbn [app]. cbn [scan].
    replace (startsWith "event: " "event: result") with true by reflexivity.
    replace (trimmed (slice 7 "event: result") =? "result")%string with true by reflexivity.
    now rewrite (scan_pieces _ pieces EmptyString parsed array Hne Hpartial Hparse Harray).
  - apply Forall_app. split; [exact Hbefore|]. constructor; [reflexivity|].
    apply Forall_map. eapply Forall_impl; [|exact Hpieces]. now intros piece.
Qed.

Lemma forLines_updates first others : forall todo st,
  collectingResult st = false ->
  forLines JSON_parse_text (updateLines first ++ others) (flat_map updateLines todo) st
  = Continue {| buffer := buffer st; resultBuffer := resultBuffer st;
                collectingResult := false;
                logged := logged st ++ repeat first (List.length todo) |}.
Proof.
  induction todo as [|progress rest IH]; intros st Hcollecting.
  - simpl. rewrite app_nil_r. destruct st. simpl in Hcollecting. now subst.
  - change (flat_map updateLines (progress :: rest))
      with ("event: update" :: ("data: " ++ progress)%string :: EmptyString
              :: flat_map updateLines rest).
    assert (Hindex : indexOf "event: update" (updateLines first ++ others) = Some 0%nat)
      by reflexivity.
    assert (Hnext : nth_error (updateLines first ++ others) 1
                    = Some ("data: " ++ first)%string) by reflexivity.
    set (lines := updateLines first ++ others) in *.
    cbn [forLines]. unfold onLine at 1.
    replace (startsWith "event: " "event: update") with true by reflexivity.
    replace (trimmed (slice 7 "event: update") =? "result")%string with false by reflexivity.
    replace (trimmed (slice 7 "event: update") =? "update")%string with true by reflexivity.
    rewrite Hindex, Hnext.
    replace (startsWith "data: " ("data: " ++ first)) with true by reflexivity.
    change (slice 6 ("data: " ++ first)) with first.
    rewrite collect_event by reflexivity.
    unfold onLine at 1.
    replace (startsWith "event: " ("data: " ++ progress)) with false by reflexivity.
    unfold collect at 1. cbn [collectingResult]. rewrite Hcollecting. cbn [andb].
    unfold onLine at 1.
    replace (startsWith "event: " "") with false by reflexivity.
    unfold collect at 1. cbn [collectingResult andb].
    rewrite IH by reflexivity.
    cbn [buffer resultBuffer logged repeat List.length].
    now rewrite <- app_assoc.
Qed.

(** X17. When one chunk delivers several progress events, each an
    [event: update] line followed by its [data: ] line and an empty line,
    the log does not receive the progress of each event: the lookup of the
    data line finds the first [event: update] line of the chunk every time,
    so the log receives the data of the first event once per event. *)
Theorem log_repeats_first_update first others st :
  collectingResult st = false ->
  forLines JSON_parse_text (flat_map updateLines (first :: others))
           (flat_map updateLines (first :: others)) st
  = Continue {| buffer := buffer st; resultBuffer := resultBuffer st;
                collectingResult := false;
                logged := logged st ++ repeat first (S (List.length others)) |}.
Proof.
  intros Hcollecting.
  exact (forLines_updates first (flat_map updateLines others) (first :: others) st
           Hcollecting).
Qed.

End ClientMore.

Lemma split_payload_is_reassembled_witness :
  FetchEach.readLoop two_piece_parse
    ["event: upd"; String.append "ate" (String FetchEach.newline "data: 1/1");
     String FetchEach.newline (String FetchEach.newline "event: result");
     String FetchEach.newline
       (String.append "data: "
          (String.append payload_head (String FetchEach.newline "data: ]}")));
     String FetchEach.newline EmptyString] FetchEach.initial
  = Ok (Some (JArr [])).
Proof.
  apply (split_payload_is_reassembled two_piece_parse _
           ["event: update"; "data: 1/1"; EmptyString] [payload_head; payload_tail]
           EmptyString (JObj [("array", JArr [])]) (Some (JArr []))).
  - reflexivity.
  - repeat constructor.
  - repeat constructor.
  - repeat constructor.
  - discriminate.
  - intros k text Hk. simpl in Hk. assert (k = 1%nat) as -> by lia. discriminate.
  - reflexivity.
  - reflexivity.
Defined.

Lemma log_repeats_first_update_witness :
  FetchEach.forLines two_piece_parse
    ["event: update"; "data: 1/2"; EmptyString; "event: update"; "data: 2/2"; EmptyString]
    ["event: update"; "data: 1/2"; EmptyString; "event: update"; "data: 2/2"; EmptyString]
    FetchEach.initial
  = FetchEach.Continue
      {| FetchEach.buffer := EmptyString; FetchEach.resultBuffer := EmptyString;
         FetchEach.collectingResult := false; FetchEach.logged := ["1/2"; "1/2"] |}.
Proof.
  apply (log_repeats_first_update two_piece_parse "1/2" ["2/2"] FetchEach.initial).
  reflexivity.
Defined.

(* ================================================================== *)
(** * Numbers in text *)
(* ================================================================== *)

Section TextFacts.
Import Text.

Lemma uint_chars_digits d :
  Forall (fun c => is_digit c = true) (list_ascii_of_string (NilEmpty.string_of_uint d)).
Proof. induction d; simpl; constructor; auto. Qed.

Lemma parse_digits_stop R rest acc :
  match rest with
  | [] => True
  | c :: _ => match radix_digit c with
              | Some d => R <= d
              | None => True
              end
  end ->
  parse_digits R rest acc = acc.
Proof.
  destruct rest as [|c r]; simpl; [reflexivity|].
  destruct (radix_digit c) as [d|]; [|reflexivity].
  intros H. destruct (Z.ltb_spec d R); [lia | reflexivity].
Qed.

Lemma parse_digits_acc d rest : forall acc : positive,
  parse_digits 10 (list_ascii_of_string (NilEmpty.string_of_uint d) ++ rest)
               (Some (Z.pos acc))
  = parse_digits 10 rest (Some (Z.pos (Pos.of_uint_acc d acc))).
Proof.
  induction d; intros acc;
    cbn [NilEmpty.string_of_uint list_ascii_of_string app Pos.of_uint_acc];
    [reflexivity| ..];
    cbn [parse_digits];
    match goal with
    | |- context [radix_digit ?c] =>
        let v := eval vm_compute in (radix_digit c) in change (radix_digit c) with v
    end; cbn [Z.ltb Z.compare Pos.compare Pos.compare_cont];
    rewrite <- IHd; do 2 f_equal; lia.
Qed.

Lemma parse_digits_zero d rest :
  parse_digits 10 (list_ascii_of_string (NilEmpty.string_of_uint d) ++ rest) (Some 0)
  = parse_digits 10 rest (Some (Z.of_N (Pos.of_uint d))).
Proof.
  induction d; cbn [NilEmpty.string_of_uint list_ascii_of_string app];
    [reflexivity| ..];
    cbn [parse_digits];
    match goal with
    | |- context [radix_digit ?c] =>
        let v := eval vm_compute in (radix_digit c) in change (radix_digit c) with v
    end; cbn [Z.ltb Z.compare Pos.compare Pos.compare_cont];
    first [ exact IHd | cbn [Pos.of_uint Z.of_N]; rewrite <- parse_digits_acc; reflexivity ].
Qed.

Lemma parse_digits_uint d rest :
  d <> Decimal.Nil ->
  parse_digits 10 (list_ascii_of_string (NilEmpty.string_of_uint d) ++ rest) None
  = parse_digits 10 rest (Some (Z.of_N (Pos.of_uint d))).
Proof.
  destruct d; intros Hne; [contradiction| ..];
    cbn [NilEmpty.string_of_uint list_ascii_of_string app]; cbn [parse_digits];
    match goal with
    | |- context [radix_digit ?c] =>
        let v := eval vm_compute in (radix_digit c) in change (radix_digit c) with v
    end; cbn [Z.ltb Z.compare Pos.compare Pos.compare_cont];
    first [ exact (parse_digits_zero d rest)
          | cbn [Pos.of_uint Z.of_N]; rewrite <- parse_digits_acc; reflexivity ].
Qed.

Lemma to_uint_not_nil p : Pos.to_uint p <> Decimal.Nil.
Proof.
  intros H. pose proof (DecimalPos.Unsigned.of_to p) as Hp.
  rewrite H in Hp. discriminate.
Qed.

Lemma list_ascii_app s t :
  list_ascii_of_string (s ++ t) = list_ascii_of_string s ++ list_ascii_of_string t.
Proof. induction s as [|c r IH]; simpl; [reflexivity | now rewrite IH]. Qed.

(** What may follow a number for [parseInt] to read the number alone:
    nothing, or a character that is neither a digit nor the [x] of a
    hexadecimal prefix. *)
Lemma parseInt_unsigned d rest radix :
  d <> Decimal.Nil ->
  radix = None \/ radix = Some 10 ->
  match rest with
  | [] => True
  | c :: _ => is_digit c = false /\ is_char "x" c = false /\ is_char "X" c = false
  end ->
  parseInt (string_of_list_ascii
              (list_ascii_of_string (NilEmpty.string_of_uint d) ++ rest)) radix
  = Some (Z.of_N (Pos.of_uint d))
  /\ parseInt (string_of_list_ascii
                 ("-"%char :: list_ascii_of_string (NilEmpty.string_of_uint d) ++ rest))
              radix
     = Some (- Z.of_N (Pos.of_uint d)).
Proof.
  intros Hne Hradix Hrest.
  assert (Hstop : parse_digits 10 rest (Some (Z.of_N (Pos.of_uint d)))
                  = Some (Z.of_N (Pos.of_uint d))).
  { apply parse_digits_stop. destruct rest as [|c r]; [exact I|].
    destruct Hrest as (Hd & _). unfold radix_digit. unfold is_digit in Hd.
    destruct c as [[] [] [] [] [] [] [] []]; vm_compute in Hd |- *;
      first [discriminate | exact I | intros H; discriminate H]. }
  assert (Hhex : strip_hex_prefix (list_ascii_of_string (NilEmpty.string_of_uint d) ++ rest)
                 = None).
  { pose proof (uint_chars_digits d) as Hdigits.
    destruct (list_ascii_of_string (NilEmpty.string_of_uint d)) as [|a [|b l]] eqn:E.
    - destruct d; first [congruence | discriminate].
    - simpl. destruct rest as [|c r]; [reflexivity|].
      destruct Hrest as (_ & Hx & HX). unfold strip_hex_prefix. rewrite Hx, HX.
      now rewrite andb_false_r.
    - inversion Hdigits as [|? ? _ Hb]; subst. inversion Hb as [|? ? Hb' _]; subst.
      simpl. unfold strip_hex_prefix.
      assert (is_char "x" b = false /\ is_char "X" b = false) as [-> ->].
      { unfold is_digit in Hb'. destruct b as [[] [] [] [] [] [] [] []];
          vm_compute in Hb' |- *; first [discriminate | split; reflexivity]. }
      now rewrite andb_false_r. }
  assert (Hhead : exists a l, list_ascii_of_string (NilEmpty.string_of_uint d) = a :: l
                              /\ is_digit a = true).
  { pose proof (uint_chars_digits d) as Hdigits.
    destruct (list_ascii_of_string (NilEmpty.string_of_uint d)) as [|a l] eqn:E.
    - destruct d; first [congruence | discriminate].
    - inversion Hdigits; subst. now exists a, l. }
  destruct Hhead as (a & l & Hchars & Ha).
  assert (Hplain : is_space a = false /\ is_char "+" a = false /\ is_char "-" a = false).
  { unfold is_digit in Ha. destruct a as [[] [] [] [] [] [] [] []];
      vm_compute in Ha |- *; first [discriminate | repeat split; reflexivity]. }
  destruct Hplain as (Hspace & Hplus & Hminus).
  assert (Htrim : trimStart (list_ascii_of_string (NilEmpty.string_of_uint d) ++ rest)
                  = list_ascii_of_string (NilEmpty.string_of_uint d) ++ rest).
  { rewrite Hchars. cbn [app trimStart]. now rewrite Hspace. }
  assert (Hsign : skip_sign (list_ascii_of_string (NilEmpty.string_of_uint d) ++ rest)
                  = list_ascii_of_string (NilEmpty.string_of_uint d) ++ rest).
  { rewrite Hchars. cbn [app skip_sign]. now rewrite Hplus, Hminus. }
  assert (Hneg : match list_ascii_of_string (NilEmpty.string_of_uint d) ++ rest with
                 | c :: _ => is_char "-" c
                 | [] => false
                 end = false).
  { rewrite Hchars. exact Hminus. }
  unfold parseInt. cbv zeta. rewrite !list_ascii_of_string_of_list_ascii.
  split.
  - rewrite Htrim, Hneg, Hsign.
    destruct Hradix as [-> | ->]; cbn [Z.eqb Z.ltb Z.compare Pos.compare Pos.compare_cont
                                        negb andb orb].
    + rewrite Hhex, (parse_digits_uint d rest Hne), Hstop. reflexivity.
    + rewrite (parse_digits_uint d rest Hne), Hstop. reflexivity.
  - cbn [trimStart]. replace (is_space "-") with false by reflexivity.
    cbn [skip_sign]. replace (is_char "-" "-") with true by reflexivity.
    rewrite orb_true_r.
    destruct Hradix as [-> | ->]; cbn [Z.eqb Z.ltb Z.compare Pos.compare Pos.compare_cont
                                        negb andb orb].
    + rewrite Hhex, (parse_digits_uint d rest Hne), Hstop. reflexivity.
    + rewrite (parse_digits_uint d rest Hne), Hstop. reflexivity.
Qed.

Lemma parseInt_Z_to_string z radix :
  radix = None \/ radix = Some 10 ->
  parseInt (Z_to_string z) radix = Some z.
Proof.
  intros Hradix. unfold Z_to_string.
  destruct z as [|p|p]; [destruct Hradix as [-> | ->]; reflexivity| |].
  - assert (Hne := to_uint_not_nil p).
    destruct (parseInt_unsigned (Pos.to_uint p) [] radix Hne Hradix I) as [H _].
    rewrite app_nil_r, string_of_list_ascii_of_string in H.
    cbn [Z.to_int NilZero.string_of_int]. unfold NilZero.string_of_uint.
    destruct (Pos.to_uint p) eqn:E; [contradiction| ..];
      rewrite H; f_equal;
      change (Z.of_N (Pos.of_uint ?d)) with (Z.of_uint d); rewrite <- E;
      exact (DecimalZ.of_to (Z.pos p)).
  - assert (Hne := to_uint_not_nil p).
    destruct (parseInt_unsigned (Pos.to_uint p) [] radix Hne Hradix I) as [_ H].
    rewrite app_nil_r in H. cbn [string_of_list_ascii] in H.
    rewrite string_of_list_ascii_of_string in H.
    cbn [Z.to_int NilZero.string_of_int]. unfold NilZero.string_of_uint.
    destruct (Pos.to_uint p) eqn:E; [contradiction| ..];
      rewrite H; f_equal;
      change (Z.of_N (Pos.of_uint ?d)) with (Z.of_uint d); rewrite <- E;
      exact (DecimalZ.of_to (Z.neg p)).
Qed.

End TextFacts.

(* ================================================================== *)
(** * The controllers *)
(* ================================================================== *)

Section ControllerFacts.
Import Http DayController.

Variable sortByValue : list (string * json) -> list (string * json).

Lemma in_range_nat (p : nat -> bool) first count :
  forallb p (seq first count) = true ->
  forall z, Z.of_nat first <= z < Z.of_nat (first + count) -> p (Z.to_nat z) = true.
Proof.
  intros Hall z Hz. rewrite forallb_forall in Hall. apply Hall, in_seq. lia.
Qed.

Lemma year_four_digits y :
  1000 <= y <= 9999 -> digitsOnly 4 (Z_to_string y) = true.
Proof.
  intros Hy.
  assert (Hall : forallb (fun n => digitsOnly 4 (Z_to_string (Z.of_nat n)))
                         (seq (Z.to_nat 1000) (Z.to_nat 9000)) = true)
    by (vm_compute; reflexivity).
  pose proof (in_range_nat _ _ _ Hall y) as H. cbv beta in H.
  rewrite <- (Z2Nat.id y) by lia. apply H. lia.
Qed.

Lemma padded_two_digits n :
  0 <= n <= 99 -> digitsOnly 2 (Text.padStart 2 "0" (Z_to_string n)) = true.
Proof.
  intros Hn.
  assert (Hall : forallb (fun k => digitsOnly 2 (Text.padStart 2 "0"
                                                   (Z_to_string (Z.of_nat k))))
                         (seq 0 100) = true) by (vm_compute; reflexivity).
  pose proof (in_range_nat _ _ _ Hall n) as H. cbv beta in H.
  rewrite <- (Z2Nat.id n) by lia. apply H. lia.
Qed.

Lemma dayPattern_parts year month day :
  digitsOnly 4 year = true -> digitsOnly 2 month = true -> digitsOnly 2 day = true ->
  dayPattern (year ++ "-" ++ month ++ "-" ++ day) = true.
Proof.
  unfold digitsOnly. intros Hy Hm Hd.
  apply andb_true_iff in Hy as [Hy1 Hy2].
  apply andb_true_iff in Hm as [Hm1 Hm2].
  apply andb_true_iff in Hd as [Hd1 Hd2].
  destruct year as [|y1 [|y2 [|y3 [|y4 [|? ?]]]]]; try discriminate.
  destruct month as [|m1 [|m2 [|? ?]]]; try discriminate.
  destruct day as [|d1 [|d2 [|? ?]]]; try discriminate.
  simpl in Hy2, Hm2, Hd2.
  repeat match goal with
         | H : (_ && _)%bool = true |- _ => apply andb_true_iff in H as [? ?]
         end.
  unfold dayPattern. simpl.
  repeat match goal with
         | H : is_digit _ = true |- _ => rewrite H; clear H
         end.
  reflexivity.
Qed.

Lemma todayString_is_a_day today :
  1000 <= getFullYear today <= 9999 ->
  0 <= getMonth today <= 11 ->
  1 <= getDate today <= 31 ->
  dayPattern (todayString today) = true.
Proof.
  intros Hy Hm Hd. unfold todayString.
  apply dayPattern_parts;
    [apply year_four_digits | apply padded_two_digits | apply padded_two_digits]; lia.
Qed.

Lemma slice_1_slash s : FetchEach.slice 1 ("/" ++ s) = s.
Proof. reflexivity. Qed.

Lemma getDailyStars_outcome date limit w :
  (exists data w', DayService.getDailyStars sortByValue date limit w = (Ok data, w'))
  \/ (DayService.getDailyStars sortByValue date limit w
      = (Throw "Failed to cache data", with_request w (dayUrl date))
      /\ kv_fails w Put ("v4-" ++ date)%string = true).
Proof.
  destruct (getCachedData_read ("v4-" ++ date) w) as (v & Hrun & _).
  destruct (truthy v) eqn:Hv.
  - left. exists (DayService.formatResponse v limit), w.
    apply getDailyStars_hit; [now rewrite Hrun | exact Hv].
  - assert (Hmiss : forall v', fst (DayStorage.getCachedData ("v4-" ++ date) w) = Ok v'
                               -> truthy v' = false).
    { intros v' Hv'. rewrite Hrun in Hv'. simpl in Hv'. now injection Hv' as <-. }
    rewrite (getDailyStars_miss sortByValue date limit w Hmiss).
    destruct (kv_fails w Put _); [right; now split | left; eauto].
Qed.

Lemma handleRequest_outcomes_aux request w :
  exists response w',
    handleRequest sortByValue request w = (Ok response, w')
    /\ ((method request <> "GET" /\ status response = 405 /\ w' = w)
        \/ (method request = "GET"
            /\ dayPattern (FetchEach.slice 1 (pathname request)) = false
            /\ status response = 400 /\ w' = w)
        \/ (method request = "GET"
            /\ dayPattern (FetchEach.slice 1 (pathname request)) = true
            /\ ((exists data,
                    DayService.getDailyStars sortByValue
                      (FetchEach.slice 1 (pathname request))
                      (limitOf (get "limit" (searchParams request))) w = (Ok data, w')
                    /\ response = {| status := 200; headers := corsHeaders;
                                     body := Pretty (scoresJson data) |})
                \/ (response = {| status := 500; headers := [];
                                  body := Plain "Internal Server Error: Failed to cache data" |}
                    /\ kv_fails w Put ("v4-" ++ FetchEach.slice 1 (pathname request))%string
                       = true
                    /\ requests w'
                       = requests w ++ [dayUrl (FetchEach.slice 1 (pathname request))])))).
Proof.
  unfold handleRequest.
  destruct (String.eqb_spec (method request) "GET") as [Hget|Hother]; simpl.
  - destruct (dayPattern (FetchEach.slice 1 (pathname request))) eqn:Hday; simpl.
    + unfold try_catch, bind.
      destruct (getDailyStars_outcome (FetchEach.slice 1 (pathname request))
                  (limitOf (get "limit" (searchParams request))) w)
        as [(data & w' & Hrun) | [Hrun Hput]]; rewrite Hrun; unfold ret.
      * eexists _, w'. split; [reflexivity|]. right. right.
        repeat split; try assumption. left. now exists data.
      * eexists _, _. split; [reflexivity|]. right. right.
        repeat split; try assumption. right. now repeat split.
    + eexists _, w. split; [reflexivity|]. right. left. now repeat split.
  - eexists _, w. split; [reflexivity|]. left. now repeat split.
Qed.

(** X18. The day controller never raises.  A request with another method
    than GET is answered 405 and a path that is not a date 400, in both
    cases without reading the store and without any request; every other
    request is answered 200 with the scores of the service, except that a
    failing write to the store makes the answer a 500 that says so, after
    the upstream request has been made. *)
Theorem handleRequest_outcomes request w :
  exists response w',
    handleRequest sortByValue request w = (Ok response, w')
    /\ ((method request <> "GET" /\ status response = 405 /\ w' = w)
        \/ (method request = "GET"
            /\ dayPattern (FetchEach.slice 1 (pathname request)) = false
            /\ status response = 400 /\ w' = w)
        \/ (method request = "GET"
            /\ dayPattern (FetchEach.slice 1 (pathname request)) = true
            /\ ((exists data,
                    DayService.getDailyStars sortByValue
                      (FetchEach.slice 1 (pathname request))
                      (limitOf (get "limit" (searchParams request))) w = (Ok data, w')
                    /\ response = {| status := 200; headers := corsHeaders;
                                     body := Pretty (scoresJson data) |})
                \/ (response = {| status := 500; headers := [];
                                  body := Plain "Internal Server Error: Failed to cache data" |}
                    /\ kv_fails w Put ("v4-" ++ FetchEach.slice 1 (pathname request))%string
                       = true
                    /\ requests w'
                       = requests w ++ [dayUrl (FetchEach.slice 1 (pathname request))])))).
Proof. exact (handleRequest_outcomes_aux request w). Qed.

(** X19. A limit written in decimal in the query is the limit the service
    gets: for a day held in the store, the answer to
    [GET /<date>?limit=<K>] is 200 with the scores [formatResponse] gives
    for the stored document and [K], and nothing is requested or written.
    This holds for a negative [K] as well, which the service takes as
    counting from the end. *)
Theorem handleRequest_applies_limit date K cached ttl w :
  dayPattern date = true ->
  kv_fails w Get ("v4-" ++ date)%string = false ->
  get ("v4-" ++ date)%string (kv w)
  = Some {| value := Serialized cached; expirationTtl := ttl |} ->
  truthy cached = true ->
  handleRequest sortByValue
    {| method := "GET"; pathname := ("/" ++ date)%string;
       searchParams := [("limit", Z_to_string K)] |} w
  = (Ok {| status := 200; headers := corsHeaders;
           body := Pretty (scoresJson (DayService.formatResponse cached (Some K))) |}, w).
Proof.
  intros Hday Hget Hkv Htruthy. unfold handleRequest.
  cbn [method pathname searchParams]. rewrite slice_1_slash, Hday.
  replace (("GET" =? "GET")%string) with true by reflexivity. cbn [negb].
  assert (Hlimit : limitOf (get "limit" [("limit", Z_to_string K)]) = Some K).
  { cbn [get]. replace (("limit" =? "limit")%string) with true by reflexivity.
    unfold limitOf.
    destruct (String.eqb_spec (Z_to_string K) "") as [Hempty|_].
    - pose proof (parseInt_Z_to_string K None (or_introl eq_refl)) as H.
      rewrite Hempty in H. discriminate.
    - apply parseInt_Z_to_string. now left. }
  rewrite Hlimit. unfold try_catch, bind.
  rewrite (getDailyStars_hit sortByValue date (Some K) w cached); [reflexivity| |exact Htruthy].
  unfold DayStorage.getCachedData, try_catch, bind, kv_get, lift, ret.
  now rewrite Hget, Hkv.
Qed.

(** X20. For a clock in a year of four digits, the path [handleToday]
    builds is a valid date: whatever the method of the request, the answer
    is the one [handleRequest] gives to GET on today's date with the same
    query, and is never 400 or 405. *)
Theorem handleToday_is_valid today request w :
  1000 <= getFullYear today <= 9999 ->
  0 <= getMonth today <= 11 ->
  1 <= getDate today <= 31 ->
  dayPattern (todayString today) = true
  /\ exists response w',
      handleToday sortByValue today request w = (Ok response, w')
      /\ (status response = 200 \/ status response = 500).
Proof.
  intros Hy Hm Hd.
  pose proof (todayString_is_a_day today Hy Hm Hd) as Hday.
  split; [exact Hday|].
  destruct (handleRequest_outcomes_aux
              {| method := "GET"; pathname := ("/" ++ todayString today)%string;
                 searchParams := searchParams request |} w)
    as (response & w' & Hrun & Hcases).
  exists response, w'. split; [exact Hrun|].
  cbn [method pathname] in Hcases. rewrite slice_1_slash, Hday in Hcases.
  destruct Hcases as [(Hne & _) | [(_ & Hbad & _) | (_ & _ & [(data & _ & ->) | (-> & _)])]].
  - now contradiction Hne.
  - discriminate.
  - now left.
  - now right.
Qed.

End ControllerFacts.

Lemma handleRequest_applies_limit_witness :
  DayController.handleRequest (fun es => es)
    {| Http.method := "GET"; Http.pathname := "/2025-01-01";
       Http.searchParams := [("limit", "1")] |} cached_day
  = (Ok {| Http.status := 200; Http.headers := DayController.corsHeaders;
           Http.body := Http.Pretty (JObj [("a/b", JNum 1)]) |}, cached_day).
Proof.
  apply (handleRequest_applies_limit (fun es => es) "2025-01-01" 1 example_document
           (Some 86400) cached_day); reflexivity.
Defined.

Lemma handleToday_is_valid_witness :
  DayController.dayPattern (DayController.todayString march_18) = true
  /\ exists response w',
      DayController.handleToday (fun es => es) march_18
        {| Http.method := "POST"; Http.pathname := "/day"; Http.searchParams := [] |}
        cached_day = (Ok response, w')
      /\ (Http.status response = 200 \/ Http.status response = 500).
Proof.
  apply (handleToday_is_valid (fun es => es) march_18
           {| Http.method := "POST"; Http.pathname := "/day"; Http.searchParams := [] |}
           cached_day); simpl; lia.
Defined.

(* ================================================================== *)
(** * The counting services *)
(* ================================================================== *)

Section CountingFacts.
Import Window Counting.

Lemma scoreOf_countEntry repo aggregatedData e :
  scoreOf repo (countEntry aggregatedData e)
  = scoreOf repo aggregatedData + (if names repo e then 1 else 0).
Proof.
  unfold countEntry, names. destruct (isRepositoryKey (fst e)); simpl; [|lia].
  destruct (snd e) as [| | |value| |]; try lia.
  unfold scoreOf at 1. rewrite get_set.
  destruct (String.eqb_spec (toLowerCase value) repo) as [->|Hne].
  - now rewrite or_zero_scoreOf.
  - unfold scoreOf. lia.
Qed.

Lemma scoreOf_countDay repo entries : forall aggregatedData,
  scoreOf repo (fold_left countEntry entries aggregatedData)
  = scoreOf repo aggregatedData + appearances repo (Some entries).
Proof.
  unfold appearances.
  induction entries as [|e r IH]; cbn [fold_left filter]; intros aggregatedData;
    [simpl; lia|].
  rewrite IH, scoreOf_countEntry. destruct (names repo e); cbn [List.length]; lia.
Qed.

Lemma NoDup_countDay entries : forall aggregatedData,
  NoDup (keys aggregatedData) -> NoDup (keys (fold_left countEntry entries aggregatedData)).
Proof.
  induction entries as [|e r IH]; simpl; intros aggregatedData Hnd; [exact Hnd|].
  apply IH. unfold countEntry. destruct (isRepositoryKey (fst e)); [|exact Hnd].
  destruct (snd e); try exact Hnd. now apply NoDup_keys_set.
Qed.

Lemma processWeekUrl_run aggregatedData url w :
  processWeekUrl aggregatedData url w
  = (Ok match weekDayEntries (net w (requests w) url) with
        | Some entries => fold_left countEntry entries aggregatedData
        | None => aggregatedData
        end, with_request w url).
Proof.
  unfold processWeekUrl, try_catch, bind, fetch, lift, ret, weekDayEntries.
  destruct (net w (requests w) url) as [response|message]; simpl; [|reflexivity].
  destruct (World.ok response); simpl; [|reflexivity].
  destruct (JSON_parse (body response)) as [data|message]; simpl; [|reflexivity].
  now destruct (isObject data).
Qed.

Lemma processMonthUrl_run aggregatedData url w :
  processMonthUrl aggregatedData url w
  = (Ok match dayEntries (net w (requests w) url) with
        | Some entries => fold_left countEntry entries aggregatedData
        | None => aggregatedData
        end, with_request w url).
Proof.
  unfold processMonthUrl, try_catch, bind, fetch, lift, ret, dayEntries.
  destruct (net w (requests w) url) as [response|message]; simpl; [|reflexivity].
  destruct (World.ok response); simpl; [|reflexivity].
  destruct (JSON_parse (body response)) as [data|message]; simpl; [|reflexivity].
  now destruct (Object_entries data).
Qed.

Lemma counting_forUrls processUrl entriesOf :
  (forall aggregatedData url w,
      processUrl aggregatedData url w
      = (Ok match entriesOf (net w (requests w) url) with
            | Some entries => fold_left countEntry entries aggregatedData
            | None => aggregatedData
            end, with_request w url)) ->
  forall urls aggregatedData w,
    NoDup (keys aggregatedData) ->
    exists aggregatedData' w',
      Counting.forUrls processUrl urls aggregatedData w = (Ok aggregatedData', w')
      /\ NoDup (keys aggregatedData')
      /\ requests w' = requests w ++ urls
      /\ kv w' = kv w
      /\ forall repo,
          scoreOf repo aggregatedData'
          = scoreOf repo aggregatedData
            + sumZ (map (fun answer => appearances repo (entriesOf answer))
                        (answers w urls)).
Proof.
  intros Hrun. induction urls as [|url rest IH]; intros aggregatedData w Hnd.
  - exists aggregatedData, w. simpl. rewrite app_nil_r. repeat split; auto. intros; lia.
  - cbn [Counting.forUrls]. unfold bind. rewrite Hrun.
    set (agg1 := match entriesOf (net w (requests w) url) with
                 | Some entries => fold_left countEntry entries aggregatedData
                 | None => aggregatedData
                 end).
    assert (Hnd1 : NoDup (keys agg1)).
    { subst agg1. destruct (entriesOf _); [now apply NoDup_countDay | exact Hnd]. }
    destruct (IH agg1 (with_request w url) Hnd1) as (agg2 & w2 & Hrun2 & Hnd2 & Hreq & Hkv & Hsum).
    exists agg2, w2. split; [exact Hrun2|]. split; [exact Hnd2|].
    split; [rewrite Hreq; simpl; now rewrite <- app_assoc|]. split; [exact Hkv|].
    intros repo. rewrite Hsum. cbn [answers map sumZ fold_right]. fold (sumZ).
    assert (Hfirst : scoreOf repo agg1
                     = scoreOf repo aggregatedData
                       + appearances repo (entriesOf (net w (requests w) url))).
    { subst agg1. destruct (entriesOf _) as [entries|].
      - apply scoreOf_countDay.
      - simpl. lia. }
    rewrite Hfirst. unfold sumZ. simpl. lia.
Qed.

Lemma counting_services_count_appearances_aux (dateString : nat -> string) w :
  (exists result w',
      Counting.getLastWeekData dateString w = (Ok result, w')
      /\ requests w' = requests w ++ urlsOfLast dateString 7
      /\ forall repo,
          scoreOf repo result
          = sumZ (map (fun answer => appearances repo (weekDayEntries answer))
                      (answers w (urlsOfLast dateString 7))))
  /\ (exists result w',
         Counting.getLastMonthData dateString w = (Ok result, w')
         /\ requests w' = requests w ++ urlsOfLast dateString 30
         /\ forall repo,
             scoreOf repo result
             = sumZ (map (fun answer => appearances repo (dayEntries answer))
                         (answers w (urlsOfLast dateString 30)))).
Proof.
  split.
  - destruct (counting_forUrls processWeekUrl weekDayEntries processWeekUrl_run
                (urlsOfLast dateString 7) [] w) as (agg & w' & Hrun & Hnd & Hreq & _ & Hsum);
      [constructor|].
    exists (fromEntries (sortDesc agg)), w'.
    unfold Counting.getLastWeekData, bind, ret. rewrite Hrun.
    split; [reflexivity|]. split; [exact Hreq|].
    intros repo. rewrite (scoreOf_sorted _ _ Hnd), Hsum. reflexivity.
  - destruct (counting_forUrls processMonthUrl dayEntries processMonthUrl_run
                (urlsOfLast dateString 30) [] w) as (agg & w' & Hrun & Hnd & Hreq & _ & Hsum);
      [constructor|].
    exists (fromEntries (sortDesc agg)), w'.
    unfold Counting.getLastMonthData, bind, ret. rewrite Hrun.
    split; [reflexivity|]. split; [exact Hreq|].
    intros repo. rewrite (scoreOf_sorted _ _ Hnd), Hsum. reflexivity.
Qed.

(** X21. The counting week and month services never raise, ask for each
    day of their window once and return, for every repository, the number
    of entries that name it in the documents of the days that were fetched
    and parsed: an entry counts when its key is none of [date],
    [total_repositories] and [timestamp] and its value is the name, in any
    case of letters.  The week service skips a document that is not an
    object or an array; the month service enumerates whatever it gets. *)
Theorem counting_services_count_appearances (dateString : nat -> string) w :
  (exists result w',
      Counting.getLastWeekData dateString w = (Ok result, w')
      /\ requests w' = requests w ++ urlsOfLast dateString 7
      /\ forall repo,
          scoreOf repo result
          = sumZ (map (fun answer => appearances repo (weekDayEntries answer))
                      (answers w (urlsOfLast dateString 7))))
  /\ (exists result w',
         Counting.getLastMonthData dateString w = (Ok result, w')
         /\ requests w' = requests w ++ urlsOfLast dateString 30
         /\ forall repo,
             scoreOf repo result
             = sumZ (map (fun answer => appearances repo (dayEntries answer))
                         (answers w (urlsOfLast dateString 30)))).
Proof. exact (counting_services_count_appearances_aux dateString w). Qed.

(** X22. The week and month controllers always answer 200 with the data
    of their service, for the summing services as for the counting ones:
    since no service raises, the branch that answers 500 is never taken. *)
Theorem window_controllers_answer_200 (dateString : nat -> string) w :
  let answered (handle : M (obj Z) -> M Http.Response) (service : M (obj Z)) :=
    exists data w',
      service w = (Ok data, w')
      /\ handle service w
         = (Ok {| Http.status := 200;
                  Http.headers := [("Content-Type", "application/json")];
                  Http.body := Http.Pretty (Http.scoresJson data) |}, w') in
  answered WeekController.handleLastWeek (Window.getLastWeekData dateString)
  /\ answered MonthController.handleLastMonth (Window.getLastMonthData dateString)
  /\ answered WeekController.handleLastWeek (Counting.getLastWeekData dateString)
  /\ answered MonthController.handleLastMonth (Counting.getLastMonthData dateString).
Proof.
  intros answered.
  destruct (counting_services_count_appearances_aux dateString w)
    as [(r1 & w1 & H1 & _) (r2 & w2 & H2 & _)].
  destruct (aggregateLast_run dateString 7 w) as (a3 & w3 & H3 & _).
  destruct (aggregateLast_run dateString 30 w) as (a4 & w4 & H4 & _).
  unfold answered, WeekController.handleLastWeek, MonthController.handleLastMonth,
    try_catch, bind, ret.
  repeat split.
  - eexists _, w3. unfold Window.getLastWeekData. rewrite H3. split; reflexivity.
  - eexists _, w4. unfold Window.getLastMonthData. rewrite H4. split; reflexivity.
  - exists r1, w1. rewrite H1. split; reflexivity.
  - exists r2, w2. rewrite H2. split; reflexivity.
Qed.

End CountingFacts.

(* ================================================================== *)
(** * The hash in the key of an enriched response *)
(* ================================================================== *)

Section HashFacts.
Import Text ResponseKey.

Lemma toInt32_shift x : exists q, toInt32 x = x + q * 4294967296.
Proof.
  unfold toInt32. pose proof (Z.div_mod x 4294967296 ltac:(lia)) as H.
  destruct (x mod 4294967296 <? 2147483648).
  - exists (- (x / 4294967296)). lia.
  - exists (- (x / 4294967296) - 1). lia.
Qed.

Lemma toInt32_congruent x y :
  x mod 4294967296 = y mod 4294967296 -> toInt32 x = toInt32 y.
Proof. unfold toInt32. now intros ->. Qed.

Lemma hashStep_spec hash hash' char :
  toInt32 hash' = hash ->
  hashStep hash char = toInt32 (31 * hash' + char).
Proof.
  intros <-. unfold hashStep. rewrite Z.land_diag.
  apply toInt32_congruent.
  assert (Hidem : toInt32 (toInt32 hash') = toInt32 hash').
  { destruct (toInt32_shift hash') as (q & Hq). apply toInt32_congruent.
    rewrite Hq. apply Z_mod_plus_full. }
  rewrite Hidem, Z.shiftl_mul_pow2 by lia.
  destruct (toInt32_shift hash') as (q & Hq).
  destruct (toInt32_shift (toInt32 hash' * 2 ^ 5)) as (q' & Hq').
  rewrite Hq', Hq.
  replace ((hash' + q * 4294967296) * 2 ^ 5 + q' * 4294967296
           - (hash' + q * 4294967296) + char)
    with (31 * hash' + char + (31 * q + q') * 4294967296) by lia.
  apply Z_mod_plus_full.
Qed.

Lemma fold_hashStep codes : forall hash hash',
  toInt32 hash' = hash ->
  fold_left hashStep codes hash
  = toInt32 (fold_left (fun h c => 31 * h + c) codes hash').
Proof.
  induction codes as [|c r IH]; simpl; intros hash hash' Hh; [now symmetry|].
  apply IH. symmetry. now apply hashStep_spec.
Qed.

Lemma length_filler k fillString : forall rest,
  fillString <> EmptyString -> String.length (filler k fillString rest) = k.
Proof.
  induction k as [|k IH]; intros rest Hne; [reflexivity|].
  destruct rest as [|c r]; simpl.
  - destruct fillString as [|c r]; [contradiction|]. simpl. now rewrite IH.
  - now rewrite IH.
Qed.

Lemma length_string_app (s t : string) :
  String.length (s ++ t) = (String.length s + String.length t)%nat.
Proof. induction s as [|c r IH]; simpl; [reflexivity | now rewrite IH]. Qed.

Lemma length_padStart n fillString s :
  fillString <> EmptyString ->
  String.length (padStart n fillString s) = Nat.max n (String.length s).
Proof.
  intros Hne. unfold padStart. destruct (Nat.leb_spec n (String.length s)); [lia|].
  rewrite length_string_app, length_filler by exact Hne. lia.
Qed.

Lemma length_toString16_from steps : forall n acc k,
  0 <= n < 16 ^ Z.of_nat (S k) ->
  (String.length (toString16_from steps n acc) <= String.length acc + S k)%nat.
Proof.
  induction steps as [|steps IH]; intros n acc k Hn; simpl; [lia|].
  destruct (Z.eqb_spec (n / 16) 0) as [Hz|Hnz]; [simpl; lia|].
  destruct k as [|k].
  - exfalso. apply Hnz. apply Z.div_small. simpl in Hn. lia.
  - specialize (IH (n / 16) (String (hex_digit (n mod 16)) acc) k).
    simpl String.length in IH. etransitivity; [apply IH|lia].
    split; [apply Z.div_pos; lia|].
    apply Z.div_lt_upper_bound; [lia|].
    replace (16 ^ Z.of_nat (S (S k))) with (16 * 16 ^ Z.of_nat (S k)) in Hn; [lia|].
    rewrite (Nat2Z.inj_succ (S k)), Z.pow_succ_r by lia. reflexivity.
Qed.

Lemma radix_hex_digit d : 0 <= d < 16 -> radix_digit (hex_digit d) = Some d.
Proof.
  intros Hd.
  assert (Hall : forallb (fun k => match radix_digit (hex_digit (Z.of_nat k)) with
                                   | Some v => v =? Z.of_nat k
                                   | None => false
                                   end) (seq 0 16) = true) by reflexivity.
  pose proof (in_range_nat _ _ _ Hall d) as H. cbv beta in H.
  rewrite Z2Nat.id in H by lia. specialize (H ltac:(simpl; lia)).
  destruct (radix_digit (hex_digit d)) as [v|]; [|discriminate].
  apply Z.eqb_eq in H. now subst.
Qed.

Lemma toString16_from_step steps n acc :
  toString16_from (S steps) n acc
  = if n / 16 =? 0 then String (hex_digit (n mod 16)) acc
    else toString16_from steps (n / 16) (String (hex_digit (n mod 16)) acc).
Proof. reflexivity. Qed.

Lemma parse_toString16_from steps : forall n acc pre,
  0 <= n < 2 ^ Z.of_nat (S steps) ->
  pre = None \/ pre = Some 0 ->
  parse_digits 16 (list_ascii_of_string (toString16_from (S steps) n acc)) pre
  = parse_digits 16 (list_ascii_of_string acc) (Some n).
Proof.
  induction steps as [|steps IH]; intros n acc pre Hn Hpre.
  - assert (Hsmall : n / 16 = 0) by (apply Z.div_small; simpl in Hn; lia).
    rewrite toString16_from_step, Hsmall. cbn [Z.eqb list_ascii_of_string parse_digits].
    rewrite Z.mod_small by (simpl in Hn; lia).
    rewrite radix_hex_digit by (simpl in Hn; lia).
    destruct (Z.ltb_spec n 16); [|simpl in Hn; lia].
    destruct Hpre as [-> | ->]; [reflexivity | do 2 f_equal; lia].
  - rewrite toString16_from_step.
    pose proof (Z.mod_pos_bound n 16 ltac:(lia)) as Hmod.
    pose proof (Z.div_mod n 16 ltac:(lia)) as Hdiv.
    destruct (Z.eqb_spec (n / 16) 0) as [Hsmall|Hbig].
    + cbn [list_ascii_of_string parse_digits].
      rewrite radix_hex_digit by exact Hmod.
      destruct (Z.ltb_spec (n mod 16) 16); [|lia].
      destruct Hpre as [-> | ->]; do 2 f_equal; lia.
    + rewrite (IH (n / 16) _ pre); [| |exact Hpre].
      2: { split; [apply Z.div_pos; lia|].
           apply Z.div_lt_upper_bound; [lia|].
           rewrite (Nat2Z.inj_succ (S steps)), Z.pow_succ_r in Hn by lia. lia. }
      cbn [list_ascii_of_string parse_digits].
      rewrite radix_hex_digit by exact Hmod.
      destruct (Z.ltb_spec (n mod 16) 16); [|lia].
      do 2 f_equal. lia.
Qed.

Lemma parse_toString16 n pre :
  0 <= n -> pre = None \/ pre = Some 0 ->
  parse_digits 16 (list_ascii_of_string (toString16 n)) pre = Some n.
Proof.
  intros Hn Hpre. unfold toString16.
  rewrite parse_toString16_from; [reflexivity| |exact Hpre].
  split; [exact Hn|]. rewrite Nat2Z.inj_succ, Z2Nat.id by apply Z.log2_nonneg.
  destruct (Z.eq_dec n 0) as [->|Hnz]; [reflexivity|].
  apply Z.log2_spec. lia.
Qed.

Lemma parse_zero_filler k s : forall rest pre,
  rest = EmptyString \/ rest = "0"%string ->
  pre = None \/ pre = Some 0 ->
  parse_digits 16 (list_ascii_of_string (filler k "0" rest ++ s)) pre
  = parse_digits 16 (list_ascii_of_string s)
                 (match k with O => pre | S _ => Some 0 end).
Proof.
  induction k as [|k IH]; intros rest pre Hrest Hpre; [reflexivity|].
  assert (Hstep : filler (S k) "0" rest = String "0" (filler k "0" EmptyString)).
  { destruct Hrest as [-> | ->]; reflexivity. }
  rewrite Hstep. cbn [String.append list_ascii_of_string parse_digits].
  replace (radix_digit "0") with (Some 0) by reflexivity.
  replace (0 <? 16) with true by reflexivity.
  assert (Hzero : Some match pre with Some a => a * 16 + 0 | None => 0 end = Some 0).
  { destruct Hpre as [-> | ->]; reflexivity. }
  rewrite Hzero, IH by auto. now destruct k.
Qed.

(** X23. [simpleHash] always yields exactly eight characters, and the
    number they spell in hexadecimal is the polynomial hash of the
    character codes, with multiplier 31, reduced modulo 2^32: the shifts,
    the subtraction and the conversions to 32 bits in the loop add up to
    that. *)
Theorem simpleHash_is_polynomial str :
  String.length (simpleHash str) = 8%nat
  /\ parse_digits 16 (list_ascii_of_string (simpleHash str)) None
     = Some (fold_left (fun h c => 31 * h + c) (charCodes str) 0 mod 4294967296).
Proof.
  assert (Hfold : fold_left hashStep (charCodes str) 0
                  = toInt32 (fold_left (fun h c => 31 * h + c) (charCodes str) 0)).
  { now apply fold_hashStep. }
  assert (Hvalue : toUint32 (fold_left hashStep (charCodes str) 0)
                   = fold_left (fun h c => 31 * h + c) (charCodes str) 0 mod 4294967296).
  { rewrite Hfold. unfold toUint32.
    destruct (toInt32_shift (fold_left (fun h c => 31 * h + c) (charCodes str) 0))
      as (q & ->).
    apply Z_mod_plus_full. }
  unfold simpleHash. rewrite Hvalue.
  pose proof (Z.mod_pos_bound (fold_left (fun h c => 31 * h + c) (charCodes str) 0)
                4294967296 ltac:(lia)) as Hbound.
  set (v := fold_left (fun h c => 31 * h + c) (charCodes str) 0 mod 4294967296) in *.
  split.
  - rewrite length_padStart by discriminate.
    assert (Hlen : (String.length (toString16 v) <= 8)%nat).
    { unfold toString16.
      apply (length_toString16_from (S (Z.to_nat (Z.log2 v))) v EmptyString 7).
      change (16 ^ Z.of_nat 8) with 4294967296. exact Hbound. }
    lia.
  - unfold padStart. destruct (8 <=? String.length (toString16 v))%nat.
    + apply parse_toString16; [lia | now left].
    + rewrite parse_zero_filler by auto.
      destruct (8 - String.length (toString16 v))%nat;
        apply parse_toString16; auto; lia.
Qed.

End HashFacts.

(* ================================================================== *)
(** * Calls to the language model *)
(* ================================================================== *)

Section LlmFacts.
Import Llm.

Variable errorText : text -> string.

Lemma length_substring_0 n : forall s,
  (n <= String.length s)%nat -> String.length (substring 0 n s) = n.
Proof.
  induction n as [|n IH]; intros s Hn; [now destruct s|].
  destruct s as [|c r]; simpl in *; [lia|]. rewrite IH; lia.
Qed.

Lemma estimatedTokens_le input maxTokens :
  (estimatedTokens input <=? maxTokens)%nat = (String.length input <=? 4 * maxTokens)%nat.
Proof.
  unfold estimatedTokens.
  pose proof (Nat.div_mod_eq (String.length input + 3) 4) as Hdiv.
  pose proof (Nat.mod_upper_bound (String.length input + 3) 4 ltac:(lia)) as Hmod.
  destruct (Nat.leb_spec ((String.length input + 3) / 4) maxTokens);
    destruct (Nat.leb_spec (String.length input) (4 * maxTokens)); try reflexivity; lia.
Qed.

(** X24. [truncateInput] returns an input of at most [4 * maxTokens]
    characters as it is.  A longer one is cut to its first [4 * maxTokens]
    characters, followed by the note that says so: the result then has
    [4 * maxTokens + 38] characters, which the function's own estimate puts
    at [maxTokens + 10] tokens, above the limit it was cut for. *)
Theorem truncateInput_bounds input maxTokens :
  ((String.length input <= 4 * maxTokens)%nat -> truncateInput input maxTokens = input)
  /\ ((4 * maxTokens < String.length input)%nat ->
      truncateInput input maxTokens
      = (substring 0 (4 * maxTokens) input ++ truncation_note)%string
      /\ String.length (truncateInput input maxTokens) = (4 * maxTokens + 38)%nat
      /\ estimatedTokens (truncateInput input maxTokens) = (maxTokens + 10)%nat).
Proof.
  unfold truncateInput. rewrite estimatedTokens_le. split.
  - intros Hfits. now destruct (Nat.leb_spec (String.length input) (4 * maxTokens)); [|lia].
  - intros Hlong. destruct (Nat.leb_spec (String.length input) (4 * maxTokens)); [lia|].
    replace (maxTokens * 4)%nat with (4 * maxTokens)%nat by lia.
    assert (Hlen : String.length (substring 0 (4 * maxTokens) input ++ truncation_note)
                   = (4 * maxTokens + 38)%nat).
    { rewrite length_string_app, length_substring_0 by lia. reflexivity. }
    split; [reflexivity|]. split; [exact Hlen|].
    unfold estimatedTokens. rewrite Hlen.
    replace (4 * maxTokens + 38 + 3)%nat with (1 + (maxTokens + 10) * 4)%nat by lia.
    rewrite Nat.div_add by lia. reflexivity.
Qed.

Lemma attempt_run w :
  exists outcome, attempt errorText w = (outcome, with_request w apiEndpoint).
Proof.
  unfold attempt, bind, fetch, throw, lift.
  destruct (net w (requests w) apiEndpoint) as [response|message]; [|eauto].
  destruct (negb (ok response)); [eauto|].
  destruct (JSON_parse (body response)); eauto.
Qed.

Lemma retryLoop_run remaining : forall delay waited w,
  exists result waited' w' k,
    retryLoop errorText remaining delay waited w = (result, waited', w')
    /\ (1 <= k <= S remaining)%nat
    /\ requests w' = requests w ++ repeat apiEndpoint k
    /\ kv w' = kv w
    /\ waited' = waited ++ map (fun i => delay * 2 ^ Z.of_nat i) (seq 0 (k - 1))
    /\ result = fst (attempt errorText
                       (Nat.iter (k - 1) (fun w0 => with_request w0 apiEndpoint) w))
    /\ (forall j,
           (j < k - 1)%nat ->
           exists message',
             fst (attempt errorText
                    (Nat.iter j (fun w0 => with_request w0 apiEndpoint) w))
             = Throw message')
    /\ (forall message, result = Throw message -> k = S remaining).
Proof.
  induction remaining as [|remaining IH]; intros delay waited w;
    destruct (attempt_run w) as (outcome & Hrun); cbn [retryLoop]; rewrite Hrun.
  - exists outcome, waited, (with_request w apiEndpoint), 1%nat.
    destruct outcome; simpl; rewrite ?app_nil_r, ?Hrun;
      repeat split; auto; intros; exfalso; lia.
  - destruct outcome as [content|message].
    + exists (Ok content), waited, (with_request w apiEndpoint), 1%nat.
      simpl. rewrite app_nil_r, Hrun. repeat split; auto; try lia.
      discriminate.
    + destruct (IH (delay * backoffFactor retry) (waited ++ [delay])
                   (with_request w apiEndpoint))
        as (result & waited' & w' & k & Hloop & Hk & Hreq & Hkv & Hwaited & Hres & Hfail & Hlast).
      exists result, waited', w', (S k). rewrite Hloop.
      split; [reflexivity|]. split; [lia|]. split.
      { rewrite Hreq. simpl. now rewrite <- app_assoc. }
      split; [exact Hkv|]. split.
      { rewrite Hwaited, <- app_assoc. f_equal.
        replace (S k - 1)%nat with (S (k - 1)) by lia.
        cbn [seq map app]. f_equal; [simpl; lia|].
        rewrite <- seq_shift, map_map. apply map_ext. intros i.
        rewrite Nat2Z.inj_succ, Z.pow_succ_r by lia.
        change (backoffFactor retry) with 2. lia. }
      split.
      { replace (S k - 1)%nat with (S (k - 1)) by lia.
        rewrite Nat.iter_succ_r. exact Hres. }
      split.
      { intros j Hj. destruct j as [|j].
        - exists message. simpl. now rewrite Hrun.
        - rewrite Nat.iter_succ_r. apply (Hfail j). lia. }
      intros message' Hthrow. now rewrite (Hlast message' Hthrow).
Qed.

(** X25. [callDeepseekAPI] makes at most four requests, all to the API
    endpoint, and touches nothing else.  It stops at the first attempt that
    succeeds and returns its content; before each new attempt it waits,
    1000 ms at first and twice as long every time, so that the waits are
    the first of 1000, 2000 and 4000 ms; and it raises only when the fourth
    attempt has failed, with the error of that attempt. *)
Theorem callDeepseekAPI_retries input apiKey w :
  exists result waited w' k,
    callDeepseekAPI errorText input apiKey w = (result, waited, w')
    /\ (1 <= k <= 4)%nat
    /\ requests w' = requests w ++ repeat apiEndpoint k
    /\ kv w' = kv w
    /\ waited = firstn (k - 1) [1000; 2000; 4000]
    /\ result = fst (attempt errorText
                       (Nat.iter (k - 1) (fun w0 => with_request w0 apiEndpoint) w))
    /\ (forall j,
           (j < k - 1)%nat ->
           exists message',
             fst (attempt errorText
                    (Nat.iter j (fun w0 => with_request w0 apiEndpoint) w))
             = Throw message')
    /\ (forall message, result = Throw message -> k = 4%nat).
Proof.
  destruct (retryLoop_run 3 1000 [] w)
    as (result & waited & w' & k & Hloop & Hk & Hreq & Hkv & Hwaited & Hres & Hfail & Hlast).
  exists result, waited, w', k. unfold callDeepseekAPI. cbv zeta.
  cbn [maxRetries initialDelayMs retry].
  repeat split; try assumption; try lia.
  rewrite Hwaited.
  assert (k = 1 \/ k = 2 \/ k = 3 \/ k = 4)%nat as [-> | [-> | [-> | ->]]] by lia;
    reflexivity.
Qed.

End LlmFacts.

(* ================================================================== *)
(** * Storing and serving the list of popular repositories *)
(* ================================================================== *)

Section PopularCacheFacts.
Import Refresh PopularCache.

Variable config : Config.
Variable JSON_stringify_text : json -> string.
Variable JSON_parse_text : string -> res json.

Lemma padded_spells width n :
  (width = 2%nat /\ 0 <= n <= 99) \/ (width = 3%nat /\ 0 <= n <= 999)
  \/ (width = 4%nat /\ 0 <= n <= 9999) ->
  spells width n (padded width n) = true.
Proof.
  intros [[-> Hn] | [[-> Hn] | [-> Hn]]].
  - assert (Hall : forallb (fun k => spells 2 (Z.of_nat k) (padded 2 (Z.of_nat k)))
                           (seq 0 (Z.to_nat 100)) = true) by (vm_compute; reflexivity).
    pose proof (in_range_nat _ _ _ Hall n) as H. cbv beta in H.
    rewrite <- (Z2Nat.id n) by lia. apply H. lia.
  - assert (Hall : forallb (fun k => spells 3 (Z.of_nat k) (padded 3 (Z.of_nat k)))
                           (seq 0 (Z.to_nat 1000)) = true) by (vm_compute; reflexivity).
    pose proof (in_range_nat _ _ _ Hall n) as H. cbv beta in H.
    rewrite <- (Z2Nat.id n) by lia. apply H. lia.
  - assert (Hall : forallb (fun k => spells 4 (Z.of_nat k) (padded 4 (Z.of_nat k)))
                           (seq 0 (Z.to_nat 10000)) = true) by (vm_compute; reflexivity).
    pose proof (in_range_nat _ _ _ Hall n) as H. cbv beta in H.
    rewrite <- (Z2Nat.id n) by lia. apply H. lia.
Qed.

Lemma spells_inv width n s :
  spells width n s = true ->
  String.length s = width /\ option_map Z.of_N (digits_value 0 s) = Some n.
Proof.
  unfold spells. intros H. apply andb_true_iff in H as [Hlen Hval].
  apply Nat.eqb_eq in Hlen. split; [exact Hlen|].
  destruct (digits_value 0 s) as [v|]; [|discriminate].
  apply Z.eqb_eq in Hval. simpl. now subst.
Qed.

Lemma Date_parse_iso_parts Y M D h mi sec ms y mo d hh mm ss mss :
  spells 4 y Y = true -> spells 2 mo M = true -> spells 2 d D = true ->
  spells 2 hh h = true -> spells 2 mm mi = true -> spells 2 ss sec = true ->
  spells 3 mss ms = true ->
  Date_parse_iso (Y ++ "-" ++ M ++ "-" ++ D ++ "T" ++ h ++ ":" ++ mi ++ ":" ++ sec
                    ++ "." ++ ms ++ "Z")
  = if ((1 <=? mo) && (mo <=? 12) && (1 <=? d) && (d <=? 31)
        && (hh <? 24) && (mm <? 60) && (ss <? 60))%bool
    then ValidDate {| getUTCFullYear := y; getUTCMonth := mo - 1; getUTCDate := d;
                      getUTCHours := hh; getUTCMinutes := mm |}
    else InvalidDate.
Proof.
  intros HY HM HD Hh Hmi Hsec Hms.
  apply spells_inv in HY as [LY VY]. apply spells_inv in HM as [LM VM].
  apply spells_inv in HD as [LD VD]. apply spells_inv in Hh as [Lh Vh].
  apply spells_inv in Hmi as [Lmi Vmi]. apply spells_inv in Hsec as [Lsec Vsec].
  apply spells_inv in Hms as [Lms Vms].
  destruct Y as [|y1 [|y2 [|y3 [|y4 [|? ?]]]]]; try discriminate.
  destruct M as [|m1 [|m2 [|? ?]]]; try discriminate.
  destruct D as [|d1 [|d2 [|? ?]]]; try discriminate.
  destruct h as [|h1 [|h2 [|? ?]]]; try discriminate.
  destruct mi as [|i1 [|i2 [|? ?]]]; try discriminate.
  destruct sec as [|s1 [|s2 [|? ?]]]; try discriminate.
  destruct ms as [|l1 [|l2 [|l3 [|? ?]]]]; try discriminate.
  unfold Date_parse_iso.
  match goal with
  | |- context [separators_ok ?s] => replace (separators_ok s) with true by reflexivity
  end.
  unfold digits_at. cbn [String.append substring].
  rewrite VY, VM, VD, Vh, Vmi, Vsec, Vms. reflexivity.
Qed.

Lemma Date_parse_toISOString now :
  validInstant now -> Date_parse_iso (toISOString now) = ValidDate (date now).
Proof.
  intros (Hy & Hmo & Hd & Hh & Hmi & Hs & Hms). unfold toISOString. cbv zeta.
  destruct (Z.leb_spec 0 (getUTCFullYear (date now))); [|lia].
  destruct (Z.leb_spec (getUTCFullYear (date now)) 9999); [|lia]. cbn [andb].
  rewrite (Date_parse_iso_parts _ _ _ _ _ _ _
             (getUTCFullYear (date now)) (getUTCMonth (date now) + 1)
             (getUTCDate (date now)) (getUTCHours (date now))
             (getUTCMinutes (date now)) (getUTCSeconds now) (getUTCMilliseconds now))
    by (apply padded_spells; lia).
  destruct (date now) as [y mo d hh mm]. cbn [getUTCFullYear getUTCMonth getUTCDate
                                                getUTCHours getUTCMinutes] in *.
  replace ((1 <=? mo + 1) && (mo + 1 <=? 12) && (1 <=? d) && (d <=? 31)
           && (hh <? 24) && (mm <? 60) && (getUTCSeconds now <? 60))%bool with true.
  - do 2 f_equal. lia.
  - symmetry. rewrite !andb_true_iff, !Z.leb_le, !Z.ltb_lt. lia.
Qed.

Lemma toISOString_not_empty now : validInstant now -> toISOString now <> EmptyString.
Proof.
  intros Hvalid Hempty. pose proof (Date_parse_toISOString now Hvalid) as H.
  rewrite Hempty in H. discriminate.
Qed.

Lemma marker_key_differs (key : string) : (key ++ "-last-refresh")%string <> key.
Proof.
  intros H. apply (f_equal String.length) in H.
  rewrite length_string_app in H. simpl in H. lia.
Qed.

Lemma wasAfterRefreshTime_eq d :
  wasAfterRefreshTime config d = isTimeToRefresh config d.
Proof.
  unfold wasAfterRefreshTime, isTimeToRefresh. apply orb_comm.
Qed.

(** What the environment reads after a store in which both writes
    succeed. *)
Lemma stored_reads repositories now ns :
  repositories <> JNull ->
  put_fails ns (popularReposCacheKey config) = false ->
  put_fails ns (lastRefreshKey config) = false ->
  get_fails ns (popularReposCacheKey config) = false ->
  get_fails ns (lastRefreshKey config) = false ->
  exists cache_get,
    REPO_CACHE (envOf (storePopularReposInCache config JSON_stringify_text
                         repositories now (Some ns)))
    = Some cache_get
    /\ cache_get (popularReposCacheKey config)
       = Ok (Some (JSON_stringify_text repositories))
    /\ cache_get (lastRefreshKey config) = Ok (Some (toISOString now)).
Proof.
  intros Hnull Hput1 Hput2 Hget1 Hget2.
  assert (Hstored : storePopularReposInCache config JSON_stringify_text repositories
                      now (Some ns)
                    = Some {| entries :=
                                set (lastRefreshKey config)
                                    (toISOString now, popularReposTTL)
                                    (set (popularReposCacheKey config)
                                         (JSON_stringify_text repositories,
                                          popularReposTTL) (entries ns));
                              get_fails := get_fails ns;
                              put_fails := put_fails ns |}).
  { unfold storePopularReposInCache, put. rewrite Hput1. cbn [put_fails].
    change (popularReposCacheKey config ++ "-last-refresh")%string
      with (lastRefreshKey config).
    rewrite Hput2. destruct repositories; try reflexivity. contradiction. }
  rewrite Hstored. unfold envOf. cbn [option_map REPO_CACHE entries get_fails].
  eexists. split; [reflexivity|]. cbv beta. rewrite Hget1, Hget2. split.
  - rewrite get_set_other by (apply not_eq_sym, marker_key_differs).
    now rewrite get_set_same.
  - now rewrite get_set_same.
Qed.

Lemma stored_list_is_served_aux repositories now ns check :
  validInstant now ->
  repositories <> JNull ->
  put_fails ns (popularReposCacheKey config) = false ->
  put_fails ns (lastRefreshKey config) = false ->
  get_fails ns (popularReposCacheKey config) = false ->
  get_fails ns (lastRefreshKey config) = false ->
  JSON_stringify_text repositories <> EmptyString ->
  JSON_parse_text (JSON_stringify_text repositories) = Ok repositories ->
  let served :=
    getPopularReposFromCache config Date_parse_iso JSON_parse_text
      (envOf (storePopularReposInCache config JSON_stringify_text repositories now
                (Some ns)))
      check check in
  Date_parse_iso (toISOString now) = ValidDate (date now)
  /\ (isTimeToRefresh config check = false -> served = repositories)
  /\ (isTimeToRefresh config check = true ->
      sameDay (date now) check -> isTimeToRefresh config (date now) = true ->
      served = repositories)
  /\ (isTimeToRefresh config check = true ->
      previousDay (date now) check -> served = JNull)
  /\ (isTimeToRefresh config check = true ->
      isTimeToRefresh config (date now) = false -> served = JNull).
Proof.
  intros Hvalid Hnull Hput1 Hput2 Hget1 Hget2 Hnonempty Hparse served.
  pose proof (Date_parse_toISOString now Hvalid) as Hdate.
  destruct (stored_reads repositories now ns Hnull Hput1 Hput2 Hget1 Hget2)
    as (cache_get & Henv & Hlist & Hmarker).
  assert (Hrefreshed : hasRefreshedToday config Date_parse_iso
                         (envOf (storePopularReposInCache config JSON_stringify_text
                                   repositories now (Some ns))) check
                       = (isSameDay (date now) check
                          && isTimeToRefresh config (date now))%bool).
  { unfold hasRefreshedToday. rewrite Henv, Hmarker.
    destruct (String.eqb_spec (toISOString now) "") as [Hempty|_];
      [now apply toISOString_not_empty in Hempty|].
    now rewrite Hdate, wasAfterRefreshTime_eq. }
  assert (Hserved : served
                    = if shouldRefreshCache config Date_parse_iso
                           (envOf (storePopularReposInCache config JSON_stringify_text
                                     repositories now (Some ns))) check check
                      then JNull else repositories).
  { subst served. unfold getPopularReposFromCache. rewrite Henv.
    destruct (shouldRefreshCache _ _ _ _ _); [reflexivity|].
    rewrite Hlist. destruct (String.eqb_spec (JSON_stringify_text repositories) "");
      [contradiction|]. now rewrite Hparse. }
  rewrite Hserved, shouldRefreshCache_eq, Hrefreshed.
  split; [exact Hdate|]. split; [|split; [|split]].
  - now intros ->.
  - intros -> Hsame Hpast. apply isSameDay_iff in Hsame. now rewrite Hsame, Hpast.
  - intros -> Hprev. now rewrite (previousDay_not_same _ _ Hprev).
  - intros -> Hbefore. now rewrite Hbefore, andb_false_r.
Qed.

(** X26. After [storePopularReposInCache] has written the list and the
    marker at an instant [now], a check reads the list back as follows.
    Before the cutoff of any day the stored list is served.  At or past the
    cutoff it is served when the store itself happened at or past the
    cutoff of the same UTC day; it is refused, which makes the caller
    fetch the list again, when the store happened on an earlier day or
    before the cutoff of the same day.  The marker is the text of
    [toISOString], which [new Date] reads back as the same date. *)
Theorem stored_list_is_served_until_next_cutoff repositories now ns check :
  validInstant now ->
  repositories <> JNull ->
  put_fails ns (popularReposCacheKey config) = false ->
  put_fails ns (lastRefreshKey config) = false ->
  get_fails ns (popularReposCacheKey config) = false ->
  get_fails ns (lastRefreshKey config) = false ->
  JSON_stringify_text repositories <> EmptyString ->
  JSON_parse_text (JSON_stringify_text repositories) = Ok repositories ->
  let served :=
    getPopularReposFromCache config Date_parse_iso JSON_parse_text
      (envOf (storePopularReposInCache config JSON_stringify_text repositories now
                (Some ns)))
      check check in
  Date_parse_iso (toISOString now) = ValidDate (date now)
  /\ (isTimeToRefresh config check = false -> served = repositories)
  /\ (isTimeToRefresh config check = true ->
      sameDay (date now) check -> isTimeToRefresh config (date now) = true ->
      served = repositories)
  /\ (isTimeToRefresh config check = true ->
      previousDay (date now) check -> served = JNull)
  /\ (isTimeToRefresh config check = true ->
      isTimeToRefresh config (date now) = false -> served = JNull).
Proof. exact (stored_list_is_served_aux repositories now ns check). Qed.

(** X27. The writes of [storePopularReposInCache] fail apart.  When the
    write of the list fails, nothing is written, the marker included.
    When the list is written and the write of the marker fails, or is not
    reached because the list is [null], the new list is in the store
    under the marker of the previous store, if any: with no marker, every
    check at or past the cutoff refuses the list that was just stored.
    Without the binding nothing happens.  The function never raises. *)
Theorem store_failures_leave_marker_behind repositories now ns :
  storePopularReposInCache config JSON_stringify_text repositories now None = None
  /\ (put_fails ns (popularReposCacheKey config) = true ->
      storePopularReposInCache config JSON_stringify_text repositories now (Some ns)
      = Some ns)
  /\ (put_fails ns (popularReposCacheKey config) = false ->
      put_fails ns (lastRefreshKey config) = true \/ repositories = JNull ->
      exists ns',
        storePopularReposInCache config JSON_stringify_text repositories now (Some ns)
        = Some ns'
        /\ get (popularReposCacheKey config) (entries ns')
           = Some (JSON_stringify_text repositories, popularReposTTL)
        /\ get (lastRefreshKey config) (entries ns')
           = get (lastRefreshKey config) (entries ns)
        /\ (get (lastRefreshKey config) (entries ns) = None ->
            forall check,
              isTimeToRefresh config check = true ->
              getPopularReposFromCache config Date_parse_iso JSON_parse_text
                (envOf (Some ns')) check check = JNull)).
Proof.
  split; [reflexivity|]. split.
  - intros Hfail. unfold storePopularReposInCache, put. now rewrite Hfail.
  - intros Hput1 Hput2.
    assert (Hstored : storePopularReposInCache config JSON_stringify_text repositories
                        now (Some ns)
                      = Some {| entries :=
                                  set (popularReposCacheKey config)
                                      (JSON_stringify_text repositories, popularReposTTL)
                                      (entries ns);
                                get_fails := get_fails ns;
                                put_fails := put_fails ns |}).
    { unfold storePopularReposInCache, put. rewrite Hput1. cbn [put_fails].
      change (popularReposCacheKey config ++ "-last-refresh")%string
        with (lastRefreshKey config).
      destruct Hput2 as [Hput2 | Hnull];
        [rewrite Hput2; now destruct repositories | now rewrite Hnull]. }
    rewrite Hstored. eexists. split; [reflexivity|]. cbn [entries].
    split; [apply get_set_same|]. split.
    + apply get_set_other. apply marker_key_differs.
    + intros Hnone check Htime.
      unfold getPopularReposFromCache, envOf. cbn [option_map REPO_CACHE].
      rewrite shouldRefreshCache_eq, Htime.
      unfold hasRefreshedToday. cbn [REPO_CACHE option_map entries get_fails].
      destruct (get_fails ns (lastRefreshKey config)); [reflexivity|].
      rewrite get_set_other by apply marker_key_differs.
      now rewrite Hnone.
Qed.

End PopularCacheFacts.

Lemma stored_list_is_served_until_next_cutoff_witness :
  Refresh.getPopularReposFromCache Refresh.DEV_CONFIG Refresh.Date_parse_iso parse_list
    (PopularCache.envOf
       (PopularCache.storePopularReposInCache Refresh.DEV_CONFIG print_list (JArr [])
          at_0145_on_march_18 (Some empty_namespace)))
    Refresh.at_0200_on_march_18 Refresh.at_0200_on_march_18
  = JArr [].
Proof.
  assert (Hvalid : validInstant at_0145_on_march_18)
    by (unfold validInstant; simpl; lia).
  assert (Hne : print_list (JArr []) <> EmptyString) by discriminate.
  assert (Hnull : JArr [] <> JNull) by discriminate.
  destruct (stored_list_is_served_until_next_cutoff Refresh.DEV_CONFIG print_list
              parse_list (JArr []) at_0145_on_march_18 empty_namespace
              Refresh.at_0200_on_march_18 Hvalid Hnull eq_refl eq_refl eq_refl eq_refl
              Hne eq_refl) as (_ & _ & Hserved & _).
  apply Hserved; [reflexivity | repeat split | reflexivity].
Defined.

(* ================================================================== *)
(** * The requests of an enrichment *)
(* ================================================================== *)

Section EnrichmentRequests.
Import RepositoryEnricher MultipleSources.












End EnrichmentRequests.



(* ================================================================== *)
(** * Fetching the list of popular repositories *)
(* ================================================================== *)

Section PopularServiceFacts.
Import Refresh PopularCache PopularService.

Variable config : Config.
Variable JSON_parse_text : string -> res json.
Variable JSON_stringify_text : json -> string.
Variable errorText : text -> string.

(** X30. Past the cutoff, the list of popular repositories is fetched once
    a day.  When the check refuses what the store holds and the service
    answers with a document that has a list of repositories, the call makes
    one request, stores the list with its marker and returns the list; a
    later call on the same UTC day returns the same list from the store,
    without any request and without writing. *)
Theorem popular_repositories_fetched_once_a_day
    stamp later ns w response data repositories :
  validInstant stamp ->
  isTimeToRefresh config (date stamp) = true ->
  sameDay (date stamp) later ->
  put_fails ns (popularReposCacheKey config) = false ->
  put_fails ns (lastRefreshKey config) = false ->
  get_fails ns (popularReposCacheKey config) = false ->
  get_fails ns (lastRefreshKey config) = false ->
  getPopularReposFromCache config Date_parse_iso JSON_parse_text (envOf (Some ns))
    (date stamp) (date stamp) = JNull ->
  net w (requests w) POPULAR_REPOS_API = Ok response ->
  World.ok response = true ->
  JSON_parse (body response) = Ok data ->
  get "repositories" (ownEntries data) = Some repositories ->
  truthy repositories = true ->
  JSON_stringify_text repositories <> EmptyString ->
  JSON_parse_text (JSON_stringify_text repositories) = Ok repositories ->
  exists ns',
    fetchPopularRepositories config Date_parse_iso JSON_parse_text JSON_stringify_text
      errorText (date stamp) (date stamp) stamp (Some ns) w
    = (Ok repositories, Some ns', with_request w POPULAR_REPOS_API)
    /\ forall stamp' w1,
        fetchPopularRepositories config Date_parse_iso JSON_parse_text
          JSON_stringify_text errorText later later stamp' (Some ns') w1
        = (Ok repositories, Some ns', w1).
Proof.
  intros Hvalid Hpast Hsame Hput1 Hput2 Hget1 Hget2 Hrefused Hnet Hok Hdata Hrepos
         Htruthy Hnonempty Hparse.
  assert (Hnotnull : data <> JNull /\ repositories <> JNull).
  { split; intros ->; discriminate. }
  destruct Hnotnull as [Hd Hr].
  assert (Hfirst : fetchOrServe config Date_parse_iso JSON_parse_text JSON_stringify_text
                     errorText (date stamp) (date stamp) stamp (Some ns) w
                   = (Ok repositories,
                      storePopularReposInCache config JSON_stringify_text repositories
                        stamp (Some ns),
                      with_request w POPULAR_REPOS_API)).
  { unfold fetchOrServe. rewrite Hrefused. cbn [truthy]. rewrite Hnet, Hok. cbn [negb].
    rewrite Hdata.
    assert (Hprop : Llm.property "repositories" (Some data) = Ok (Some repositories)).
    { unfold Llm.property. destruct data; try (now rewrite Hrepos). contradiction. }
    rewrite Hprop. destruct repositories; try reflexivity. contradiction. }
  assert (Hstored : exists ns', storePopularReposInCache config JSON_stringify_text
                                  repositories stamp (Some ns) = Some ns').
  { unfold storePopularReposInCache, put. rewrite Hput1. cbn [put_fails].
    change (popularReposCacheKey config ++ "-last-refresh")%string
      with (lastRefreshKey config).
    rewrite Hput2. destruct repositories; eauto. }
  destruct Hstored as (ns' & Hstored).
  exists ns'. split.
  - unfold fetchPopularRepositories. now rewrite Hfirst, Hstored.
  - intros stamp' w1.
    pose proof (stored_list_is_served_aux config JSON_stringify_text JSON_parse_text
                  repositories stamp ns later Hvalid Hr Hput1 Hput2 Hget1 Hget2
                  Hnonempty Hparse) as (_ & Hbefore & Hafter & _).
    rewrite Hstored in Hbefore, Hafter.
    assert (Hserved : getPopularReposFromCache config Date_parse_iso JSON_parse_text
                        (envOf (Some ns')) later later = repositories).
    { destruct (isTimeToRefresh config later) eqn:Hlater.
      - now apply Hafter.
      - now apply Hbefore. }
    unfold fetchPopularRepositories, fetchOrServe. now rewrite Hserved, Htruthy.
Qed.

End PopularServiceFacts.

Lemma popular_repositories_fetched_once_a_day_witness :
  exists ns',
    PopularService.fetchPopularRepositories Refresh.DEV_CONFIG Refresh.Date_parse_iso
      parse_list print_list (fun _ => EmptyString)
      (PopularCache.date at_0145_on_march_18) (PopularCache.date at_0145_on_march_18)
      at_0145_on_march_18 (Some empty_namespace) popular_api
    = (Ok (JArr []), Some ns',
       with_request popular_api PopularService.POPULAR_REPOS_API)
    /\ forall stamp' w1,
        PopularService.fetchPopularRepositories Refresh.DEV_CONFIG Refresh.Date_parse_iso
          parse_list print_list (fun _ => EmptyString)
          Refresh.at_0200_on_march_18 Refresh.at_0200_on_march_18 stamp' (Some ns') w1
        = (Ok (JArr []), Some ns', w1).
Proof.
  assert (Hvalid : validInstant at_0145_on_march_18)
    by (unfold validInstant; simpl; lia).
  assert (Hne : print_list (JArr []) <> EmptyString) by discriminate.
  assert (Hsame : Refresh.sameDay (PopularCache.date at_0145_on_march_18)
                                  Refresh.at_0200_on_march_18) by (repeat split).
  exact (popular_repositories_fetched_once_a_day Refresh.DEV_CONFIG parse_list print_list
           (fun _ => EmptyString) at_0145_on_march_18 Refresh.at_0200_on_march_18
           empty_namespace popular_api _ _ (JArr [])
           Hvalid eq_refl Hsame eq_refl eq_refl eq_refl eq_refl eq_refl eq_refl eq_refl
           eq_refl eq_refl eq_refl Hne eq_refl).
Defined.
